(** * The form parser of the interpreter (package [core], parse stage)

    A shallow embedding of the semantic analyzer: read objects are lowered
    to an expression tree while a parse context (lexical frames, loop
    bindings, the recur flags) and the global environment are threaded
    through.  Go's panics are a result type, [defer] is an explicit
    combinator, maps keyed by interned strings are [gmap string]. *)

From Stdlib Require Import Ascii.
From stdpp Require Import base option list gmap strings sorting pretty.

Set Warnings "-register-all".

(** ** Positions and read objects *)

Record Position := mkPosition {
  endLine : Z;
  endColumn : Z;
  startLine : Z;
  startColumn : Z;
  filename : option string;
}.

(** [Position{}], the zero value. *)
Definition noPosition : Position := mkPosition 0 0 0 0 None.

Record ObjectInfo := mkObjectInfo { info_Position : Position }.

Definition VarId := nat.
Definition NsId := string.

Record JType := mkType { type_name : string }.

(** The values the reader (and macro expansion) hands to the parser.  Every
    sequence kind ([List], [ConsSeq], ...) answering the [Seq] interface is
    an [OList]; [ArrayMap] and [HashMap] are an [OMap] whose entries are
    kept in iteration order. *)
Inductive Object : Type :=
| ONil (info : option ObjectInfo)
| OBoolean (info : option ObjectInfo) (B : bool)
| OInt (info : option ObjectInfo) (I : Z)
| OString (info : option ObjectInfo) (S : string)
| OKeyword (info : option ObjectInfo) (kns : option string) (kname : string)
| OSymbol (info : option ObjectInfo) (meta : option (list (Object * Object)))
          (sns : option string) (sname : string)
| OList (info : option ObjectInfo) (meta : option (list (Object * Object)))
        (items : list Object)
| OVector (info : option ObjectInfo) (meta : option (list (Object * Object)))
          (items : list Object)
| OMap (info : option ObjectInfo) (meta : option (list (Object * Object)))
       (entries : list (Object * Object))
| OMapSet (info : option ObjectInfo) (meta : option (list (Object * Object)))
          (items : list Object)
| OType (t : JType)
| OVar (v : VarId)
| OFn (f : nat)
| OProc (p : nat).

Definition MapData := list (Object * Object).

Definition NIL : Object := ONil None.

Record Symbol := mkSymbol {
  sym_info : option ObjectInfo;
  sym_meta : option MapData;
  ns : option string;
  name : string;
}.

Definition symObj (s : Symbol) : Object :=
  OSymbol (sym_info s) (sym_meta s) (ns s) (name s).

(** [obj.(Symbol)] with its [ok]. *)
Definition asSymbol (o : Object) : option Symbol :=
  match o with
  | OSymbol i m n s => Some (mkSymbol i m n s)
  | _ => None
  end.

Definition IsSymbol (o : Object) : bool :=
  match o with OSymbol _ _ _ _ => true | _ => false end.
Definition IsVector (o : Object) : bool :=
  match o with OVector _ _ _ => true | _ => false end.
Definition IsSeq (o : Object) : bool :=
  match o with OList _ _ _ => true | _ => false end.

(** [Symbol.Equals]: namespace and name, whatever the position and the
    metadata. *)
Definition Symbol_Equals (a b : Symbol) : bool :=
  bool_decide (ns a = ns b) && bool_decide (name a = name b).

Definition GetInfo (o : Object) : option ObjectInfo :=
  match o with
  | ONil i | OBoolean i _ | OInt i _ | OString i _ | OKeyword i _ _
  | OSymbol i _ _ _ | OList i _ _ | OVector i _ _ | OMap i _ _
  | OMapSet i _ _ => i
  | OType _ | OVar _ | OFn _ | OProc _ => None
  end.

(** [obj.(Meta).GetMeta()]; [None] also stands for an object that is no
    [Meta] where the caller has checked the variant before. *)
Definition GetMeta (o : Object) : option MapData :=
  match o with
  | OSymbol _ m _ _ | OList _ m _ | OVector _ m _ | OMap _ m _
  | OMapSet _ m _ => m
  | _ => None
  end.

Definition isMeta (o : Object) : bool :=
  match o with
  | OSymbol _ _ _ _ | OList _ _ _ | OVector _ _ _ | OMap _ _ _
  | OMapSet _ _ _ => true
  | _ => false
  end.

Definition GetPosition (obj : Object) : Position :=
  match GetInfo obj with
  | Some info => info_Position info
  | None => noPosition
  end.

Definition WithInfo (o : Object) (i : option ObjectInfo) : Object :=
  match o with
  | ONil _ => ONil i
  | OBoolean _ b => OBoolean i b
  | OInt _ z => OInt i z
  | OString _ s => OString i s
  | OKeyword _ n s => OKeyword i n s
  | OSymbol _ m n s => OSymbol i m n s
  | OList _ m l => OList i m l
  | OVector _ m l => OVector i m l
  | OMap _ m l => OMap i m l
  | OMapSet _ m l => OMapSet i m l
  | _ => o
  end.

(** Modelled from the spec: the sequence helpers [First], [Rest], [Second],
    [Third], [Fourth] and [SeqCount] are not part of the sources at hand.
    A missing element reads as [NIL] (section 4.2: the else branch defaults
    to the nil literal), and the rest of a sequence carries neither
    position nor metadata. *)
Definition seqItems (o : Object) : option (list Object) :=
  match o with OList _ _ l => Some l | _ => None end.

Definition First (l : list Object) : Object := nth 0 l NIL.
Definition Second (l : list Object) : Object := nth 1 l NIL.
Definition Third (l : list Object) : Object := nth 2 l NIL.
Definition Fourth (l : list Object) : Object := nth 3 l NIL.
Definition SeqCount (l : list Object) : Z := Z.of_nat (length l).
Definition RestObj (l : list Object) : Object := OList None None (tail l).

(** [m.Get(key)] for a keyword key: keywords compare by namespace and
    name. *)
Fixpoint Map_Get_kw (k : string) (m : MapData) : option Object :=
  match m with
  | [] => None
  | (OKeyword _ None k', v) :: m' =>
      if bool_decide (k' = k) then Some v else Map_Get_kw k m'
  | _ :: m' => Map_Get_kw k m'
  end.

(** ** Expressions *)

Record Binding := mkBinding {
  b_name : Symbol;
  index : Z;
  b_frame : Z;
  isUsed : bool;
  inferredType : option JType;
}.

Record FnArityExprOf (E : Type) := mkFnArityExpr {
  arity_pos : Position;
  args : list Symbol;
  body : list E;
  taggedType : option JType;
}.
Arguments mkFnArityExpr {E}.
Arguments arity_pos {E}.
Arguments args {E}.
Arguments body {E}.
Arguments taggedType {E}.

Record CatchExprOf (E : Type) := mkCatchExpr {
  catch_pos : Position;
  excType : JType;
  excSymbol : Symbol;
  catch_body : list E;
}.
Arguments mkCatchExpr {E}.
Arguments catch_pos {E}.
Arguments excType {E}.
Arguments excSymbol {E}.
Arguments catch_body {E}.

Record MapExprOf (E : Type) := mkMapExpr {
  map_pos : Position;
  keys : list E;
  values : list E;
}.
Arguments mkMapExpr {E}.
Arguments map_pos {E}.
Arguments keys {E}.
Arguments values {E}.

Record FnExprOf (E : Type) := mkFnExpr {
  fn_pos : Position;
  arities : list (FnArityExprOf E);
  variadic : option (FnArityExprOf E);
  self : option Symbol;
}.
Arguments mkFnExpr {E}.
Arguments fn_pos {E}.
Arguments arities {E}.
Arguments variadic {E}.
Arguments self {E}.

Record LetExprOf (E : Type) := mkLetExpr {
  let_pos : Position;
  names : list Symbol;
  let_values : list E;
  let_body : list E;
}.
Arguments mkLetExpr {E}.
Arguments let_pos {E}.
Arguments names {E}.
Arguments let_values {E}.
Arguments let_body {E}.

Record TryExprOf (E : Type) := mkTryExpr {
  try_pos : Position;
  try_body : list E;
  catches : list (CatchExprOf E);
  finallyExpr : option (list E);
}.
Arguments mkTryExpr {E}.
Arguments try_pos {E}.
Arguments try_body {E}.
Arguments catches {E}.
Arguments finallyExpr {E}.

Inductive Expr : Type :=
| LiteralExpr (pos : Position) (obj : Object) (isSurrogate : bool)
| VectorExpr (pos : Position) (v : list Expr)
| MapExpr (m : MapExprOf Expr)
| SetExpr (pos : Position) (elements : list Expr)
| IfExpr (pos : Position) (cond positive negative : Expr)
| DefExpr (pos : Position) (vr : VarId) (dname : Symbol)
          (value : option Expr) (dmeta : option Expr) (isCreatedByMacro : bool)
| CallExpr (pos : Position) (callable : Expr) (cargs : list Expr)
| MacroCallExpr (pos : Position) (macro : Object) (margs : list Object)
                (mname : string)
| RecurExpr (pos : Position) (rargs : list Expr)
| VarRefExpr (pos : Position) (vr : VarId)
| BindingExpr (pos : Position) (binding : Binding)
| MetaExpr (pos : Position) (emeta : MapExprOf Expr) (expr : Expr)
| DoExpr (pos : Position) (dbody : list Expr) (isCreatedByMacro : bool)
| FnExpr (fn : FnExprOf Expr)
| LetExpr (l : LetExprOf Expr)
| LoopExpr (l : LetExprOf Expr)
| ThrowExpr (pos : Position) (e : Expr)
| TryExpr (t : TryExprOf Expr)
| SetMacroExpr (pos : Position) (vr : VarId).

Definition FnArityExpr := FnArityExprOf Expr.
Definition CatchExpr := CatchExprOf Expr.
Definition TryExprD := TryExprOf Expr.
Definition FnExprD := FnExprOf Expr.
Definition LetExprD := LetExprOf Expr.
Definition MapExprD := MapExprOf Expr.

Definition Expr_Pos (e : Expr) : Position :=
  match e with
  | LiteralExpr p _ _ | VectorExpr p _ | SetExpr p _ | IfExpr p _ _ _
  | DefExpr p _ _ _ _ _ | CallExpr p _ _ | MacroCallExpr p _ _ _
  | RecurExpr p _ | VarRefExpr p _ | BindingExpr p _ | MetaExpr p _ _
  | DoExpr p _ _ | ThrowExpr p _ | SetMacroExpr p _ => p
  | MapExpr m => map_pos m
  | FnExpr f => fn_pos f
  | LetExpr l | LoopExpr l => let_pos l
  | TryExpr t => try_pos t
  end.

(** ** Vars, namespaces and the global environment

    Pointers to Vars are handles into an arena; a namespace pointer is the
    key under which [GLOBAL_ENV.Namespaces] holds the namespace. *)

Record Var := mkVar {
  vr_info : option ObjectInfo;
  vr_meta : option MapData;
  vr_ns : option NsId;
  vr_name : Symbol;
  Value : option Object;
  vr_expr : option Expr;
  isMacro : bool;
  isPrivate : bool;
  isDynamic : bool;
  vr_isUsed : bool;
  isGloballyUsed : bool;
  isFake : bool;
  vr_taggedType : option JType;
}.

Record Namespace := mkNamespace {
  Name : Symbol;
  mappings : gmap string VarId;
  aliases : gmap string NsId;
  ns_isUsed : bool;
  ns_isGloballyUsed : bool;
}.

Record Env := mkEnv {
  Namespaces : gmap string Namespace;
  Vars : gmap nat Var;
  CoreNamespace : NsId;
  CurrentNamespace : NsId;
}.

(** ** Lexical frames and the parse context *)

Record BindingsFrame := mkFrame {
  bindings : gmap string Binding;
  frame : Z;
}.

(** A [*Bindings] chain, innermost frame first; [[]] is the nil pointer and
    the tail of a chain is its [parent]. *)
Definition Bindings := list BindingsFrame.

Record ParseContext := mkCtx {
  localBindings : Bindings;
  loopBindings : list (list Symbol);
  linterBindings : Bindings;
  recur : bool;
  noRecurAllowed : bool;
  isUnknownCallableScope : bool;
}.

Record Warnings := mkWarnings {
  ifWithoutElse : bool;
  unusedFnParameters : bool;
  fnWithEmptyBody : bool;
  ignoredUnusedNamespaces : option (list Symbol);
  entryPoints : list Symbol;
}.

(** One line written to [Stderr] by [printError]: the position supplies
    file, line and column, [d_msg] is the text after them. *)
Record Diagnostic := mkDiagnostic {
  d_pos : Position;
  d_msg : string;
}.

(** The mutable state the parser works on: the context it is handed, the
    global environment, the diagnostic sink and the package-level
    variables. *)
Record PState := mkState {
  ctx : ParseContext;
  GLOBAL_ENV : Env;
  Stderr : list Diagnostic;
  PROBLEM_COUNT : Z;
  KNOWN_MACROS : option VarId;
  REQUIRE_VAR : option VarId;
  ALIAS_VAR : option VarId;
  REFER_VAR : option VarId;
  CREATE_NS_VAR : option VarId;
  IN_NS_VAR : option VarId;
}.

(** ** Panics, results and the parser monad *)

Inductive Panic : Type :=
| ParseError (obj : Object) (msg : string)
| EvalError (msg : string)
| RuntimePanic (msg : string)
| OutOfFuel.

Inductive Res (A : Type) : Type :=
| Ok (a : A)
| Raise (p : Panic).
Arguments Ok {A}.
Arguments Raise {A}.

(** A computation always hands back the state: what a panicking call has
    already written stays written. *)
Definition M (A : Type) : Type := PState → Res A * PState.

#[global] Instance M_ret : MRet M := λ A a s, (Ok a, s).
#[global] Instance M_bind : MBind M := λ A B f m s,
  match m s with
  | (Ok a, s') => f a s'
  | (Raise p, s') => (Raise p, s')
  end.

Definition panic {A} (p : Panic) : M A := λ s, (Raise p, s).
Definition get : M PState := λ s, (Ok s, s).
Definition gets {A} (f : PState → A) : M A := λ s, (Ok (f s), s).
Definition modify (f : PState → PState) : M unit := λ s, (Ok tt, f s).

(** [defer d] placed before [m]: [d] runs when [m] returns and when it
    panics; a panic of [d] itself replaces the pending one. *)
Definition with_defer {A} (d : M unit) (m : M A) : M A := λ s,
  let '(r, s1) := m s in
  match d s1 with
  | (Ok _, s2) => (r, s2)
  | (Raise p, s2) => (Raise p, s2)
  end.

Definition when (b : bool) (m : M unit) : M unit :=
  if b then m else mret tt.

(** State accessors. *)
Definition set_ctx (c : ParseContext) (s : PState) : PState :=
  mkState c (GLOBAL_ENV s) (Stderr s) (PROBLEM_COUNT s) (KNOWN_MACROS s)
    (REQUIRE_VAR s) (ALIAS_VAR s) (REFER_VAR s) (CREATE_NS_VAR s) (IN_NS_VAR s).
Definition set_env (e : Env) (s : PState) : PState :=
  mkState (ctx s) e (Stderr s) (PROBLEM_COUNT s) (KNOWN_MACROS s)
    (REQUIRE_VAR s) (ALIAS_VAR s) (REFER_VAR s) (CREATE_NS_VAR s) (IN_NS_VAR s).

Definition set_localBindings (b : Bindings) (c : ParseContext) :=
  mkCtx b (loopBindings c) (linterBindings c) (recur c) (noRecurAllowed c)
    (isUnknownCallableScope c).
Definition set_loopBindings (l : list (list Symbol)) (c : ParseContext) :=
  mkCtx (localBindings c) l (linterBindings c) (recur c) (noRecurAllowed c)
    (isUnknownCallableScope c).
Definition set_linterBindings (b : Bindings) (c : ParseContext) :=
  mkCtx (localBindings c) (loopBindings c) b (recur c) (noRecurAllowed c)
    (isUnknownCallableScope c).
Definition set_recur (b : bool) (c : ParseContext) :=
  mkCtx (localBindings c) (loopBindings c) (linterBindings c) b
    (noRecurAllowed c) (isUnknownCallableScope c).
Definition set_noRecurAllowed (b : bool) (c : ParseContext) :=
  mkCtx (localBindings c) (loopBindings c) (linterBindings c) (recur c) b
    (isUnknownCallableScope c).
Definition set_isUnknownCallableScope (b : bool) (c : ParseContext) :=
  mkCtx (localBindings c) (loopBindings c) (linterBindings c) (recur c)
    (noRecurAllowed c) b.

Definition getCtx {A} (f : ParseContext → A) : M A := gets (λ s, f (ctx s)).
Definition modCtx (f : ParseContext → ParseContext) : M unit :=
  modify (λ s, set_ctx (f (ctx s)) s).
Definition getEnv : M Env := gets GLOBAL_ENV.
Definition modEnv (f : Env → Env) : M unit :=
  modify (λ s, set_env (f (GLOBAL_ENV s)) s).

(** Dereferencing a Var or namespace handle.  A handle outside the arena has
    no counterpart in the program (its pointers are live); the model
    reports it as a run-time panic. *)
Definition getVar (v : VarId) : M Var := λ s,
  match Vars (GLOBAL_ENV s) !! v with
  | Some x => (Ok x, s)
  | None => (Raise (RuntimePanic "invalid Var handle"), s)
  end.

Definition modVar (v : VarId) (f : Var → Var) : M unit :=
  x ← getVar v;
  modEnv (λ e, mkEnv (Namespaces e) (<[v := f x]> (Vars e))
                 (CoreNamespace e) (CurrentNamespace e)).

Definition getNs (n : NsId) : M Namespace := λ s,
  match Namespaces (GLOBAL_ENV s) !! n with
  | Some x => (Ok x, s)
  | None => (Raise (RuntimePanic "invalid namespace handle"), s)
  end.

Definition modNs (n : NsId) (f : Namespace → Namespace) : M unit :=
  x ← getNs n;
  modEnv (λ e, mkEnv (<[n := f x]> (Namespaces e)) (Vars e)
                 (CoreNamespace e) (CurrentNamespace e)).

Definition Var_setUsed (x : Var) : Var :=
  mkVar (vr_info x) (vr_meta x) (vr_ns x) (vr_name x) (Value x) (vr_expr x)
    (isMacro x) (isPrivate x) (isDynamic x) true true (isFake x)
    (vr_taggedType x).

Definition Ns_setUsed (n : Namespace) : Namespace :=
  mkNamespace (Name n) (mappings n) (aliases n) true true.

(** ** Interned names and what the parser takes from its surroundings *)

Record Str := mkStr {
  _if : string;
  quote : string;
  fn_ : string;
  let_ : string;
  letfn_ : string;
  loop_ : string;
  str_recur : string;
  setMacro_ : string;
  def : string;
  defLinter : string;
  _var : string;
  do : string;
  throw : string;
  try : string;
  coreFilename : string;
}.

(** The entries of [SYMBOLS] and [KEYWORDS] the parser reads. *)
Record Symbols := mkSymbols {
  catch : Symbol;
  finally : Symbol;
  amp : Symbol;
}.

Record Keywords := mkKeywords {
  tag : string;
  skipUnused : string;
  private : string;
  dynamic : string;
  macro_kw : string;
  arglist : string;
  doc : string;
}.

(** Everything the parser refers to without defining it here: the mode
    flags and tables of the package, the namespace registry, the
    evaluator, type inference and the printing of objects.  The registry's
    lookups read the environment; what may write to it, or fail, returns
    in [M]. *)
Class World := {
  LINTER_MODE : bool;
  DIALECT_is_CLJS : bool;
  WARNINGS : Warnings;
  STR : Str;
  SYMBOLS : Symbols;
  KEYWORDS : Keywords;
  TYPES : string → option JType;
  TYPE_Error : JType;
  ToString : Object → string;
  ToBool : Object → bool;
  Object_Equals : Object → Object → bool;
  isCallable : Object → bool;
  Position_Filename : Position → string;
  Resolve : Env → Symbol → option VarId;
  Namespace_Resolve : Env → NsId → string → option VarId;
  FindNamespace : Env → Symbol → option NsId;
  NamespaceFor : Env → NsId → Symbol → option NsId;
  Intern : NsId → Symbol → M VarId;
  InternFake : NsId → Symbol → M VarId;
  generateSymbol : string → M Symbol;
  Eval : Expr → M Object;
  SetMacroExpr_Eval : VarId → M unit;
  InferType : Expr → option JType;
  IsEqualOrImplements : JType → JType → bool;
  CallExpr_Name : Expr → string;
  varCallableString : Var → string;
  Var_Name : Var → string;
  Fn_fnExpr : nat → FnExprD;
  DeriveReadObject : Object → Object → Object;
  fullClassNameRe_MatchString : string → bool;
  sort_BySymbolName : list Symbol → list Symbol;
  MakeSymbol : string → Symbol;
  Seqable_Seq : Object → option (list Object);
}.

(** [strings.HasPrefix], [strings.HasSuffix], [strings.Contains]. *)
Definition HasPrefix (s p : string) : bool := String.prefix p s.
Definition HasSuffix (s p : string) : bool :=
  String.prefix (String.rev p) (String.rev s).
Fixpoint Contains (s sub : string) : bool :=
  String.prefix sub s ||
  match s with
  | EmptyString => false
  | String _ s' => Contains s' sub
  end.

(** [strings.Split(s, sep)] for a one-byte separator and [strings.Join]. *)
Fixpoint Split (s : string) (sep : Ascii.ascii) : list string :=
  match s with
  | EmptyString => [EmptyString]
  | String c s' =>
      if Ascii.eqb c sep then EmptyString :: Split s' sep
      else match Split s' sep with
           | h :: t => String c h :: t
           | [] => [String c EmptyString]
           end
  end.

Definition Join (l : list string) (sep : string) : string :=
  String.concat sep l.

(** [sort.Strings]: increasing byte-wise order. *)
Definition sort_Strings (l : list string) : list string :=
  merge_sort String.le l.

Section Parser.
Context `{W : World}.

(** ** Frames *)

Definition PushFrame (b : Bindings) : Bindings :=
  mkFrame ∅ (match b with [] => 0 | f :: _ => frame f + 1 end)%Z :: b.

Definition PopFrame (b : Bindings) : M Bindings :=
  match b with
  | [] => panic (RuntimePanic "nil pointer dereference")
  | _ :: parent => mret parent
  end.

Definition printError (pos : Position) (msg : string) : M unit :=
  modify (λ s, mkState (ctx s) (GLOBAL_ENV s)
                 (Stderr s ++ [mkDiagnostic pos msg]) (PROBLEM_COUNT s + 1)
                 (KNOWN_MACROS s) (REQUIRE_VAR s) (ALIAS_VAR s) (REFER_VAR s)
                 (CREATE_NS_VAR s) (IN_NS_VAR s)).

Definition printParseWarning (pos : Position) (msg : string) : M unit :=
  printError pos ("Parse warning: " +:+ msg).

Definition printParseError (pos : Position) (msg : string) : M unit :=
  printError pos ("Parse error: " +:+ msg).

Definition isSkipUnused (m : option MapData) : bool :=
  match m with
  | Some m =>
      match Map_Get_kw (skipUnused KEYWORDS) m with
      | Some v => ToBool v
      | None => false
      end
  | None => false
  end.

Definition needsUnusedWarning (b : Binding) : bool :=
  negb (isUsed b) &&
  negb (HasPrefix (name (b_name b)) "_") &&
  negb (HasPrefix (name (b_name b)) "&form") &&
  negb (HasPrefix (name (b_name b)) "&env") &&
  negb (isSkipUnused (sym_meta (b_name b))).

(** [b.AddBinding(...)]: the receiver's own frame is written; the updated
    chain is handed back for the caller to store where [b] came from. *)
Definition AddBinding (b : Bindings) (sym : Symbol) (index : Z)
    (skipUnused : bool) (inferredType : option JType) : M Bindings :=
  match b with
  | [] => panic (RuntimePanic "nil pointer dereference")
  | f :: parent =>
      when (LINTER_MODE && negb skipUnused)
        (match bindings f !! name sym with
         | Some old =>
             when (needsUnusedWarning old)
               (printParseWarning (GetPosition (symObj (b_name old)))
                  ("Unused binding: " +:+ ToString (symObj (b_name old))))
         | None => mret tt
         end);;
      mret (mkFrame (<[name sym := mkBinding sym index (frame f) false
                                     inferredType]> (bindings f))
                    (frame f) :: parent)
  end.

Definition PushLoopBindings (bs : list Symbol) : M unit :=
  modCtx (λ c, set_loopBindings (loopBindings c ++ [bs]) c).

Definition PopLoopBindings : M unit :=
  l ← getCtx loopBindings;
  match l with
  | [] => panic (RuntimePanic "slice bounds out of range")
  | _ => modCtx (set_loopBindings (removelast l))
  end.

(** The innermost loop-bindings vector, [None] for Go's [nil]: every vector
    that is pushed was allocated by [make], so [nil] is returned for the
    empty stack only. *)
Definition GetLoopBindings (c : ParseContext) : option (list Symbol) :=
  last (loopBindings c).

Definition PushEmptyLocalFrame : M unit :=
  modCtx (λ c, set_localBindings (PushFrame (localBindings c)) c).

Fixpoint addBindings (b : Bindings) (names : list Symbol) (i : Z)
    : M Bindings :=
  match names with
  | [] => mret b
  | sym :: rest =>
      b' ← AddBinding b sym i true None;
      addBindings b' rest (i + 1)%Z
  end.

Definition PushLocalFrame (names : list Symbol) : M unit :=
  PushEmptyLocalFrame;;
  b ← getCtx localBindings;
  b' ← addBindings b names 0;
  modCtx (set_localBindings b').

Definition PopLocalFrame : M unit :=
  b ← getCtx localBindings;
  b' ← PopFrame b;
  modCtx (set_localBindings b').

Fixpoint GetBinding (b : Bindings) (sym : Symbol) : option Binding :=
  match b with
  | [] => None
  | env :: parent =>
      match bindings env !! name sym with
      | Some x => Some x
      | None => GetBinding parent sym
      end
  end.

Definition GetLocalBinding (c : ParseContext) (sym : Symbol)
    : option Binding :=
  match ns sym with
  | Some _ => None
  | None => GetBinding (localBindings c) sym
  end.

(** The write [b.isUsed = true] through the pointer [GetBinding] returned:
    the binding sits in the innermost frame that has the name. *)
Definition Binding_setUsed (x : Binding) : Binding :=
  mkBinding (b_name x) (index x) (b_frame x) true (inferredType x).

Fixpoint Bindings_setUsed (b : Bindings) (nm : string) : Bindings :=
  match b with
  | [] => []
  | env :: parent =>
      match bindings env !! nm with
      | Some x =>
          mkFrame (<[nm := Binding_setUsed x]> (bindings env)) (frame env)
          :: parent
      | None => env :: Bindings_setUsed parent nm
      end
  end.

(** [res.Assoc(key, val)] on an array map. *)
Fixpoint Assoc_sym (m : list (Symbol * Object)) (k : Symbol) (v : Object)
    : list (Symbol * Object) :=
  match m with
  | [] => [(k, v)]
  | (k', v') :: m' =>
      if Symbol_Equals k' k then (k', v) :: m' else (k', v') :: Assoc_sym m' k v
  end.

(** [ToMap]: the names in scope, each mapped to [NIL].  Go visits a frame's
    map in an unspecified order; the model takes the order of
    [map_to_list]. *)
Definition ToMap (b : Bindings) : Object :=
  OMap None None
    (map (λ kv, (symObj (fst kv), snd kv))
       (foldl (λ res f,
                 foldl (λ res kv, Assoc_sym res (b_name (snd kv)) NIL) res
                       (map_to_list (bindings f)))
              [] b)).

(** ** Whole-program warnings

    [range] over a Go map visits the entries in an unspecified order.  Each
    warning pass therefore comes in two forms: [_over], which is handed the
    order of the visit (the namespaces, and the mappings of each
    namespace), and the entry point, which takes the order of
    [map_to_list]. *)

Definition isIgnoredUnusedNamespace (n : Namespace) : bool :=
  match ignoredUnusedNamespaces WARNINGS with
  | None => false
  | Some set => existsb (λ x, Symbol_Equals x (Name n)) set
  end.

Definition isEntryPointNs (n : Namespace) : bool :=
  existsb (λ x, Symbol_Equals x (Name n)) (entryPoints WARNINGS).

Definition ResetUsage : M unit :=
  modEnv (λ e,
    let touched : list VarId :=
      flat_map (λ kv : string * Namespace,
                  if bool_decide (kv.1 = CoreNamespace e) then []
                  else map snd (map_to_list (mappings kv.2)))
               (map_to_list (Namespaces e)) in
    mkEnv
      (map_imap (λ k n,
                   Some (if bool_decide (k = CoreNamespace e) then n
                         else mkNamespace (Name n) (mappings n) (aliases n)
                                true (ns_isGloballyUsed n)))
                (Namespaces e))
      (map_imap (λ v x,
                   Some (if bool_decide (v ∈ touched)
                         then mkVar (vr_info x) (vr_meta x) (vr_ns x)
                                (vr_name x) (Value x) (vr_expr x) (isMacro x)
                                (isPrivate x) (isDynamic x) true
                                (isGloballyUsed x) (isFake x)
                                (vr_taggedType x)
                         else x))
                (Vars e))
      (CoreNamespace e) (CurrentNamespace e)).

(** The loop [for _, name := range names { printParseWarning(positions[name],
    prefix+name) }]; a name without entry reads the zero position. *)
Fixpoint printNames (positions : gmap string Position) (prefix : string)
    (names : list string) : M unit :=
  match names with
  | [] => mret tt
  | name :: rest =>
      printParseWarning (default noPosition (positions !! name))
        (prefix +:+ name);;
      printNames positions prefix rest
  end.

Definition isReportedFile (pos : ObjectInfo) : bool :=
  negb (bool_decide (Position_Filename (info_Position pos) = "<joker.core>"))
  && negb (bool_decide (Position_Filename (info_Position pos) = "<user>")).

(** The first loop of the two namespace passes: [names] and [positions]
    after visiting the namespaces in the given order, [keep] being the
    condition on the namespace. *)
Definition collectNamespaces (keep : NsId → Namespace → bool)
    (order : list (NsId * Namespace))
    : list string * gmap string Position :=
  foldl (λ acc kv,
           if keep kv.1 kv.2 then
             match sym_info (Name kv.2) with
             | Some pos =>
                 if isReportedFile pos then
                   let name := ToString (symObj (Name kv.2)) in
                   (acc.1 ++ [name], <[name := info_Position pos]> acc.2)
                 else acc
             | None => acc
             end
           else acc)
        (([], ∅) : list string * gmap string Position) order.

Definition WarnOnGloballyUnusedNamespaces_over
    (order : list (NsId * Namespace)) : M unit :=
  let '(names, positions) :=
    collectNamespaces
      (λ _ n, negb (ns_isGloballyUsed n) && negb (isIgnoredUnusedNamespace n)
              && negb (isEntryPointNs n)) order in
  printNames positions "globally unused namespace " (sort_Strings names).

Definition WarnOnGloballyUnusedNamespaces : M unit :=
  e ← getEnv;
  WarnOnGloballyUnusedNamespaces_over (map_to_list (Namespaces e)).

Definition WarnOnUnusedNamespaces_over (order : list (NsId * Namespace))
    : M unit :=
  e ← getEnv;
  let '(names, positions) :=
    collectNamespaces
      (λ k n, negb (bool_decide (k = CurrentNamespace e))
              && negb (ns_isUsed n) && negb (isIgnoredUnusedNamespace n))
      order in
  printNames positions "unused namespace " (sort_Strings names).

Definition WarnOnUnusedNamespaces : M unit :=
  e ← getEnv;
  WarnOnUnusedNamespaces_over (map_to_list (Namespaces e)).

Definition isRecordConstructor (sym : Symbol) : bool :=
  bool_decide (ns sym = None) &&
  (HasPrefix (name sym) "->" || HasPrefix (name sym) "map->").

(** [isEntryPointVar(vr)], with [n] the namespace [vr.ns] points to. *)
Definition isEntryPointVar (n : Namespace) (vr : Var) : bool :=
  isEntryPointNs n ||
  existsb (λ x, Symbol_Equals x
                  (mkSymbol None None (Some (name (Name n)))
                     (name (vr_name vr))))
          (entryPoints WARNINGS).

(** The nested loop of the two var passes: the namespaces other than the
    core one in the given order, the mappings of each in the order
    [morder] gives for it; [keep] is the condition on a var of the
    namespace itself ([vr.ns == ns], so that [vr.ns] is the namespace
    being visited), [nameOf] the name it is listed under. *)
Definition collectVars (e : Env) (keep : Namespace → Var → bool)
    (nameOf : Var → string)
    (order : list (NsId * Namespace))
    (morder : NsId → list (string * VarId))
    : list string * gmap string Position :=
  foldl (λ acc kv,
           if bool_decide (kv.1 = CoreNamespace e) then acc
           else
             foldl (λ acc m,
                      match Vars e !! m.2 with
                      | Some vr =>
                          if bool_decide (vr_ns vr = Some kv.1)
                             && keep kv.2 vr then
                            match vr_info vr with
                            | Some pos =>
                                (acc.1 ++ [nameOf vr],
                                 <[nameOf vr := info_Position pos]> acc.2)
                            | None => acc
                            end
                          else acc
                      | None => acc
                      end)
                   acc (morder kv.1))
        (([], ∅) : list string * gmap string Position) order.

Definition WarnOnGloballyUnusedVars_over (order : list (NsId * Namespace))
    (morder : NsId → list (string * VarId)) : M unit :=
  e ← getEnv;
  let '(names, positions) :=
    collectVars e
      (λ n vr, negb (isGloballyUsed vr) && negb (isPrivate vr)
               && negb (isRecordConstructor (vr_name vr))
               && negb (isEntryPointVar n vr))
      Var_Name order morder in
  printNames positions "globally unused var " (sort_Strings names).

Definition mappingsOrder (e : Env) (k : NsId) : list (string * VarId) :=
  match Namespaces e !! k with
  | Some n => map_to_list (mappings n)
  | None => []
  end.

Definition WarnOnGloballyUnusedVars : M unit :=
  e ← getEnv;
  WarnOnGloballyUnusedVars_over (map_to_list (Namespaces e)) (mappingsOrder e).

Definition WarnOnUnusedVars_over (order : list (NsId * Namespace))
    (morder : NsId → list (string * VarId)) : M unit :=
  e ← getEnv;
  let '(names, positions) :=
    collectVars e (λ _ vr, negb (vr_isUsed vr) && isPrivate vr)
      (λ vr, name (vr_name vr)) order morder in
  printNames positions "unused var " (sort_Strings names).

Definition WarnOnUnusedVars : M unit :=
  e ← getEnv;
  WarnOnUnusedVars_over (map_to_list (Namespaces e)) (mappingsOrder e).

(** ** The sub-parsers

    [Parse] calls the sub-parsers and they call [Parse]: they are written
    here over the function they recurse into, and the knot is tied by
    [ParseN] below. *)

Section SubParsers.
Variable Parse : Object → M Expr.

Definition NewLiteralExpr (obj : Object) : Expr :=
  LiteralExpr (GetPosition obj) obj false.

Definition NewSurrogateExpr (obj : Object) : Expr :=
  LiteralExpr (GetPosition obj) obj true.

(** The type assertions to [Seq] and to a vector: a failed one is a run-time
    panic. *)
Definition asSeq (obj : Object) : M (list Object) :=
  match seqItems obj with
  | Some l => mret l
  | None => panic (RuntimePanic "interface conversion: not a Seq")
  end.

Fixpoint parseSeq (seq : list Object) : M (list Expr) :=
  match seq with
  | [] => mret []
  | x :: rest =>
      e ← Parse x;
      es ← parseSeq rest;
      mret (e :: es)
  end.

Definition parseVector (v : list Object) (pos : Position) : M Expr :=
  r ← parseSeq v;
  mret (VectorExpr pos r).

Fixpoint parseMapEntries (m : MapData) : M (list Expr * list Expr) :=
  match m with
  | [] => mret ([], [])
  | p :: rest =>
      k ← Parse p.1;
      v ← Parse p.2;
      kvs ← parseMapEntries rest;
      mret (k :: kvs.1, v :: kvs.2)
  end.

Definition parseMap (m : MapData) (pos : Position) : M MapExprD :=
  kvs ← parseMapEntries m;
  mret (mkMapExpr pos kvs.1 kvs.2).

Definition parseSet (s : list Object) (pos : Position) : M Expr :=
  r ← parseSeq s;
  mret (SetExpr pos r).

Definition checkForm (obj : Object) (min max : Z) : M Z :=
  seq ← asSeq obj;
  let c := SeqCount seq in
  if bool_decide (c < min)%Z then
    panic (ParseError obj ("Too few arguments to " +:+ ToString (First seq)))
  else if bool_decide (c > max)%Z then
    panic (ParseError obj ("Too many arguments to " +:+ ToString (First seq)))
  else mret c.

Definition getTaggedType (m : option MapData) : option JType :=
  match m with
  | Some m =>
      match Map_Get_kw (tag KEYWORDS) m with
      | Some typeName =>
          match asSymbol typeName with
          | Some typeSym => TYPES (name typeSym)
          | None => None
          end
      | None => None
      end
  | None => None
  end.

Definition updateVar (vr : VarId) (info : option ObjectInfo)
    (valueExpr : option Expr) (sym : Symbol) : M unit :=
  modVar vr (λ x,
    let x1 := mkVar info (vr_meta x) (vr_ns x) (vr_name x) (Value x) valueExpr
                (isMacro x) (isPrivate x) (isDynamic x) (vr_isUsed x)
                (isGloballyUsed x) (isFake x) (vr_taggedType x) in
    match sym_meta sym with
    | Some meta =>
        mkVar (vr_info x1) (vr_meta x1) (vr_ns x1) (vr_name x1) (Value x1)
          (vr_expr x1) (isMacro x1)
          (match Map_Get_kw (private KEYWORDS) meta with
           | Some p => ToBool p
           | None => isPrivate x1
           end)
          (match Map_Get_kw (dynamic KEYWORDS) meta with
           | Some p => ToBool p
           | None => isDynamic x1
           end)
          (vr_isUsed x1) (isGloballyUsed x1) (isFake x1)
          (getTaggedType (sym_meta sym))
    | None => x1
    end).

(** [formSeq.First().GetInfo().Pos().filename == STR.coreFilename]: the
    head must carry position info, [Pos] on a nil [*ObjectInfo] is a nil
    dereference; file names are interned, so the pointers are equal when
    the names are. *)
Definition isCreatedByMacro (formSeq : list Object) : M bool :=
  match GetInfo (First formSeq) with
  | Some info =>
      mret (bool_decide (filename (info_Position info)
                         = Some (coreFilename STR)))
  | None => panic (RuntimePanic "nil pointer dereference")
  end.

Fixpoint Assoc_kw (m : MapData) (k : string) (v : Object) : MapData :=
  match m with
  | [] => [(OKeyword None None k, v)]
  | (OKeyword i None k', v') :: m' =>
      if bool_decide (k' = k) then (OKeyword i None k', v) :: m'
      else (OKeyword i None k', v') :: Assoc_kw m' k v
  | p :: m' => p :: Assoc_kw m' k v
  end.

Definition isString (o : Object) : bool :=
  match o with OString _ _ => true | _ => false end.

Definition parseDef (obj : Object) (isForLinter : bool) : M Expr :=
  count ← checkForm obj 2 4;
  seq ← asSeq obj;
  let s := Second seq in
  match asSymbol s with
  | Some sym =>
      e ← getEnv;
      (match ns sym with
       | Some n =>
           cur ← getNs (CurrentNamespace e);
           match Name cur with
           | mkSymbol None None None cn =>
               if bool_decide (cn = n) then mret tt
               else panic (ParseError obj
                             "Can't create defs outside of current ns")
           | _ => panic (ParseError obj
                           "Can't create defs outside of current ns")
           end
       | None => mret tt
       end);;
      let symWithoutNs := mkSymbol (sym_info sym) (sym_meta sym) None
                            (name sym) in
      vr ← Intern (CurrentNamespace e) symWithoutNs;
      when isForLinter
        (modVar vr (λ x,
           mkVar (vr_info x) (vr_meta x) (vr_ns x) (vr_name x) (Value x)
             (vr_expr x) (isMacro x) (isPrivate x) (isDynamic x)
             (vr_isUsed x) true (isFake x) (vr_taggedType x)));;
      byMacro ← isCreatedByMacro seq;
      let meta := sym_meta sym in
      '(value, meta) ←
        (if bool_decide (count = 3)%Z then
           v ← Parse (Third seq);
           mret (Some v, meta)
         else if bool_decide (count = 4)%Z then
           v ← Parse (Fourth seq);
           let docstring := Third seq in
           if isString docstring then
             mret (Some v, Some (Assoc_kw (default [] meta) (doc KEYWORDS)
                                          docstring))
           else panic (ParseError docstring "Docstring must be a string")
         else mret (None, meta));
      updateVar vr (GetInfo obj) value sym;;
      pmeta ← (match meta with
               | Some m =>
                   x ← Parse (DeriveReadObject obj (OMap None None m));
                   mret (Some x)
               | None => mret None
               end);
      mret (DefExpr (GetPosition obj) vr sym value pmeta byMacro)
  | None => panic (ParseError s "First argument to def must be a Symbol")
  end.

Definition skipRedundantDo (obj : Object) : bool :=
  if isMeta obj then
    match GetMeta obj with
    | Some m =>
        match Map_Get_kw "skip-redundant-do" m with
        | Some (OBoolean _ true) => true
        | _ => false
        end
    | None => false
    end
  else false.

(** The linter's look at one expression of a body, parsed from [ro]. *)
Definition lintBodyExpr (ro : Object) (expr : Expr) : M unit :=
  match expr with
  | DefExpr pos _ _ _ _ byMacro =>
      when (negb byMacro) (printParseWarning pos "inline def")
  | DoExpr pos _ byMacro =>
      when (negb byMacro && negb (skipRedundantDo ro))
        (printParseWarning pos "redundant do form")
  | _ => mret tt
  end.

(** The [for] loop of [parseBody]; [res] is what has been collected. *)
Fixpoint parseBodyLoop (seq : list Object) (res : list Expr)
    : M (list Expr) :=
  match seq with
  | [] => mret res
  | ro :: seq' =>
      expr ← Parse ro;
      r ← getCtx recur;
      if r && negb (bool_decide (seq' = [])) && negb LINTER_MODE then
        panic (ParseError ro "Can only recur from tail position")
      else
        when LINTER_MODE (lintBodyExpr ro expr);;
        parseBodyLoop seq' (res ++ [expr])
  end.

Definition parseBody (seq : list Object) : M (list Expr) :=
  recur0 ← getCtx recur;
  modCtx (set_recur false);;
  with_defer (modCtx (set_recur recur0)) (parseBodyLoop seq []).

(** A parameter that is no symbol: a generated one in linter mode, a
    [ParseError] otherwise. *)
Definition bindingSymbol (ro : Object) : M Symbol :=
  match asSymbol ro with
  | Some sym => mret sym
  | None =>
      if LINTER_MODE then generateSymbol "linter"
      else panic (ParseError ro ("Unsupported binding form: " +:+ ToString ro))
  end.

(** The loop of [parseParams] from index [i] on: [v] holds the elements
    [v.at(i)], [v.at(i+1)], ... and [res] the symbols collected so far. *)
Fixpoint parseParamsLoop (v : list Object) (res : list Symbol)
    : M (list Symbol * bool) :=
  match v with
  | [] => mret (res, false)
  | ro :: rest =>
      sym ← bindingSymbol ro;
      if Symbol_Equals (amp SYMBOLS) sym then
        match rest with
        | _ :: ro2 :: _ =>
            panic (ParseError ro2 ("Unexpected parameter: " +:+ ToString ro2))
        | [variadic] =>
            vsym ← bindingSymbol variadic;
            mret (res ++ [vsym], true)
        | [] => mret (res, false)
        end
      else parseParamsLoop rest (res ++ [sym])
  end.

Definition parseParams (params : Object) : M (list Symbol * bool) :=
  match params with
  | OVector _ _ v => parseParamsLoop v []
  | _ => panic (RuntimePanic "interface conversion: not a Vector")
  end.

(** The unused names of the innermost local frame, sorted by
    [BySymbolName], one warning each. *)
Definition warnUnused (what : string) : M unit :=
  b ← getCtx localBindings;
  match b with
  | [] => panic (RuntimePanic "nil pointer dereference")
  | f :: _ =>
      let unused :=
        map (λ kv, b_name kv.2)
          (filter (λ kv, needsUnusedWarning kv.2 = true)
                  (map_to_list (bindings f))) in
      foldr (λ u k,
               printParseWarning (GetPosition (symObj u))
                 (what +:+ ToString (symObj u));; k)
            (mret tt) (sort_BySymbolName unused)
  end.

(** The block of [addArity] that places a parsed arity in the function
    expression: [fn.variadic = &arity] or [fn.arities = append(...)], after
    the checks on the number of parameters.  [params] is the object the
    errors are positioned at. *)
Definition placeArity (fn : FnExprD) (params : Object) (arity : FnArityExpr)
    (isVariadic : bool) : Res FnExprD :=
  if isVariadic then
    if bool_decide (variadic fn ≠ None) then
      Raise (ParseError params "Can't have more than 1 variadic overload")
    else if existsb (λ a, bool_decide (length (args arity) ≤ length (args a)))
                    (arities fn) then
      Raise (ParseError params
        "Can't have fixed arity function with more params than variadic function")
    else Ok (mkFnExpr (fn_pos fn) (arities fn) (Some arity) (self fn))
  else
    if existsb (λ a, bool_decide (length (args a) = length (args arity)))
               (arities fn) then
      Raise (ParseError params "Can't have 2 overloads with same arity")
    else
      match variadic fn with
      | Some v =>
          if bool_decide (length (args v) ≤ length (args arity)) then
            Raise (ParseError params
              "Can't have fixed arity function with more params than variadic function")
          else Ok (mkFnExpr (fn_pos fn) (arities fn ++ [arity]) (variadic fn)
                     (self fn))
      | None => Ok (mkFnExpr (fn_pos fn) (arities fn ++ [arity]) (variadic fn)
                      (self fn))
      end.

Definition liftRes {A} (r : Res A) : M A := λ s, (r, s).

(** [addArity] returns the function expression it has extended; [syms] is
    the [args] of the source, [isVariadic] its companion. *)
Definition addArity (fn : FnExprD) (sig : Object) : M FnExprD :=
  sigSeq ← asSeq sig;
  let params := First sigSeq in
  let bodySeq := tail sigSeq in
  '(syms, isVariadic) ← parseParams params;
  PushLocalFrame syms;;
  with_defer PopLocalFrame (
    PushLoopBindings syms;;
    with_defer PopLoopBindings (
      noRecurAllowed0 ← getCtx noRecurAllowed;
      modCtx (set_noRecurAllowed false);;
      with_defer (modCtx (set_noRecurAllowed noRecurAllowed0)) (
        b ← parseBody bodySeq;
        let arity := mkFnArityExpr (GetPosition sig) syms b
                       (getTaggedType (GetMeta params)) in
        fn' ← liftRes (placeArity fn params arity isVariadic);
        when LINTER_MODE (
          when (fnWithEmptyBody WARNINGS)
            (when (bool_decide (length (body arity) = 0))
               (printParseWarning (arity_pos arity) "fn form with empty body"));;
          when (unusedFnParameters WARNINGS) (warnUnused "unused parameter: "));;
        mret fn'))).

Definition wrapWithMeta (fnExpr : FnExprD) (obj : Object) : M Expr :=
  match GetMeta obj with
  | Some meta =>
      m ← parseMap meta (fn_pos fnExpr);
      mret (MetaExpr (fn_pos fnExpr) m (FnExpr fnExpr))
  | None => mret (FnExpr fnExpr)
  end.

(** The loop over the arities of a multi-arity [fn]. *)
Fixpoint parseFnLoop (bodies : list Object) (res : FnExprD) : M FnExprD :=
  match bodies with
  | [] => mret res
  | bodyObj :: rest =>
      match seqItems bodyObj with
      | Some s =>
          let params := First s in
          if negb (IsVector params) then
            panic (ParseError params
                     ("Parameter declaration must be a vector. Got: "
                      +:+ ToString params))
          else
            res' ← addArity res bodyObj;
            parseFnLoop rest res'
      | None =>
          panic (ParseError bodyObj
                   ("Function body must be a list. Got: " +:+ ToString bodyObj))
      end
  end.

(** What [parseFn] does once the optional self reference is taken off. *)
Definition parseFnArities (res : FnExprD) (obj : Object)
    (bodies : list Object) : M Expr :=
  let p := First bodies in
  if IsVector p then
    res' ← addArity res (OList None None bodies);
    wrapWithMeta res' obj
  else if bool_decide (bodies = []) then
    panic (ParseError p "Parameter declaration missing")
  else
    res' ← parseFnLoop bodies res;
    wrapWithMeta res' obj.

Definition parseFn (obj : Object) : M Expr :=
  seq ← asSeq obj;
  let res := mkFnExpr (GetPosition obj) [] None None in
  let bodies := tail seq in
  let p := First bodies in
  match asSymbol p with
  | Some selfSym =>
      let res := mkFnExpr (fn_pos res) (arities res) (variadic res)
                   (Some selfSym) in
      let bodies := tail bodies in
      PushLocalFrame [selfSym];;
      with_defer PopLocalFrame (parseFnArities res obj bodies)
  | None => parseFnArities res obj bodies
  end.

Definition headEquals (obj : Object) (sym : Symbol) : bool :=
  match seqItems obj with
  | Some l =>
      match asSymbol (First l) with
      | Some s => Symbol_Equals s sym
      | None => false
      end
  | None => false
  end.

Definition isCatch (obj : Object) : bool := headEquals obj (catch SYMBOLS).
Definition isFinally (obj : Object) : bool := headEquals obj (finally SYMBOLS).

Definition resolveType (obj : Object) : M JType :=
  excType ← Parse obj;
  match excType with
  | LiteralExpr _ (OType t) _ => mret t
  | _ =>
      if LINTER_MODE then mret TYPE_Error
      else panic (ParseError obj ("Unable to resolve type: " +:+ ToString obj))
  end.

Definition parseCatch (obj : Object) : M CatchExpr :=
  objSeq ← asSeq obj;
  let seq := tail objSeq in
  if bool_decide (seq = []) || bool_decide (tail seq = []) then
    panic (ParseError obj
      "catch requires at least two arguments: type symbol and binding symbol")
  else
    let excSymbol := Second seq in
    excType ← resolveType (First seq);
    match asSymbol excSymbol with
    | None =>
        panic (ParseError excSymbol
                 ("Bad binding form, expected symbol, got: "
                  +:+ ToString excSymbol))
    | Some sym =>
        PushLocalFrame [sym];;
        with_defer PopLocalFrame (
          b ← parseBody (tail (tail seq));
          mret (mkCatchExpr (GetPosition obj) excType sym b))
    end.

Definition parseFinally (bodySeq : list Object) : M (list Expr) :=
  parseBody bodySeq.

(** The constants [Regular], [Catch], [Finally] of [parseTry]. *)
Inductive TryItem : Type := Regular | Catch | Finally.

#[global] Instance TryItem_eq_dec : EqDecision TryItem.
Proof. solve_decision. Defined.

(** The loop of [parseTry]; it hands back the expression and the last
    child it looked at (the [obj] the final warning is positioned at). *)
Fixpoint parseTryLoop (seq : list Object) (lastType : TryItem)
    (res : TryExprD) (obj : Object) : M (TryExprD * Object) :=
  match seq with
  | [] => mret (res, obj)
  | obj :: seq' =>
      if bool_decide (lastType = Finally) then
        panic (ParseError obj "finally clause must be last in try expression")
      else if isCatch obj then
        c ← parseCatch obj;
        parseTryLoop seq' Catch
          (mkTryExpr (try_pos res) (try_body res) (catches res ++ [c])
             (finallyExpr res)) obj
      else if isFinally obj then
        objSeq ← asSeq obj;
        f ← parseFinally (tail objSeq);
        parseTryLoop seq' Finally
          (mkTryExpr (try_pos res) (try_body res) (catches res) (Some f)) obj
      else if bool_decide (lastType = Catch) then
        panic (ParseError obj
          "Only catch or finally clause can follow catch in try expression")
      else
        e ← Parse obj;
        parseTryLoop seq' lastType
          (mkTryExpr (try_pos res) (try_body res ++ [e]) (catches res)
             (finallyExpr res)) obj
  end.

Definition parseTry (obj : Object) : M TryExprD :=
  let res := mkTryExpr (GetPosition obj) [] [] None in
  objSeq ← asSeq obj;
  let seq := tail objSeq in
  noRecurAllowed0 ← getCtx noRecurAllowed;
  modCtx (set_noRecurAllowed true);;
  with_defer (modCtx (set_noRecurAllowed noRecurAllowed0)) (
    '(res, obj) ← parseTryLoop seq Regular res obj;
    when LINTER_MODE (
      when (bool_decide (try_body (res : TryExprD) = []))
        (printParseWarning (try_pos res) "try form with empty body");;
      when (bool_decide (catches res = []) && bool_decide (finallyExpr res = None))
        (printParseWarning (try_pos res) "try form without catch or finally");;
      when (match finallyExpr res with Some [] => true | _ => false end)
        (printParseWarning (GetPosition obj) "finally form with empty body"));;
    mret res).

Definition localAddBinding (sym : Symbol) (i : Z) (skipUnused : bool)
    (inferredType : option JType) : M unit :=
  b ← getCtx localBindings;
  b' ← AddBinding b sym i skipUnused inferredType;
  modCtx (set_localBindings b').

(** The first loop of [parseLetLoop], at index [i]: [b] holds the binding
    forms from [b.at(i*2)] on. *)
Fixpoint parseBindingsLoop (formName : string) (skipUnused : bool)
    (b : list Object) (i : Z) (names : list Symbol) (vals : list Expr)
    : M (list Symbol * list Expr) :=
  match b with
  | s :: v :: rest =>
      nm ← (match asSymbol s with
            | Some sym =>
                (match ns sym with
                 | Some _ =>
                     let msg := "Can't let qualified name: " +:+ ToString s in
                     if LINTER_MODE then printParseError (GetPosition s) msg
                     else panic (ParseError s msg)
                 | None => mret tt
                 end);;
                mret sym
            | None =>
                if LINTER_MODE then generateSymbol "linter"
                else panic (ParseError s
                              ("Unsupported binding form: " +:+ ToString s))
            end);
      '(vals', inferredType) ←
        (if negb (bool_decide (formName = "letfn")) then
           e ← Parse v;
           mret (vals ++ [e], if LINTER_MODE then InferType e else None)
         else mret (vals, None));
      localAddBinding nm i skipUnused inferredType;;
      parseBindingsLoop formName skipUnused rest (i + 1)%Z (names ++ [nm]) vals'
  | _ => mret (names, vals)
  end.

(** The value forms [b.at(i*2+1)]. *)
Fixpoint valueForms (b : list Object) : list Object :=
  match b with
  | _ :: v :: rest => v :: valueForms rest
  | _ => []
  end.

Definition parseLetLoop (obj : Object) (formName : string) : M LetExprD :=
  objSeq ← asSeq obj;
  let bindingsObj := Second objSeq in
  match bindingsObj with
  | OVector _ bmeta b =>
      if negb (Nat.even (length b)) then
        panic (ParseError bindingsObj
                 (formName +:+
                  " requires an even number of forms in binding vector"))
      else
        when (LINTER_MODE && negb (bool_decide (formName = "loop"))
              && bool_decide (length b = 0))
          (printParseWarning (GetPosition obj)
             (formName +:+ " form with empty bindings vector"));;
        let skipUnused := isSkipUnused bmeta in
        PushEmptyLocalFrame;;
        with_defer PopLocalFrame (
          '(nms, vals) ← parseBindingsLoop formName skipUnused b 0 [] [];
          vals ← (if bool_decide (formName = "letfn")
                  then parseSeq (valueForms b) else mret vals);
          let finish : M LetExprD :=
            bd ← parseBody (tail (tail objSeq));
            when LINTER_MODE (
              when (bool_decide (length bd = 0))
                (printParseWarning (GetPosition obj)
                   (formName +:+ " form with empty body"));;
              when (negb skipUnused) (warnUnused "unused binding: "));;
            mret (mkLetExpr (GetPosition obj) nms vals bd) in
          if bool_decide (formName = "loop") then
            PushLoopBindings nms;;
            with_defer PopLoopBindings (
              noRecurAllowed0 ← getCtx noRecurAllowed;
              modCtx (set_noRecurAllowed false);;
              with_defer (modCtx (set_noRecurAllowed noRecurAllowed0)) finish)
          else finish)
  | _ =>
      panic (ParseError obj (formName +:+ " requires a vector for its bindings"))
  end.

Definition parseLet (obj : Object) : M Expr :=
  l ← parseLetLoop obj "let"; mret (LetExpr l).
Definition parseLoop (obj : Object) : M Expr :=
  l ← parseLetLoop obj "loop"; mret (LoopExpr l).
Definition parseLetfn (obj : Object) : M Expr :=
  l ← parseLetLoop obj "letfn"; mret (LoopExpr l).

Definition parseRecur (obj : Object) : M Expr :=
  noRecur ← getCtx noRecurAllowed;
  if (noRecur : bool) then panic (ParseError obj "Cannot recur across try")
  else
    lb ← getCtx GetLoopBindings;
    match lb with
    | None => panic (ParseError obj "No recursion point for recur")
    | Some loopBindings =>
        seq ← asSeq obj;
        rargs ← parseSeq (tail seq);
        if negb (bool_decide (length loopBindings = length rargs)) then
          panic (ParseError obj
                   ("Mismatched argument count to recur, expected: "
                    +:+ pretty (length loopBindings) +:+ " args, got: "
                    +:+ pretty (length rargs)))
        else
          modCtx (set_recur true);;
          mret (RecurExpr (GetPosition obj) rargs)
    end.

Definition resolveMacro (obj : Object) : M (option VarId) :=
  match asSymbol obj with
  | Some sym =>
      c ← getCtx id;
      match GetLocalBinding c sym with
      | Some _ => mret None
      | None =>
          e ← getEnv;
          match Resolve e sym with
          | None => mret None
          | Some vr =>
              x ← getVar vr;
              if negb (isMacro x) || bool_decide (Value x = None) then mret None
              else
                modVar vr Var_setUsed;;
                match vr_ns x with
                | None =>
                    panic (ParseError obj
                             ("No namespace for "
                              +:+ ToString (symObj (vr_name x))))
                | Some n => modNs n Ns_setUsed;; mret (Some vr)
                end
          end
      end
  | None => mret None
  end.

(** [fixInfo]: a sequence, vector or map without position takes the one of
    the macro call; metadata is kept.  The rebuilt map holds the entries of
    the old one: their keys stay distinct, [fixInfo] only adds
    positions. *)
Fixpoint fixInfo (obj : Object) (info : option ObjectInfo) : Object :=
  match obj with
  | OList oi m l =>
      OList (match oi with Some _ => oi | None => info end) m
            (map (λ o, fixInfo o info) l)
  | OVector oi m l =>
      OVector (match oi with Some _ => oi | None => info end) m
              (map (λ o, fixInfo o info) l)
  | OMap oi m l =>
      OMap (match oi with Some _ => oi | None => info end) m
           (map (λ p, (fixInfo p.1 info, fixInfo p.2 info)) l)
  | _ => obj
  end.

(** [macroexpand1] returns its argument itself when the head is no macro,
    and a freshly built object otherwise; the caller compares the two by
    identity.  [None] is the first case. *)
Definition macroexpand1 (obj : Object) : M (option Object) :=
  seq ← asSeq obj;
  let op := First seq in
  vr ← resolveMacro op;
  match vr with
  | Some vr =>
      x ← getVar vr;
      c ← getCtx id;
      match Value x with
      | Some f =>
          if isCallable f then
            r ← Eval (MacroCallExpr (GetPosition obj) f
                        (obj :: ToMap (localBindings c) :: tail seq)
                        (varCallableString x));
            mret (Some (fixInfo r (GetInfo obj)))
          else panic (RuntimePanic "interface conversion: not a Callable")
      | None => panic (RuntimePanic "interface conversion: nil")
      end
  | None => mret None
  end.

(** ** Call-site checks of the linter *)

Definition reportNotAFunction (pos : Position) (nm : string) : M unit :=
  printParseWarning pos (nm +:+ " is not a function").

Definition getTaggedTypes (m : option MapData) : list JType :=
  match m with
  | Some m =>
      match Map_Get_kw (tag KEYWORDS) m with
      | Some (OSymbol _ _ _ nm) =>
          match TYPES nm with Some t => [t] | None => [] end
      | Some (OString _ decl) =>
          flat_map (λ p, match TYPES (name (MakeSymbol p)) with
                         | Some t => [t]
                         | None => []
                         end)
                   (Split decl "|"%char)
      | _ => []
      end
  | None => []
  end.

Definition isTypeOneOf (abstractTypes : list JType) (concreteType : JType)
    : bool :=
  existsb (λ t, IsEqualOrImplements t concreteType) abstractTypes.

Definition typesString (types : list JType) : string :=
  Join (map (λ t, ToString (OType t)) types) " or ".

(** The loop of [checkTypes] at index [i]; [call] is the call expression,
    [cargs] its arguments. *)
Fixpoint checkTypesLoop (declaredArgs : list Symbol) (i : nat) (call : Expr)
    (cargs : list Expr) (res : bool) : M bool :=
  match declaredArgs with
  | [] => mret res
  | da :: rest =>
      let declaredTypes := getTaggedTypes (sym_meta da) in
      if bool_decide (0 < length declaredTypes) then
        match cargs !! i with
        | None => panic (RuntimePanic "index out of range")
        | Some a =>
            match InferType a with
            | Some passedType =>
                if negb (isTypeOneOf declaredTypes passedType) then
                  printParseWarning (Expr_Pos a)
                    ("arg[" +:+ pretty i +:+ "] of " +:+ CallExpr_Name call
                     +:+ " must have type " +:+ typesString declaredTypes
                     +:+ ", got " +:+ ToString (OType passedType));;
                  checkTypesLoop rest (S i) call cargs true
                else checkTypesLoop rest (S i) call cargs res
            | None => checkTypesLoop rest (S i) call cargs res
            end
        end
      else checkTypesLoop rest (S i) call cargs res
  end.

Definition checkTypes (declaredArgs : list Symbol) (call : Expr)
    (cargs : list Expr) : M bool :=
  checkTypesLoop declaredArgs 0 call cargs false.

Definition selectArity (expr : FnExprD) (passedArgsCount : Z)
    : option FnArityExpr :=
  match find (λ a, bool_decide (Z.of_nat (length (args a)) = passedArgsCount))
             (arities expr) with
  | Some a => Some a
  | None =>
      match variadic expr with
      | Some v =>
          if bool_decide (Z.of_nat (length (args v)) - 1 ≤ passedArgsCount)%Z
          then Some v else None
      | None => None
      end
  end.

Definition reportWrongArity (expr : FnExprD) (isMacro : bool) (call : Expr)
    (cargs : list Expr) (pos : Position) : M bool :=
  let passedArgsCount :=
    (Z.of_nat (length cargs) + (if isMacro then 2 else 0))%Z in
  match selectArity expr passedArgsCount with
  | Some v => checkTypes (args v) call cargs
  | None =>
      printParseWarning pos
        ("Wrong number of args (" +:+ pretty (length cargs) +:+ ") passed to "
         +:+ CallExpr_Name call);;
      mret true
  end.

Definition isAmp (o : Object) : bool :=
  match asSymbol o with
  | Some s => Symbol_Equals s (amp SYMBOLS)
  | None => false
  end.

Fixpoint checkArglist (arglist : list Object) (passedArgsCount : nat) : bool :=
  match arglist with
  | [] => false
  | OVector _ _ v :: rest =>
      if bool_decide (length v = passedArgsCount) ||
         (bool_decide (2 ≤ length v) && isAmp (nth (length v - 2) v NIL)
          && bool_decide (length v - 2 ≤ passedArgsCount))
      then true
      else checkArglist rest passedArgsCount
  | _ :: rest => checkArglist rest passedArgsCount
  end.

Definition setMacroMeta (x : Var) : Var :=
  mkVar (vr_info x)
    (Some (Assoc_kw (default [] (vr_meta x)) (macro_kw KEYWORDS)
             (OBoolean None true)))
    (vr_ns x) (vr_name x) (Value x) (vr_expr x) (isMacro x) (isPrivate x)
    (isDynamic x) (vr_isUsed x) (isGloballyUsed x) (isFake x)
    (vr_taggedType x).

Definition parseSetMacro (obj : Object) : M Expr :=
  seq ← asSeq obj;
  expr ← Parse (Second seq);
  match expr with
  | LiteralExpr _ (OVar vr) _ =>
      SetMacroExpr_Eval vr;;
      mret (SetMacroExpr noPosition vr)
  | _ => panic (ParseError obj "set-macro__ argument must be a var")
  end.

Definition set_KNOWN_MACROS (v : option VarId) (s : PState) : PState :=
  mkState (ctx s) (GLOBAL_ENV s) (Stderr s) (PROBLEM_COUNT s) v
    (REQUIRE_VAR s) (ALIAS_VAR s) (REFER_VAR s) (CREATE_NS_VAR s) (IN_NS_VAR s).
Definition set_REQUIRE_VAR (v : option VarId) (s : PState) : PState :=
  mkState (ctx s) (GLOBAL_ENV s) (Stderr s) (PROBLEM_COUNT s) (KNOWN_MACROS s)
    v (ALIAS_VAR s) (REFER_VAR s) (CREATE_NS_VAR s) (IN_NS_VAR s).
Definition set_ALIAS_VAR (v : option VarId) (s : PState) : PState :=
  mkState (ctx s) (GLOBAL_ENV s) (Stderr s) (PROBLEM_COUNT s) (KNOWN_MACROS s)
    (REQUIRE_VAR s) v (REFER_VAR s) (CREATE_NS_VAR s) (IN_NS_VAR s).
Definition set_REFER_VAR (v : option VarId) (s : PState) : PState :=
  mkState (ctx s) (GLOBAL_ENV s) (Stderr s) (PROBLEM_COUNT s) (KNOWN_MACROS s)
    (REQUIRE_VAR s) (ALIAS_VAR s) v (CREATE_NS_VAR s) (IN_NS_VAR s).
Definition set_CREATE_NS_VAR (v : option VarId) (s : PState) : PState :=
  mkState (ctx s) (GLOBAL_ENV s) (Stderr s) (PROBLEM_COUNT s) (KNOWN_MACROS s)
    (REQUIRE_VAR s) (ALIAS_VAR s) (REFER_VAR s) v (IN_NS_VAR s).
Definition set_IN_NS_VAR (v : option VarId) (s : PState) : PState :=
  mkState (ctx s) (GLOBAL_ENV s) (Stderr s) (PROBLEM_COUNT s) (KNOWN_MACROS s)
    (REQUIRE_VAR s) (ALIAS_VAR s) (REFER_VAR s) (CREATE_NS_VAR s) v.

(** [if X == nil { X = CoreNamespace.Resolve(name) }; return X]. *)
Definition memoCoreVar (getf : PState → option VarId)
    (setf : option VarId → PState → PState) (nm : string)
    : M (option VarId) :=
  cached ← gets getf;
  match cached with
  | Some v => mret (Some v)
  | None =>
      e ← getEnv;
      let v := Namespace_Resolve e (CoreNamespace e) nm in
      modify (setf v);;
      mret v
  end.

Definition getRequireVar := memoCoreVar REQUIRE_VAR set_REQUIRE_VAR "require".
Definition getReferVar := memoCoreVar REFER_VAR set_REFER_VAR "refer".
Definition getAliasVar := memoCoreVar ALIAS_VAR set_ALIAS_VAR "alias".
Definition getCreateNsVar :=
  memoCoreVar CREATE_NS_VAR set_CREATE_NS_VAR "create-ns".
Definition getInNsVar := memoCoreVar IN_NS_VAR set_IN_NS_VAR "in-ns".

Fixpoint Map_Get_sym (k : Symbol) (m : MapData) : option Object :=
  match m with
  | [] => None
  | (k', v) :: m' =>
      match asSymbol k' with
      | Some s => if Symbol_Equals s k then Some v else Map_Get_sym k m'
      | None => Map_Get_sym k m'
      end
  end.

Definition isKnownMacros (sym : Symbol)
    : M (bool * option (list Object)) :=
  km ← memoCoreVar KNOWN_MACROS set_KNOWN_MACROS "*known-macros*";
  match km with
  | None => mret (false, None)
  | Some v =>
      x ← getVar v;
      match Value x with
      | Some (OMap _ _ m) =>
          match Map_Get_sym sym m with
          | Some val => mret (true, Seqable_Seq val)
          | None => mret (false, None)
          end
      | _ => panic (RuntimePanic "interface conversion: not a Map")
      end
  end.

Definition isUnknownCallable (expr : Expr)
    : M (bool * option (list Object)) :=
  if negb LINTER_MODE then mret (false, None)
  else
    match expr with
    | VarRefExpr _ vr =>
        x ← getVar vr;
        if isMacro x then mret (true, None)
        else
          e ← getEnv;
          sym ← (if negb (bool_decide (vr_ns x = Some (CurrentNamespace e)))
                    && negb (bool_decide (vr_ns x = Some (CoreNamespace e)))
                 then
                   match vr_ns x with
                   | Some k =>
                       n ← getNs k;
                       mret (mkSymbol None None (Some (name (Name n)))
                               (name (vr_name x)))
                   | None => panic (RuntimePanic "nil pointer dereference")
                   end
                 else mret (MakeSymbol (name (vr_name x))));
          '(b, s) ← isKnownMacros sym;
          if (b : bool) then mret (b, s)
          else if bool_decide (vr_expr x ≠ None) then mret (false, None)
          else if bool_decide (ns sym = None) && isFake x
                  && negb (bool_decide (vr_ns x = Some (CoreNamespace e)))
          then mret (true, None)
          else mret (false, None)
    | _ => mret (false, None)
    end.

Definition areAllLiteralExprs (exprs : list Expr) : bool :=
  forallb (λ e, match e with LiteralExpr _ _ _ => true | _ => false end) exprs.

Definition checkCall (expr : option Expr) (isMacro : bool) (call : Expr)
    (cargs : list Expr) (pos : Position) : M unit :=
  let argsCount := length cargs in
  match expr with
  | Some (FnExpr f) => reportWrongArity f isMacro call cargs pos;; mret tt
  | Some (MapExpr _) =>
      when (bool_decide (argsCount = 0) || bool_decide (2 < argsCount))
        (printParseWarning pos
           ("Wrong number of args (" +:+ pretty argsCount
            +:+ ") passed to a map"))
  | Some (SetExpr _ _) =>
      when (bool_decide (argsCount = 0) || bool_decide (1 < argsCount))
        (printParseWarning pos
           ("Wrong number of args (" +:+ pretty argsCount
            +:+ ") passed to a set"))
  | Some (LiteralExpr _ o isSurrogate) =>
      if negb (isCallable o) && negb isSurrogate then
        reportNotAFunction pos (CallExpr_Name call)
      else
        match o with
        | OKeyword _ _ _ =>
            when (bool_decide (argsCount = 0) || bool_decide (2 < argsCount))
              (printParseWarning pos
                 ("Wrong number of args (" +:+ pretty argsCount
                  +:+ ") passed to " +:+ CallExpr_Name call))
        | _ => mret tt
        end
  | Some (RecurExpr _ _) => reportNotAFunction pos (CallExpr_Name call)
  | Some (ThrowExpr _ _) => reportNotAFunction pos (CallExpr_Name call)
  | _ => mret tt
  end.

(** ** Symbols *)

Definition InternFakeSymbol (symNs : option NsId) (obj : Object)
    (sym : Symbol) : M VarId :=
  match symNs with
  | Some n => InternFake n (mkSymbol None None None (name sym))
  | None =>
      e ← getEnv;
      InternFake (CurrentNamespace e) (mkSymbol None None None (ToString obj))
  end.

Definition isInteropSymbol (sym : Symbol) : bool :=
  bool_decide (ns sym = None) &&
  (HasPrefix (name sym) "." || HasSuffix (name sym) "."
   || Contains (name sym) "$").

Definition isJavaSymbol (sym : Symbol) : bool :=
  fullClassNameRe_MatchString (default (name sym) (ns sym)).

Definition MakeVarRefExpr (vr : VarId) (obj : Object) : M Expr :=
  x ← getVar vr;
  modVar vr Var_setUsed;;
  match vr_ns x with
  | Some n => modNs n Ns_setUsed;; mret (VarRefExpr (GetPosition obj) vr)
  | None => panic (RuntimePanic "nil pointer dereference")
  end.

(** [parseSymbol] calls itself on a name with its last dotted segment
    removed; [n] bounds the depth of these calls. *)
Fixpoint parseSymbolN (n : nat) (obj : Object) : M Expr :=
  match n with
  | 0 => panic OutOfFuel
  | S n' =>
  match asSymbol obj with
  | None => panic (RuntimePanic "interface conversion: not a Symbol")
  | Some sym =>
  c ← getCtx id;
  match GetLocalBinding c sym with
  | Some b =>
      modCtx (λ c, set_localBindings
                     (Bindings_setUsed (localBindings c) (name sym)) c);;
      mret (BindingExpr (GetPosition obj) (Binding_setUsed b))
  | None =>
  e ← getEnv;
  match Resolve e sym with
  | Some vr => MakeVarRefExpr vr obj
  | None =>
  match (if bool_decide (ns sym = None) then TYPES (name sym) else None) with
  | Some t => mret (LiteralExpr (GetPosition obj) (OType t) false)
  | None =>
  if negb LINTER_MODE then
    panic (ParseError obj ("Unable to resolve symbol: " +:+ ToString obj))
  else
    let fallback : M Expr :=
      let symNs := NamespaceFor e (CurrentNamespace e) sym in
      let isLocalNs :=
        match symNs with
        | None => true
        | Some k => bool_decide (k = CurrentNamespace e)
        end in
      if isLocalNs && (isInteropSymbol sym || isJavaSymbol sym) then
        mret (NewSurrogateExpr obj)
      else
        when isLocalNs (
          unknownScope ← getCtx isUnknownCallableScope;
          when (negb unknownScope) (
            lb ← getCtx linterBindings;
            when (bool_decide (GetBinding lb sym = None))
              (printParseError (GetPosition obj)
                 ("Unable to resolve symbol: " +:+ ToString obj))));;
        vr ← InternFakeSymbol symNs obj sym;
        MakeVarRefExpr vr obj in
    if DIALECT_is_CLJS && bool_decide (ns sym = None) then
      cur ← getNs (CurrentNamespace e);
      match (match FindNamespace e sym with
             | Some k => Some k
             | None => aliases cur !! name sym
             end) with
      | Some k => modNs k Ns_setUsed;; mret (NewSurrogateExpr obj)
      | None =>
          let parts := Split (name sym) "."%char in
          if bool_decide (1 < length parts)
             && negb (bool_decide (nth 0 parts "" = ""))
             && negb (bool_decide (List.last parts "" = "")) then
            parseSymbolN n'
              (DeriveReadObject obj
                 (symObj (MakeSymbol (Join (removelast parts) "."))))
          else if bool_decide (length parts = 2)
                  && negb (bool_decide (nth 0 parts "" = ""))
                  && bool_decide (List.last parts "" = "") then
            match Resolve e (MakeSymbol (nth 0 parts "")) with
            | Some vr => MakeVarRefExpr vr obj
            | None => fallback
            end
          else fallback
      end
    else fallback
  end end end end end.

Definition parseSymbol (obj : Object) : M Expr :=
  parseSymbolN
    (match asSymbol obj with
     | Some sym => length (Split (name sym) "."%char)
     | None => 1
     end) obj.

(** ** Lists: special forms and calls *)

(** The [var] form. *)
Definition parseVarForm (obj : Object) (seq : list Object) (pos : Position)
    : M Expr :=
  checkForm obj 2 2;;
  match asSymbol (Second seq) with
  | Some sym =>
      e ← getEnv;
      vr ← (match Resolve e sym with
            | Some vr => mret vr
            | None =>
                if negb LINTER_MODE then
                  panic (ParseError obj
                           ("Unable to resolve var " +:+ ToString (Second seq)
                            +:+ " in this context"))
                else
                  let symNs := NamespaceFor e (CurrentNamespace e) sym in
                  unknownScope ← getCtx isUnknownCallableScope;
                  when (negb unknownScope)
                    (when (match symNs with
                           | None => true
                           | Some k => bool_decide (k = CurrentNamespace e)
                           end)
                       (printParseError (GetPosition obj)
                          ("Unable to resolve symbol: "
                           +:+ ToString (Second seq))));;
                  InternFakeSymbol symNs (Second seq) sym
            end);
      x ← getVar vr;
      modVar vr Var_setUsed;;
      match vr_ns x with
      | Some n => modNs n Ns_setUsed;; mret (LiteralExpr pos (OVar vr) false)
      | None => panic (RuntimePanic "nil pointer dereference")
      end
  | None => panic (ParseError obj "var's argument must be a symbol")
  end.

(** The [switch v.name] of [parseList], in the order of its cases; [None]
    when no case applies and the list is parsed as a call. *)
Definition parseSpecialForm (obj : Object) (seq : list Object)
    (pos : Position) (nm : string) : option (M Expr) :=
  if bool_decide (nm = quote STR) then
    Some (mret (NewLiteralExpr (Second seq)))
  else if bool_decide (nm = _if STR) then
    Some (
      checkForm obj 3 4;;
      when (LINTER_MODE && bool_decide (SeqCount seq < 4)%Z
            && ifWithoutElse WARNINGS)
        (printParseWarning pos "missing else branch");;
      c ← Parse (Second seq);
      p ← Parse (Third seq);
      n ← Parse (Fourth seq);
      mret (IfExpr pos c p n))
  else if bool_decide (nm = fn_ STR) then Some (parseFn obj)
  else if bool_decide (nm = let_ STR) then Some (parseLet obj)
  else if bool_decide (nm = letfn_ STR) then Some (parseLetfn obj)
  else if bool_decide (nm = loop_ STR) then Some (parseLoop obj)
  else if bool_decide (nm = str_recur STR) then Some (parseRecur obj)
  else if bool_decide (nm = setMacro_ STR) then Some (parseSetMacro obj)
  else if bool_decide (nm = def STR) then Some (parseDef obj false)
  else if bool_decide (nm = defLinter STR) then Some (parseDef obj true)
  else if bool_decide (nm = _var STR) then Some (parseVarForm obj seq pos)
  else if bool_decide (nm = do STR) then
    Some (
      b ← parseBody (tail seq);
      byMacro ← isCreatedByMacro seq;
      when LINTER_MODE (
        if bool_decide (length b = 0) then
          printParseWarning pos "do form with empty body"
        else when (bool_decide (length b = 1))
               (printParseWarning pos "redundant do form"));;
      mret (DoExpr pos b byMacro))
  else if bool_decide (nm = throw STR) then
    Some (e ← Parse (Second seq); mret (ThrowExpr pos e))
  else if bool_decide (nm = try STR) then
    Some (t ← parseTry obj; mret (TryExpr t))
  else None.

Fixpoint addLinterSyms (b : Bindings) (syms : list Object) : M Bindings :=
  match syms with
  | [] => mret b
  | o :: rest =>
      match asSymbol o with
      | Some sym => b' ← AddBinding b sym 0 true None; addLinterSyms b' rest
      | None => addLinterSyms b rest
      end
  end.

(** [c.vr.Value.Equals(v.Value)] for one of the memoized core vars. *)
Definition valueEqualsVar (val : Object) (v : option VarId) : M bool :=
  match v with
  | None => panic (RuntimePanic "nil pointer dereference")
  | Some id =>
      x ← getVar id;
      mret (match Value x with
            | Some o => Object_Equals val o
            | None => false
            end)
  end.

Definition orM (a b : M bool) : M bool :=
  x ← a; if (x : bool) then mret true else b.

(** The linter's checks once a call has been parsed. *)
Definition lintCall (res : Expr) (callable : Expr) (cargs : list Expr)
    (pos : Position) : M unit :=
  match callable with
  | VarRefExpr _ vr =>
      x ← getVar vr;
      match Value x with
      | Some (OFn f) =>
          wrong ← reportWrongArity (Fn_fnExpr f) (isMacro x) res cargs pos;
          when (negb wrong) (
            require ← getRequireVar;
            refer ← getReferVar;
            alias ← getAliasVar;
            createNs ← getCreateNsVar;
            inNs ← getInNsVar;
            special ←
              orM (valueEqualsVar (OFn f) require)
                (orM (valueEqualsVar (OFn f) alias)
                   (orM (valueEqualsVar (OFn f) refer)
                      (orM (valueEqualsVar (OFn f) inNs)
                         (valueEqualsVar (OFn f) createNs))));
            when (special && areAllLiteralExprs cargs) (Eval res;; mret tt))
      | Some val =>
          if isCallable val then
            match vr_meta x with
            | Some m =>
                match Map_Get_kw (arglist KEYWORDS) m with
                | Some (OList _ _ al) =>
                    when (negb (checkArglist al (length cargs)))
                      (printParseWarning pos
                         ("Wrong number of args (" +:+ pretty (length cargs)
                          +:+ ") passed to " +:+ CallExpr_Name res))
                | _ => mret tt
                end
            | None => mret tt
            end
          else reportNotAFunction pos (CallExpr_Name res)
      | None => checkCall (vr_expr x) (isMacro x) res cargs pos
      end
  | _ => checkCall (Some callable) false res cargs pos
  end.

Definition parseCall (seq : list Object) (pos : Position)
    (currentIsUnknownCallableScope : bool) : M Expr :=
  modCtx (set_isUnknownCallableScope currentIsUnknownCallableScope);;
  callable ← Parse (First seq);
  '(unknown, syms) ← isUnknownCallable callable;
  let finish : M Expr :=
    cargs ← parseSeq (tail seq);
    let res := CallExpr pos callable cargs in
    when LINTER_MODE (lintCall res callable cargs pos);;
    mret res in
  if (unknown : bool) then
    modCtx (set_isUnknownCallableScope true);;
    match syms with
    | Some syms =>
        modCtx (λ c, set_linterBindings (PushFrame (linterBindings c)) c);;
        with_defer
          (lb ← getCtx linterBindings;
           lb' ← PopFrame lb;
           modCtx (set_linterBindings lb'))
          (lb ← getCtx linterBindings;
           lb' ← addLinterSyms lb syms;
           modCtx (set_linterBindings lb');;
           finish)
    | None => finish
    end
  else
    modCtx (set_isUnknownCallableScope false);;
    finish.

Definition parseList (obj : Object) : M Expr :=
  expanded ← macroexpand1 obj;
  match expanded with
  | Some expanded => Parse expanded
  | None =>
      seq ← asSeq obj;
      if bool_decide (seq = []) then mret (NewLiteralExpr obj)
      else
        currentIsUnknownCallableScope ← getCtx isUnknownCallableScope;
        with_defer
          (modCtx (set_isUnknownCallableScope currentIsUnknownCallableScope)) (
          modCtx (set_isUnknownCallableScope false);;
          let pos := GetPosition obj in
          match (match First seq with
                 | OSymbol _ _ None nm => parseSpecialForm obj seq pos nm
                 | _ => None
                 end) with
          | Some special => special
          | None => parseCall seq pos currentIsUnknownCallableScope
          end)
  end.

(** The body of [Parse]. *)
Definition Parse_step (obj : Object) : M Expr :=
  let pos := GetPosition obj in
  let withMeta (res : Expr) : M Expr :=
    match GetMeta obj with
    | Some meta =>
        m ← parseMap meta pos;
        mret (MetaExpr pos m res)
    | None => mret res
    end in
  match obj with
  | ONil _ => mret (NewLiteralExpr obj)
  | OVector _ _ v => res ← parseVector v pos; withMeta res
  | OMap _ _ m => res ← parseMap m pos; withMeta (MapExpr res)
  | OMapSet _ _ s => res ← parseSet s pos; withMeta res
  | OList _ _ _ => parseList obj
  | OSymbol _ _ _ _ => parseSymbol obj
  | _ => mret (NewLiteralExpr obj)
  end.

End SubParsers.

(** ** Tying the knot

    [Parse] with a bound on the depth of its calls: one unit per call of
    [Parse] from a sub-parser.  A bound that is used up is reported as
    [OutOfFuel]; the program itself loops for ever on a macro that keeps
    expanding. *)
Fixpoint ParseN (fuel : nat) (obj : Object) : M Expr :=
  match fuel with
  | 0 => panic OutOfFuel
  | S n => Parse_step (ParseN n) obj
  end.


End Parser.

(** ** A small world to run the parser in

    A registry with plain maps, no evaluator and no type inference: enough
    to evaluate the parser on sample forms, in strict and in linter mode. *)
Module Demo.

Definition str : Str :=
  mkStr "if" "quote" "fn*" "let*" "letfn*" "loop*" "recur" "set-macro__"
    "def" "def-linter__" "var" "do" "throw" "try" "<joker.core>".

Definition sym (nm : string) : Symbol := mkSymbol None None None nm.

Definition symbols : Symbols := mkSymbols (sym "catch") (sym "finally") (sym "&").

Definition keywords : Keywords :=
  mkKeywords "tag" "skip-unused" "private" "dynamic" "macro" "arglists" "doc".

Definition warnings (ifElse : bool) : Warnings :=
  mkWarnings ifElse false true None [].

Definition toString (o : Object) : string :=
  match o with
  | ONil _ => "nil"
  | OBoolean _ b => if b then "true" else "false"
  | OInt _ z => pretty z
  | OString _ s => s
  | OKeyword _ _ k => ":" +:+ k
  | OSymbol _ _ None s => s
  | OSymbol _ _ (Some n) s => n +:+ "/" +:+ s
  | OList _ _ _ => "(...)"
  | OVector _ _ _ => "[...]"
  | OMap _ _ _ => "{...}"
  | OMapSet _ _ _ => "#{...}"
  | OType t => type_name t
  | OVar _ => "#'var"
  | OFn _ => "#object[Fn]"
  | OProc _ => "#object[Proc]"
  end.

Definition toBool (o : Object) : bool :=
  match o with
  | ONil _ => false
  | OBoolean _ b => b
  | _ => true
  end.

Definition callable (o : Object) : bool :=
  match o with
  | OFn _ | OProc _ | OKeyword _ _ _ | OVar _ => true
  | _ => false
  end.

Definition nsResolve (e : Env) (k : NsId) (nm : string) : option VarId :=
  Namespaces e !! k ≫= λ n, mappings n !! nm.

Definition namespaceFor (e : Env) (cur : NsId) (s : Symbol) : option NsId :=
  match ns s with
  | None => Some cur
  | Some n =>
      match Namespaces e !! cur ≫= λ c, aliases c !! n with
      | Some k => Some k
      | None => if bool_decide (is_Some (Namespaces e !! n)) then Some n else None
      end
  end.

Definition resolve (e : Env) (s : Symbol) : option VarId :=
  namespaceFor e (CurrentNamespace e) s ≫= λ k, nsResolve e k (name s).

Definition findNamespace (e : Env) (s : Symbol) : option NsId :=
  if bool_decide (is_Some (Namespaces e !! name s)) then Some (name s) else None.

Definition intern (fake : bool) (k : NsId) (s : Symbol) : M VarId :=
  n ← getNs k;
  match mappings n !! name s with
  | Some v => mret v
  | None =>
      e ← getEnv;
      let v := size (Vars e) in
      modEnv (λ e,
        mkEnv (<[k := mkNamespace (Name n) (<[name s := v]> (mappings n))
                         (aliases n) (ns_isUsed n) (ns_isGloballyUsed n)]>
                 (Namespaces e))
              (<[v := mkVar None None (Some k) s None None false false false
                        false false fake None]> (Vars e))
              (CoreNamespace e) (CurrentNamespace e));;
      mret v
  end.

Definition symbol_le (a b : Symbol) : Prop := String.le (name a) (name b).

#[global] Instance symbol_le_dec : RelDecision symbol_le.
Proof. intros a b. unfold symbol_le. apply _. Defined.

Definition deriveReadObject (base obj : Object) : Object :=
  match GetInfo base with
  | Some i => WithInfo obj (Some i)
  | None => obj
  end.

Definition world (linter ifElse : bool) : World := {|
  LINTER_MODE := linter;
  DIALECT_is_CLJS := false;
  WARNINGS := warnings ifElse;
  STR := str;
  SYMBOLS := symbols;
  KEYWORDS := keywords;
  TYPES := λ nm, if bool_decide (nm = "Error") then Some (mkType "Error") else None;
  TYPE_Error := mkType "Error";
  ToString := toString;
  ToBool := toBool;
  Object_Equals := λ _ _, false;
  isCallable := callable;
  Position_Filename := λ p, default "<file>" (filename p);
  Resolve := resolve;
  Namespace_Resolve := nsResolve;
  FindNamespace := findNamespace;
  NamespaceFor := namespaceFor;
  Intern := intern false;
  InternFake := intern true;
  generateSymbol := λ prefix, mret (sym (prefix +:+ "__auto"));
  Eval := λ _, panic (EvalError "no evaluator");
  SetMacroExpr_Eval := λ _, mret tt;
  InferType := λ _, None;
  IsEqualOrImplements := λ a b, bool_decide (type_name a = type_name b);
  CallExpr_Name := λ _, "fn";
  varCallableString := λ x, name (vr_name x);
  Var_Name := λ x, default "" (vr_ns x) +:+ "/" +:+ name (vr_name x);
  Fn_fnExpr := λ _, mkFnExpr noPosition [] None None;
  DeriveReadObject := deriveReadObject;
  fullClassNameRe_MatchString := λ _, false;
  sort_BySymbolName := merge_sort symbol_le;
  MakeSymbol := sym;
  Seqable_Seq := λ o, match o with
                      | OList _ _ l | OVector _ _ l => Some l
                      | _ => None
                      end;
|}.

Definition at_ (file : string) (line col : Z) : option ObjectInfo :=
  Some (mkObjectInfo (mkPosition line col line col (Some file))).

Definition userNs : Namespace :=
  mkNamespace (mkSymbol (at_ "user.clj" 1 5) None None "user") ∅ ∅ true true.
Definition coreNs : Namespace :=
  mkNamespace (sym "joker.core") ∅ ∅ true true.

Definition env0 : Env :=
  mkEnv (<["user" := userNs]> (<["joker.core" := coreNs]> ∅)) ∅
    "joker.core" "user".

Definition ctx0 : ParseContext := mkCtx [] [] [] false false false.

Definition s0 : PState := mkState ctx0 env0 [] 0 None None None None None None.

(** Reading [nm] at line [l], column [c] of [user.clj]. *)
Definition rsym (l c : Z) (nm : string) : Object :=
  OSymbol (at_ "user.clj" l c) None None nm.
Definition rint (l c : Z) (n : Z) : Object := OInt (at_ "user.clj" l c) n.
Definition rlist (l c : Z) (items : list Object) : Object :=
  OList (at_ "user.clj" l c) None items.
Definition rvec (l c : Z) (items : list Object) : Object :=
  OVector (at_ "user.clj" l c) None items.

(** The strict world, and the linter with the if-without-else warning
    switched on. *)
Definition strict : World := world false false.
Definition linter : World := world true true.

(** Sample forms. *)
Definition fn2 : Object :=
  rlist 1 1 [rsym 1 2 "fn*";
             rlist 1 6 [rvec 1 7 [rsym 1 8 "x"]; rsym 1 11 "x"];
             rlist 1 14 [rvec 1 15 [rsym 1 16 "x"; rsym 1 18 "y"];
                         rsym 1 21 "x"]].
Definition recur0 : Object := rlist 2 1 [rsym 2 2 "recur"].
Definition recur1 : Object := rlist 2 1 [rsym 2 2 "recur"; rint 2 8 1].
Definition if2 : Object := rlist 3 1 [rsym 3 2 "if"; rint 3 5 1; rint 3 7 2].
Definition quote3 : Object :=
  rlist 4 1 [rsym 4 2 "quote"; rint 4 8 1; rint 4 10 2].
Definition catch1 : Object :=
  rlist 5 8 [rsym 5 9 "catch"; rsym 5 15 "Error"; rsym 5 21 "e"; rint 5 23 2].
Definition finally1 : Object := rlist 5 26 [rsym 5 27 "finally"; rint 5 35 3].
Definition tryGood : Object :=
  rlist 5 1 [rsym 5 2 "try"; rint 5 6 1; catch1; finally1].
Definition tryBad : Object :=
  rlist 6 1 [rsym 6 2 "try"; finally1; rint 6 20 1].
(** [(do 1)] as a macro of the core library builds it: the head symbol was
    read from the core file. *)
Definition doByMacro : Object :=
  rlist 7 1 [OSymbol (at_ "<joker.core>" 30 12) None None "do"; rint 7 5 1].
Definition qualifiedX : Object :=
  OSymbol (at_ "user.clj" 8 1) None (Some "user") "x".

(** Sample states: inside a [try] body, inside a loop without bindings, and
    with a Var [user/x] while a local [x] is in scope. *)
Definition sTry : PState :=
  set_ctx (set_noRecurAllowed true ctx0) s0.
Definition sLoop (syms : list Symbol) : PState :=
  set_ctx (set_loopBindings [syms] ctx0) s0.
Definition varX : Var :=
  mkVar (at_ "user.clj" 1 1) None (Some "user") (sym "x") None None false
    false false false false false None.
Definition envX : Env :=
  mkEnv (<["user" := mkNamespace (Name userNs) {["x" := 0]} ∅ false false]>
           (Namespaces env0))
        {[0 := varX]} "joker.core" "user".
Definition sX : PState :=
  mkState (mkCtx [mkFrame {["x" := mkBinding (sym "x") 0 0 false None]} 0]
             [] [] false false false)
    envX [] 0 None None None None None None.

(** Two namespaces nobody uses, and the two orders of visiting them. *)
Definition nsA : Namespace :=
  mkNamespace (mkSymbol (at_ "a.clj" 1 5) None None "app.a") ∅ ∅ false false.
Definition nsB : Namespace :=
  mkNamespace (mkSymbol (at_ "b.clj" 1 5) None None "app.b") ∅ ∅ false false.
Definition orderAB : list (NsId * Namespace) := [("app.a", nsA); ("app.b", nsB)].
Definition orderBA : list (NsId * Namespace) := [("app.b", nsB); ("app.a", nsA)].

End Demo.

(** ** Vocabulary of the properties *)

(** What a computation has written to [Stderr] when started in [s]. *)
Definition emitted {A} (m : M A) (s : PState) : list Diagnostic :=
  drop (length (Stderr s)) (Stderr (m s).2).




Section Vocabulary.
Context `{W : World}.

(** How [parseTry] classifies a child of a [try] form. *)
Definition tryItem (obj : Object) : TryItem :=
  if isCatch obj then Catch else if isFinally obj then Finally else Regular.

(** The children of a well-ordered [try]: body expressions, then catch
    clauses, then at most one finally clause. *)
Definition tryOrdered (regs cs fin : list Object) : Prop :=
  Forall (λ o, tryItem o = Regular) regs ∧
  Forall (λ o, tryItem o = Catch) cs ∧
  (fin = [] ∨ ∃ f, fin = [f] ∧ tryItem f = Finally).

(** The value of [lastType] once the loop of [parseTry] has gone through
    [xs], having started them with [lt]. *)
Fixpoint lastTypeAfter (lt : TryItem) (xs : list Object) : TryItem :=
  match xs with
  | [] => lt
  | x :: xs' =>
      lastTypeAfter (match tryItem x with Regular => lt | k => k end) xs'
  end.

(** [ds] written to [Stderr], the problem counter advanced by one each. *)
Definition addDiagnostics (ds : list Diagnostic) (s : PState) : PState :=
  mkState (ctx s) (GLOBAL_ENV s) (Stderr s ++ ds)
    (PROBLEM_COUNT s + Z.of_nat (length ds)) (KNOWN_MACROS s) (REQUIRE_VAR s)
    (ALIAS_VAR s) (REFER_VAR s) (CREATE_NS_VAR s) (IN_NS_VAR s).

(** The lines of a warning pass: one per name, in the order of [names]. *)
Definition warningLines (prefix : string) (positions : gmap string Position)
    (names : list string) : list Diagnostic :=
  map (λ n, mkDiagnostic (default noPosition (positions !! n))
              ("Parse warning: " +:+ prefix +:+ n)) names.

(** What a warning pass notes down for a namespace, if anything. *)
Definition nsEntry (keep : NsId → Namespace → bool) (kv : NsId * Namespace)
    : option (string * Position) :=
  if keep kv.1 kv.2 then
    match sym_info (Name kv.2) with
    | Some pos =>
        if isReportedFile pos
        then Some (ToString (symObj (Name kv.2)), info_Position pos)
        else None
    | None => None
    end
  else None.

(** What a warning pass notes down for a mapping [m] of the namespace
    [kv]. *)
Definition varEntry (e : Env) (keep : Namespace → Var → bool)
    (nameOf : Var → string) (kv : NsId * Namespace) (m : string * VarId)
    : option (string * Position) :=
  match Vars e !! m.2 with
  | Some vr =>
      if bool_decide (vr_ns vr = Some kv.1) && keep kv.2 vr then
        match vr_info vr with
        | Some pos => Some (nameOf vr, info_Position pos)
        | None => None
        end
      else None
  | None => None
  end.

Definition varEntries (e : Env) (keep : Namespace → Var → bool)
    (nameOf : Var → string) (order : list (NsId * Namespace))
    (morder : NsId → list (string * VarId)) : list (string * Position) :=
  order ≫= λ kv,
    if bool_decide (kv.1 = CoreNamespace e) then []
    else omap (varEntry e keep nameOf kv) (morder kv.1).

(** Noting down entries one after the other: [names = append(names, n)] and
    [positions[n] = p]. *)
Definition recordAll (acc : list string * gmap string Position)
    (es : list (string * Position)) : list string * gmap string Position :=
  foldl (λ acc e, (acc.1 ++ [e.1], <[e.1 := e.2]> acc.2)) acc es.

End Vocabulary.

(** ** Positions after macro expansion *)


(** ** What a call of the parser leaves as it found it *)

(** A binding as it was, or marked used. *)
Definition sameBinding (x x' : Binding) : Prop :=
  x' = x ∨ x' = Binding_setUsed x.

(** A frame with the same number and the same names, each bound as before
    up to the used mark. *)
Definition sameFrame (f f' : BindingsFrame) : Prop :=
  frame f' = frame f ∧
  ∀ k, option_Forall2 sameBinding (bindings f !! k) (bindings f' !! k).

(** The same chain of frames. *)
Definition sameScope (b b' : Bindings) : Prop := Forall2 sameFrame b b'.

(** The same chain below the innermost frame, which is still being filled:
    it keeps its number and may have gained bindings. *)
Definition innerScope (b b' : Bindings) : Prop :=
  match b, b' with
  | f :: lb, f' :: lb' => frame f' = frame f ∧ sameScope lb lb'
  | [], [] => True
  | _, _ => False
  end.

(** A step that touches neither the parse context nor the diagnostics. *)
Definition quietStep (s s' : PState) : Prop :=
  ctx s' = ctx s ∧ Stderr s' = Stderr s ∧ PROBLEM_COUNT s' = PROBLEM_COUNT s.

(** [R] relates the state a computation is started in to the state it
    leaves, whether it returns or panics. *)
Definition keeps {A} (R : relation PState) (m : M A) : Prop :=
  ∀ s, R s (m s).2.

Section Balance.
Context `{W : World}.

(** Diagnostics are only appended, each one counted as a problem, and
    none at all outside linter mode. *)
Definition reported (s s' : PState) : Prop :=
  ∃ ds, Stderr s' = Stderr s ++ ds ∧
        PROBLEM_COUNT s' = (PROBLEM_COUNT s + Z.of_nat (length ds))%Z ∧
        (LINTER_MODE = false → ds = []).

(** What a step of the parser keeps: the local scope up to [RL], the loop
    stack, the linter's bindings, the [noRecurAllowed] flag, the
    unknown-callable flag when [trackU] is set, and the diagnostics up to
    [reported].  The [recur] flag, the environment and the memoized core
    vars are free. *)
Definition KeptG (RL : relation Bindings) (trackU : bool) (s s' : PState)
    : Prop :=
  RL (localBindings (ctx s)) (localBindings (ctx s')) ∧
  loopBindings (ctx s') = loopBindings (ctx s) ∧
  linterBindings (ctx s') = linterBindings (ctx s) ∧
  noRecurAllowed (ctx s') = noRecurAllowed (ctx s) ∧
  (trackU = true →
   isUnknownCallableScope (ctx s') = isUnknownCallableScope (ctx s)) ∧
  reported s s'.

(** The parts of the surroundings that run code or write to the registry
    leave the parse context and the diagnostics alone. *)
Definition WorldQuiet : Prop :=
  (∀ k x, keeps quietStep (Intern k x)) ∧
  (∀ k x, keeps quietStep (InternFake k x)) ∧
  (∀ p, keeps quietStep (generateSymbol p)) ∧
  (∀ e, keeps quietStep (Eval e)) ∧
  (∀ v, keeps quietStep (SetMacroExpr_Eval v)).

End Balance.

(** * Properties *)

(** ** Running computations *)

Lemma bind_run {A B} (m : M A) (f : A → M B) s :
  (m ≫= f) s = match m s with
               | (Ok a, s') => f a s'
               | (Raise p, s') => (Raise p, s')
               end.
Proof. reflexivity. Qed.

Lemma bind_Ok {A B} (m : M A) (f : A → M B) s a s1 :
  m s = (Ok a, s1) → (m ≫= f) s = f a s1.
Proof. intros H. rewrite bind_run, H. reflexivity. Qed.

Lemma bind_Raise {A B} (m : M A) (f : A → M B) s p s1 :
  m s = (Raise p, s1) → (m ≫= f) s = (Raise p, s1).
Proof. intros H. rewrite bind_run, H. reflexivity. Qed.

Lemma bind_Ok_inv {A B} (m : M A) (f : A → M B) s b s' :
  (m ≫= f) s = (Ok b, s') →
  ∃ a s1, m s = (Ok a, s1) ∧ f a s1 = (Ok b, s').
Proof.
  rewrite bind_run. destruct (m s) as [[a|p] s1]; intros H.
  - eauto.
  - discriminate.
Qed.

Lemma with_defer_Ok_inv {A} (d : M unit) (m : M A) s a s' :
  with_defer d m s = (Ok a, s') →
  ∃ s1, m s = (Ok a, s1) ∧ d s1 = (Ok tt, s').
Proof.
  unfold with_defer. destruct (m s) as [r s1].
  destruct (d s1) as [[[]|p] s2] eqn:Hd; intros H; simplify_eq. eauto.
Qed.

Lemma with_defer_congr {A} (d : M unit) (m1 m2 : M A) s1 s2 :
  m1 s1 = m2 s2 → with_defer d m1 s1 = with_defer d m2 s2.
Proof. unfold with_defer. by intros ->. Qed.

Lemma set_ctx_id s : set_ctx (ctx s) s = s.
Proof. by destruct s. Qed.

Lemma set_recur_id c : set_recur (recur c) c = c.
Proof. by destruct c. Qed.

Lemma asSymbol_symObj x : asSymbol (symObj x) = Some x.
Proof. by destruct x. Qed.

Lemma symObj_asSymbol o x : asSymbol o = Some x → symObj x = o.
Proof. destruct o; intros H; simplify_eq/=; reflexivity. Qed.

Section Properties.
Context `{W : World}.

(** ** recur *)

(** C2.  [parseRecur] looks at the no-recur-allowed flag first, then at
    the loop-bindings stack, then parses the arguments and compares their
    number with the size of the innermost loop-bindings vector; only when
    all three checks pass does it return a [RecurExpr] holding the parsed
    arguments (and sets the recur flag). *)
Theorem parseRecur_checks (Parse : Object → M Expr) (obj : Object)
    (s : PState) :
  (noRecurAllowed (ctx s) = true →
     parseRecur Parse obj s
     = (Raise (ParseError obj "Cannot recur across try"), s)) ∧
  (noRecurAllowed (ctx s) = false → GetLoopBindings (ctx s) = None →
     parseRecur Parse obj s
     = (Raise (ParseError obj "No recursion point for recur"), s)) ∧
  (∀ info meta seq lb rargs s1,
     noRecurAllowed (ctx s) = false →
     GetLoopBindings (ctx s) = Some lb →
     obj = OList info meta seq →
     parseSeq Parse (tail seq) s = (Ok rargs, s1) →
     (length lb ≠ length rargs →
        parseRecur Parse obj s
        = (Raise (ParseError obj
                    ("Mismatched argument count to recur, expected: "
                     +:+ pretty (length lb) +:+ " args, got: "
                     +:+ pretty (length rargs))), s1)) ∧
     (length lb = length rargs →
        parseRecur Parse obj s
        = (Ok (RecurExpr (GetPosition obj) rargs),
           set_ctx (set_recur true (ctx s1)) s1))).
Proof.
  split; [|split].
  - intros Hn. unfold parseRecur.
    rewrite bind_run. unfold getCtx, gets. simpl. rewrite Hn. reflexivity.
  - intros Hn Hl. unfold parseRecur.
    rewrite bind_run. unfold getCtx, gets. simpl. rewrite Hn.
    rewrite bind_run. simpl. rewrite Hl. reflexivity.
  - intros info meta seq lb rargs s1 Hn Hl -> Hp.
    unfold parseRecur.
    rewrite bind_run. unfold getCtx, gets. simpl. rewrite Hn.
    rewrite bind_run. simpl. rewrite Hl.
    rewrite bind_run. simpl.
    rewrite (bind_Ok _ _ _ _ _ Hp).
    split; intros Hlen.
    + rewrite bool_decide_eq_false_2 by done. simpl. reflexivity.
    + rewrite bool_decide_eq_true_2 by done. simpl. reflexivity.
Qed.

(** ** Bodies *)

Lemma parseBodyLoop_cons (Parse : Object → M Expr) ro rest res s expr s1 :
  Parse ro s = (Ok expr, s1) →
  parseBodyLoop Parse (ro :: rest) res s
  = if recur (ctx s1) && negb (bool_decide (rest = [])) && negb LINTER_MODE
    then (Raise (ParseError ro "Can only recur from tail position"), s1)
    else (when LINTER_MODE (lintBodyExpr ro expr);;
          parseBodyLoop Parse rest (res ++ [expr])) s1.
Proof.
  intros HP. cbn [parseBodyLoop]. rewrite (bind_Ok _ _ _ _ _ HP).
  rewrite bind_run. unfold getCtx, gets. cbn [fst snd].
  destruct (recur (ctx s1) && negb (bool_decide (rest = []))
            && negb LINTER_MODE); reflexivity.
Qed.

(** C3.  Once an expression of a body has been parsed with the recur flag
    set and further expressions follow, strict mode raises "Can only recur
    from tail position" on that expression, and linter mode raises nothing:
    it goes on with the linter's look at the expression and the rest of the
    body.  The first part holds at any iteration of the loop ([res] holds
    what precedes), the second spells it out for [parseBody] when the
    expression is the first of the body. *)
Theorem parseBody_recur_tail_position (Parse : Object → M Expr)
    (ro : Object) (rest : list Object) (expr : Expr) (s s1 : PState) :
  Parse ro s = (Ok expr, s1) →
  recur (ctx s1) = true →
  rest ≠ [] →
  (∀ res,
     (LINTER_MODE = false →
        parseBodyLoop Parse (ro :: rest) res s
        = (Raise (ParseError ro "Can only recur from tail position"), s1)) ∧
     (LINTER_MODE = true →
        parseBodyLoop Parse (ro :: rest) res s
        = (lintBodyExpr ro expr;;
           parseBodyLoop Parse rest (res ++ [expr])) s1)) ∧
  (∀ s_in, s = set_ctx (set_recur false (ctx s_in)) s_in →
     (LINTER_MODE = false →
        parseBody Parse (ro :: rest) s_in
        = (Raise (ParseError ro "Can only recur from tail position"),
           set_ctx (set_recur (recur (ctx s_in)) (ctx s1)) s1)) ∧
     (LINTER_MODE = true →
        parseBody Parse (ro :: rest) s_in
        = with_defer (modCtx (set_recur (recur (ctx s_in))))
            (lintBodyExpr ro expr;; parseBodyLoop Parse rest [expr]) s1)).
Proof.
  intros HP Hrec Hrest.
  assert (Hloop : ∀ res,
    (LINTER_MODE = false →
       parseBodyLoop Parse (ro :: rest) res s
       = (Raise (ParseError ro "Can only recur from tail position"), s1)) ∧
    (LINTER_MODE = true →
       parseBodyLoop Parse (ro :: rest) res s
       = (lintBodyExpr ro expr;;
          parseBodyLoop Parse rest (res ++ [expr])) s1)).
  { intros res. rewrite (parseBodyLoop_cons _ _ _ _ _ _ _ HP), Hrec.
    rewrite bool_decide_eq_false_2 by done.
    split; intros ->; reflexivity. }
  split; [exact Hloop|].
  intros s_in ->. destruct (Hloop []) as [Hstrict Hlint].
  split; intros HL; unfold parseBody.
  - rewrite bind_run. unfold getCtx, gets. cbn [fst snd].
    rewrite bind_run. unfold modCtx, modify. cbn [fst snd].
    unfold with_defer. rewrite (Hstrict HL). reflexivity.
  - rewrite bind_run. unfold getCtx, gets. cbn [fst snd].
    rewrite bind_run. unfold modCtx, modify. cbn [fst snd].
    unfold with_defer. rewrite (Hlint HL). reflexivity.
Qed.

(** ** Parameter vectors *)

Lemma bindingSymbol_symObj x s : bindingSymbol (symObj x) s = (Ok x, s).
Proof. unfold bindingSymbol. rewrite asSymbol_symObj. reflexivity. Qed.

Lemma parseParamsLoop_plain (pre : list Symbol) (rest : list Object)
    (res : list Symbol) s :
  Forall (λ x, Symbol_Equals (amp SYMBOLS) x = false) pre →
  parseParamsLoop (map symObj pre ++ rest) res s
  = parseParamsLoop rest (res ++ pre) s.
Proof.
  intros Hpre. revert res. induction Hpre as [|x pre Hx _ IH]; intros res.
  - by rewrite app_nil_r.
  - cbn [map app parseParamsLoop].
    rewrite (bind_Ok _ _ _ _ _ (bindingSymbol_symObj x s)), Hx, IH.
    by rewrite <- app_assoc.
Qed.

(** C9, as the code has it.  [parseParams] decides a vector at its first
    [&], not at its last element.  In a vector whose elements before the
    first [&] are the symbols [pre]: when nothing follows that [&],
    [parseParams] returns [pre] as a non-variadic parameter list and raises
    nothing, the [&] is dropped, in every world, strict or linter, and the
    state is untouched; exactly one element [r] after it makes the list
    variadic, with [r] appended when it is a symbol, while a [r] that is no
    symbol raises "Unsupported binding form" in strict mode and is replaced
    by a generated symbol in linter mode; two or more elements after it
    raise "Unexpected parameter" at the second of them, whatever the
    elements are.  A vector of symbols without [&] is returned as it is.
    In strict mode an element [x] that is no symbol, met before any [&],
    raises "Unsupported binding form" at [x]. *)
Theorem parseParams_trailing_amp (pre : list Symbol) (a : Symbol)
    (post : list Object) (x : Object)
    (info : option ObjectInfo) (meta : option MapData) (s : PState) :
  Forall (λ x, Symbol_Equals (amp SYMBOLS) x = false) pre →
  Symbol_Equals (amp SYMBOLS) a = true →
  parseParams (OVector info meta (map symObj pre ++ [symObj a])) s
  = (Ok (pre, false), s) ∧
  parseParams (OVector info meta (map symObj pre ++ symObj a :: post)) s
  = match post with
    | [] => (Ok (pre, false), s)
    | [r] =>
        match asSymbol r with
        | Some vsym => (Ok (pre ++ [vsym], true), s)
        | None =>
            if LINTER_MODE then
              (vsym ← generateSymbol "linter"; mret (pre ++ [vsym], true)) s
            else
              (Raise (ParseError r
                        ("Unsupported binding form: " +:+ ToString r)), s)
        end
    | _ :: y :: _ =>
        (Raise (ParseError y ("Unexpected parameter: " +:+ ToString y)), s)
    end ∧
  parseParams (OVector info meta (map symObj pre)) s = (Ok (pre, false), s) ∧
  (LINTER_MODE = false → asSymbol x = None →
   parseParams (OVector info meta (map symObj pre ++ x :: post)) s
   = (Raise (ParseError x ("Unsupported binding form: " +:+ ToString x)), s)).
Proof.
  intros Hpre Ha.
  assert (Hgen : ∀ post,
    parseParams (OVector info meta (map symObj pre ++ symObj a :: post)) s
    = match post with
      | [] => (Ok (pre, false), s)
      | [r] =>
          match asSymbol r with
          | Some vsym => (Ok (pre ++ [vsym], true), s)
          | None =>
              if LINTER_MODE then
                (vsym ← generateSymbol "linter"; mret (pre ++ [vsym], true)) s
              else
                (Raise (ParseError r
                          ("Unsupported binding form: " +:+ ToString r)), s)
          end
      | _ :: y :: _ =>
          (Raise (ParseError y ("Unexpected parameter: " +:+ ToString y)), s)
      end).
  { intros p. unfold parseParams.
    rewrite (parseParamsLoop_plain _ _ _ _ Hpre). cbn [parseParamsLoop app].
    rewrite (bind_Ok _ _ _ _ _ (bindingSymbol_symObj a s)), Ha.
    destruct p as [|r [|y p]].
    - reflexivity.
    - unfold bindingSymbol. destruct (asSymbol r) as [vsym|]; [reflexivity|].
      destruct LINTER_MODE; reflexivity.
    - reflexivity. }
  split; [exact (Hgen [])|]. split; [exact (Hgen post)|]. split.
  - unfold parseParams.
    rewrite <- (app_nil_r (map symObj pre)).
    rewrite (parseParamsLoop_plain _ _ _ _ Hpre). reflexivity.
  - intros HL Hx. unfold parseParams.
    rewrite (parseParamsLoop_plain _ _ _ _ Hpre). cbn [parseParamsLoop].
    unfold bindingSymbol. rewrite Hx, HL. reflexivity.
Qed.

(** ** Symbols *)

Lemma Split_not_nil (str : string) (sep : ascii) : Split str sep ≠ [].
Proof.
  destruct str as [|c str]; cbn [Split]; [done|].
  destruct (Ascii.eqb c sep); [done|]. by destruct (Split str sep).
Qed.

Lemma MakeVarRefExpr_Ok vr obj s e s' :
  MakeVarRefExpr vr obj s = (Ok e, s') → e = VarRefExpr (GetPosition obj) vr.
Proof.
  unfold MakeVarRefExpr. intros H.
  apply bind_Ok_inv in H as (x & s1 & _ & H).
  apply bind_Ok_inv in H as ([] & s2 & _ & H).
  destruct (vr_ns x); [|discriminate].
  apply bind_Ok_inv in H as ([] & s3 & _ & H).
  by inversion H.
Qed.

(** C10.  A symbol with a namespace part never reaches the local frames:
    [GetLocalBinding] answers [None] whatever the context holds, so
    [parseSymbol] goes to the global environment.  When the environment
    resolves the symbol the result is the reference to that Var, also with
    a local binding of the same name in scope; when it does not, strict
    mode raises "Unable to resolve symbol"; and no successful result is a
    [BindingExpr]. *)
Theorem qualified_symbol_never_local (obj : Object) (sym : Symbol)
    (s : PState) :
  asSymbol obj = Some sym →
  ns sym ≠ None →
  (∀ c, GetLocalBinding c sym = None) ∧
  (∀ vr, Resolve (GLOBAL_ENV s) sym = Some vr →
     parseSymbol obj s = MakeVarRefExpr vr obj s) ∧
  (Resolve (GLOBAL_ENV s) sym = None → LINTER_MODE = false →
     parseSymbol obj s
     = (Raise (ParseError obj ("Unable to resolve symbol: " +:+ ToString obj)),
        s)) ∧
  (∀ e s', parseSymbol obj s = (Ok e, s') →
     (∃ vr, e = VarRefExpr (GetPosition obj) vr) ∨ e = NewSurrogateExpr obj).
Proof.
  intros Hsym Hns.
  assert (Hglb : ∀ c, GetLocalBinding c sym = None).
  { intros c. unfold GetLocalBinding. by destruct (ns sym). }
  assert (Hrun : parseSymbol obj s
    = match Resolve (GLOBAL_ENV s) sym with
      | Some vr => MakeVarRefExpr vr obj s
      | None =>
          if negb LINTER_MODE then
            (Raise (ParseError obj
                      ("Unable to resolve symbol: " +:+ ToString obj)), s)
          else
            let e := GLOBAL_ENV s in
            let symNs := NamespaceFor e (CurrentNamespace e) sym in
            let isLocalNs :=
              match symNs with
              | None => true
              | Some k => bool_decide (k = CurrentNamespace e)
              end in
            (if isLocalNs && (isInteropSymbol sym || isJavaSymbol sym) then
               mret (NewSurrogateExpr obj)
             else
               when isLocalNs (
                 unknownScope ← getCtx isUnknownCallableScope;
                 when (negb unknownScope) (
                   lb ← getCtx linterBindings;
                   when (bool_decide (GetBinding lb sym = None))
                     (printParseError (GetPosition obj)
                        ("Unable to resolve symbol: " +:+ ToString obj))));;
               vr ← InternFakeSymbol symNs obj sym;
               MakeVarRefExpr vr obj) s
      end).
  { unfold parseSymbol. rewrite Hsym.
    destruct (length (Split (name sym) ".")) as [|n] eqn:Hlen.
    { apply length_zero_iff_nil in Hlen. by apply Split_not_nil in Hlen. }
    cbn [parseSymbolN]. rewrite Hsym.
    rewrite bind_run. unfold getCtx at 1, gets at 1. cbn [fst snd id].
    rewrite Hglb.
    rewrite bind_run. unfold getEnv at 1, gets at 1. cbn [fst snd].
    destruct (Resolve (GLOBAL_ENV s) sym) as [vr|]; [reflexivity|].
    rewrite (bool_decide_eq_false_2 (ns sym = None)) by done.
    destruct LINTER_MODE; [|reflexivity].
    cbn [negb]. rewrite andb_false_r. reflexivity. }
  split; [exact Hglb|]. split; [|split].
  - intros vr Hr. by rewrite Hrun, Hr.
  - intros Hr HL. by rewrite Hrun, Hr, HL.
  - intros e s'. rewrite Hrun.
    destruct (Resolve (GLOBAL_ENV s) sym) as [vr|].
    { intros H. left. exists vr. by eapply MakeVarRefExpr_Ok. }
    destruct (negb LINTER_MODE); [discriminate|]. cbn zeta.
    match goal with |- context [if ?b then _ else _] => destruct b end.
    + intros H. right. by inversion H.
    + intros H. apply bind_Ok_inv in H as ([] & s1 & _ & H).
      apply bind_Ok_inv in H as (vr & s2 & _ & H).
      left. exists vr. by eapply MakeVarRefExpr_Ok.
Qed.

(** ** Special forms *)

Lemma macroexpand1_no_macro info meta (seq : list Object) s :
  resolveMacro (First seq) s = (Ok None, s) →
  macroexpand1 (OList info meta seq) s = (Ok None, s).
Proof.
  intros H. unfold macroexpand1, asSeq. cbn [seqItems].
  rewrite bind_run. cbn [mret M_ret].
  by rewrite (bind_Ok _ _ _ _ _ H).
Qed.

Lemma restore_scope s :
  set_ctx (set_isUnknownCallableScope (isUnknownCallableScope (ctx s))
             (ctx (set_ctx (set_isUnknownCallableScope false (ctx s)) s)))
          (set_ctx (set_isUnknownCallableScope false (ctx s)) s) = s.
Proof. destruct s as [[] ?]. reflexivity. Qed.

(** A list whose head is an unqualified symbol naming a special form, and no
    macro: [parseList] clears the unknown-callable flag, runs the parser of
    the form and puts the flag back. *)
Lemma parseList_special (Parse : Object → M Expr) info meta hi hm nm rest s
    (special : M Expr) :
  let obj := OList info meta (OSymbol hi hm None nm :: rest) in
  resolveMacro (OSymbol hi hm None nm) s = (Ok None, s) →
  parseSpecialForm Parse obj (OSymbol hi hm None nm :: rest)
    (GetPosition obj) nm = Some special →
  parseList Parse obj s
  = with_defer
      (modCtx (set_isUnknownCallableScope (isUnknownCallableScope (ctx s))))
      (modCtx (set_isUnknownCallableScope false);; special) s.
Proof.
  intros obj Hm Hsp. unfold parseList.
  rewrite (bind_Ok _ _ _ _ _
             (macroexpand1_no_macro info meta (OSymbol hi hm None nm :: rest)
                s Hm)).
  unfold asSeq. cbn [obj seqItems]. rewrite bind_run. cbn [mret M_ret].
  rewrite bool_decide_eq_false_2 by done.
  rewrite bind_run. unfold getCtx at 1, gets at 1. cbn [fst snd First nth].
  fold obj. rewrite Hsp. reflexivity.
Qed.

(** C6, as the code has it.  A [quote] form of any length parses to the
    literal of its second element, [NIL] when there is none, whatever the
    recursive parser is (it is never called); nothing is printed and the
    state is left as it was.  No element count is checked. *)
Theorem quote_is_literal_of_second (Parse : Object → M Expr)
    (info hi : option ObjectInfo) (meta hm : option MapData)
    (rest : list Object) (n : nat) (s : PState) :
  let head := OSymbol hi hm None (quote STR) in
  let obj := OList info meta (head :: rest) in
  resolveMacro head s = (Ok None, s) →
  parseList Parse obj s = (Ok (NewLiteralExpr (default NIL (rest !! 0))), s) ∧
  ParseN (S n) obj s = (Ok (NewLiteralExpr (default NIL (rest !! 0))), s).
Proof.
  intros head obj Hm.
  assert (H : ∀ P, parseList P obj s
                   = (Ok (NewLiteralExpr (default NIL (rest !! 0))), s)).
  { intros P. unfold obj, head.
    rewrite (parseList_special P info meta hi hm _ rest s
               (mret (NewLiteralExpr (Second (head :: rest)))) Hm).
    - unfold with_defer. rewrite bind_run. unfold modCtx, modify.
      cbn [fst snd mret M_ret]. rewrite restore_scope.
      by destruct rest.
    - unfold parseSpecialForm. by rewrite bool_decide_eq_true_2. }
  split; [apply H|]. cbn [ParseN Parse_step obj]. apply H.
Qed.

Lemma checkForm_run (obj : Object) info meta (seq : list Object) (lo hi : Z) s :
  obj = OList info meta seq →
  checkForm obj lo hi s
  = if bool_decide (SeqCount seq < lo)%Z then
      (Raise (ParseError obj ("Too few arguments to " +:+ ToString (First seq))),
       s)
    else if bool_decide (SeqCount seq > hi)%Z then
      (Raise (ParseError obj ("Too many arguments to " +:+ ToString (First seq))),
       s)
    else (Ok (SeqCount seq), s).
Proof.
  intros ->. unfold checkForm, asSeq. cbn [seqItems].
  rewrite bind_run. cbn [mret M_ret].
  destruct (bool_decide (SeqCount seq < lo)%Z); [reflexivity|].
  destruct (bool_decide (SeqCount seq > hi)%Z); reflexivity.
Qed.

Lemma ParseN_NIL n s : ParseN (S n) NIL s = (Ok (LiteralExpr noPosition NIL false), s).
Proof. reflexivity. Qed.

(** C5.  An [if] form that is no macro call.  With three elements
    [(if c p)]: the form itself writes exactly the one "missing else
    branch" warning at its position when linter mode and the
    if-without-else toggle are both on, and nothing otherwise ([s1] is the
    state in which the parsing of [c] starts); it then parses [c] and [p],
    and every result it returns is an [IfExpr] whose negative branch is the
    literal [NIL].  With fewer than three or more than four elements it
    raises "Too few" respectively "Too many arguments". *)
Theorem if_without_else (n : nat) (info hi : option ObjectInfo)
    (meta hm : option MapData) (s : PState) :
  let head := OSymbol hi hm None (_if STR) in
  _if STR ≠ quote STR →
  resolveMacro head s = (Ok None, s) →
  (∀ c p : Object,
     let obj := OList info meta [head; c; p] in
     let pos := GetPosition obj in
     (∃ s1,
        ctx s1 = set_isUnknownCallableScope false (ctx s) ∧
        GLOBAL_ENV s1 = GLOBAL_ENV s ∧
        Stderr s1
        = Stderr s ++
          (if LINTER_MODE && ifWithoutElse WARNINGS
           then [mkDiagnostic pos "Parse warning: missing else branch"]
           else []) ∧
        ParseN (S (S n)) obj s
        = with_defer
            (modCtx (set_isUnknownCallableScope
                       (isUnknownCallableScope (ctx s))))
            (c' ← ParseN (S n) c;
             p' ← ParseN (S n) p;
             mret (IfExpr pos c' p' (LiteralExpr noPosition NIL false))) s1) ∧
     (∀ e s', ParseN (S (S n)) obj s = (Ok e, s') →
        ∃ c' p', e = IfExpr pos c' p' (LiteralExpr noPosition NIL false))) ∧
  (∀ rest : list Object,
     let obj := OList info meta (head :: rest) in
     (length rest < 2 →
        ParseN (S n) obj s
        = (Raise (ParseError obj ("Too few arguments to " +:+ ToString head)),
           s)) ∧
     (3 < length rest →
        ParseN (S n) obj s
        = (Raise (ParseError obj ("Too many arguments to " +:+ ToString head)),
           s))).
Proof.
  intros head Hne Hm.
  assert (Hsp : ∀ P obj seq pos, parseSpecialForm P obj seq pos (_if STR)
    = Some (checkForm obj 3 4;;
            when (LINTER_MODE && bool_decide (SeqCount seq < 4)%Z
                  && ifWithoutElse WARNINGS)
              (printParseWarning pos "missing else branch");;
            c ← P (Second seq);
            p ← P (Third seq);
            n ← P (Fourth seq);
            mret (IfExpr pos c p n))).
  { intros. unfold parseSpecialForm.
    rewrite (bool_decide_eq_false_2 (_if STR = quote STR)) by done.
    by rewrite bool_decide_eq_true_2. }
  split.
  - intros c p obj pos.
    assert (Hrun : ∃ s1,
      ctx s1 = set_isUnknownCallableScope false (ctx s) ∧
      GLOBAL_ENV s1 = GLOBAL_ENV s ∧
      Stderr s1
      = Stderr s ++
        (if LINTER_MODE && ifWithoutElse WARNINGS
         then [mkDiagnostic pos "Parse warning: missing else branch"]
         else []) ∧
      ParseN (S (S n)) obj s
      = with_defer
          (modCtx (set_isUnknownCallableScope
                     (isUnknownCallableScope (ctx s))))
          (c' ← ParseN (S n) c;
           p' ← ParseN (S n) p;
           mret (IfExpr pos c' p' (LiteralExpr noPosition NIL false))) s1).
    { exists ((when (LINTER_MODE && ifWithoutElse WARNINGS)
                 (printParseWarning pos "missing else branch")
                 (set_ctx (set_isUnknownCallableScope false (ctx s)) s)).2).
      split; [|split; [|split]].
      + by destruct (LINTER_MODE && ifWithoutElse WARNINGS).
      + by destruct (LINTER_MODE && ifWithoutElse WARNINGS).
      + destruct (LINTER_MODE && ifWithoutElse WARNINGS); cbn.
        * reflexivity.
        * by rewrite app_nil_r.
      + change (ParseN (S (S n)) obj) with (parseList (ParseN (S n)) obj).
        unfold obj, head.
        rewrite (parseList_special _ info meta hi hm _ [c; p] s _ Hm (Hsp _ _ _ _)).
        apply with_defer_congr.
        rewrite bind_run. unfold modCtx at 1, modify at 1. cbn [fst snd].
        rewrite bind_run.
        rewrite (checkForm_run _ info meta _ 3 4 _ eq_refl).
        change (SeqCount [OSymbol hi hm None (_if STR); c; p]) with 3%Z.
        rewrite (bool_decide_eq_false_2 (3 < 3)%Z) by lia.
        rewrite (bool_decide_eq_false_2 (3 > 4)%Z) by lia.
        rewrite (bool_decide_eq_true_2 (3 < 4)%Z) by lia.
        rewrite andb_true_r. rewrite bind_run.
        destruct (LINTER_MODE && ifWithoutElse WARNINGS);
          cbn [when fst snd printParseWarning printError modify mret M_ret];
          rewrite !bind_run; cbn [Second Third Fourth nth];
          (destruct (ParseN (S n) c _) as [[c'|?] sc]; [|reflexivity]);
          rewrite !bind_run;
          (destruct (ParseN (S n) p sc) as [[p'|?] sp]; [|reflexivity]);
          rewrite bind_run, ParseN_NIL; reflexivity. }
    split; [exact Hrun|].
    intros e s' He. destruct Hrun as (s1 & _ & _ & _ & Heq).
    rewrite Heq in He. apply with_defer_Ok_inv in He as (s2 & He & _).
    apply bind_Ok_inv in He as (c' & s3 & _ & He).
    apply bind_Ok_inv in He as (p' & s4 & _ & He).
    inversion He. eauto.
  - intros rest obj.
    assert (Hgen : ParseN (S n) obj s
      = with_defer
          (modCtx (set_isUnknownCallableScope
                     (isUnknownCallableScope (ctx s))))
          (checkForm obj 3 4;;
           when (LINTER_MODE && bool_decide (SeqCount (head :: rest) < 4)%Z
                 && ifWithoutElse WARNINGS)
             (printParseWarning (GetPosition obj) "missing else branch");;
           c ← ParseN n (Second (head :: rest));
           p ← ParseN n (Third (head :: rest));
           x ← ParseN n (Fourth (head :: rest));
           mret (IfExpr (GetPosition obj) c p x))
          (set_ctx (set_isUnknownCallableScope false (ctx s)) s)).
    { change (ParseN (S n) obj) with (parseList (ParseN n) obj).
      unfold obj, head.
      rewrite (parseList_special _ info meta hi hm _ rest s _ Hm (Hsp _ _ _ _)).
      unfold with_defer. by rewrite bind_run. }
    split; intros Hlen; rewrite Hgen; unfold with_defer; rewrite bind_run;
      rewrite (checkForm_run obj info meta (head :: rest) 3 4 _ eq_refl);
      unfold SeqCount; cbn [length].
    + rewrite (bool_decide_eq_true_2 (Z.of_nat (S (length rest)) < 3)%Z) by lia.
      unfold modCtx, modify. cbn [fst snd]. by rewrite restore_scope.
    + rewrite (bool_decide_eq_false_2 (Z.of_nat (S (length rest)) < 3)%Z) by lia.
      rewrite (bool_decide_eq_true_2 (Z.of_nat (S (length rest)) > 4)%Z) by lia.
      unfold modCtx, modify. cbn [fst snd]. by rewrite restore_scope.
Qed.

(** ** fn *)














(** ** try *)

Lemma bind_assoc_run {A B C} (m : M A) (f : A → M B) (g : B → M C) s :
  ((m ≫= f) ≫= g) s = (m ≫= λ x, f x ≫= g) s.
Proof. rewrite !bind_run. destruct (m s) as [[a|p] s1]; reflexivity. Qed.

Lemma parseTryLoop_step (Parse : Object → M Expr) obj seq lt res o s :
  parseTryLoop Parse (obj :: seq) lt res o s
  = match lt, tryItem obj with
    | Finally, _ =>
        (Raise (ParseError obj "finally clause must be last in try expression"),
         s)
    | _, Catch =>
        (c ← parseCatch Parse obj;
         parseTryLoop Parse seq Catch
           (mkTryExpr (try_pos res) (try_body res) (catches res ++ [c])
              (finallyExpr res)) obj) s
    | _, Finally =>
        (objSeq ← asSeq obj;
         f ← parseFinally Parse (tail objSeq);
         parseTryLoop Parse seq Finally
           (mkTryExpr (try_pos res) (try_body res) (catches res) (Some f))
           obj) s
    | Catch, Regular =>
        (Raise (ParseError obj
           "Only catch or finally clause can follow catch in try expression"),
         s)
    | Regular, Regular =>
        (e ← Parse obj;
         parseTryLoop Parse seq Regular
           (mkTryExpr (try_pos res) (try_body res ++ [e]) (catches res)
              (finallyExpr res)) obj) s
    end.
Proof.
  cbn [parseTryLoop]. unfold tryItem.
  destruct lt; cbn; destruct (isCatch obj); try reflexivity;
    destruct (isFinally obj); reflexivity.
Qed.

Lemma parseTryLoop_app (Parse : Object → M Expr) xs ys lt res o s :
  parseTryLoop Parse (xs ++ ys) lt res o s
  = (r ← parseTryLoop Parse xs lt res o;
     parseTryLoop Parse ys (lastTypeAfter lt xs) r.1 r.2) s.
Proof.
  revert lt res o s. induction xs as [|x xs IH]; intros lt res o s.
  { reflexivity. }
  cbn [app lastTypeAfter]. rewrite parseTryLoop_step.
  rewrite (bind_run (parseTryLoop Parse (x :: xs) lt res o)).
  rewrite parseTryLoop_step.
  destruct lt, (tryItem x); try reflexivity.
  - rewrite !bind_run. destruct (Parse x s) as [[e|p] s1]; [|reflexivity].
    by rewrite IH, bind_run.
  - rewrite !bind_run.
    destruct (parseCatch Parse x s) as [[c|p] s1]; [|reflexivity].
    by rewrite IH, bind_run.
  - rewrite !bind_run. destruct (asSeq x s) as [[sq|p] s1]; [|reflexivity].
    rewrite !bind_run.
    destruct (parseFinally Parse (tail sq) s1) as [[f|p] s2]; [|reflexivity].
    by rewrite IH, bind_run.
  - rewrite !bind_run.
    destruct (parseCatch Parse x s) as [[c|p] s1]; [|reflexivity].
    by rewrite IH, bind_run.
  - rewrite !bind_run. destruct (asSeq x s) as [[sq|p] s1]; [|reflexivity].
    rewrite !bind_run.
    destruct (parseFinally Parse (tail sq) s1) as [[f|p] s2]; [|reflexivity].
    by rewrite IH, bind_run.
Qed.

Lemma parseTryLoop_shape (Parse : Object → M Expr) seq lt res o s t o' s' :
  parseTryLoop Parse seq lt res o s = (Ok (t, o'), s') →
  ∃ regs cs fin,
    seq = regs ++ cs ++ fin ∧ tryOrdered regs cs fin ∧
    (lt ≠ Regular → regs = []) ∧
    (lt = Finally → seq = []) ∧
    length (try_body t) = length (try_body res) + length regs ∧
    length (catches t) = length (catches res) + length cs ∧
    (fin = [] → finallyExpr t = finallyExpr res) ∧
    (fin ≠ [] → finallyExpr t ≠ None).
Proof.
  revert lt res o s. induction seq as [|x seq IH]; intros lt res o s H.
  { inversion H; subst. exists [], [], [].
    repeat split; cbn; try done; try lia; auto using Forall_nil_2. }
  rewrite parseTryLoop_step in H.
  destruct lt; destruct (tryItem x) eqn:Hx; try discriminate.
  - (* a body expression, before any clause *)
    apply bind_Ok_inv in H as (e & s1 & _ & H).
    apply IH in H as (regs & cs & fin & -> & (Hr & Hc & Hf) & _ & _ & Hb & Hcs & Hf1 & Hf2).
    exists (x :: regs), cs, fin. cbn in *.
    rewrite length_app in Hb. cbn in Hb.
    repeat split; try done; try lia. by constructor.
  - (* the first catch clause *)
    apply bind_Ok_inv in H as (c & s1 & _ & H).
    apply IH in H as (regs & cs & fin & -> & (Hr & Hc & Hf) & Hnil & _ & Hb & Hcs & Hf1 & Hf2).
    rewrite (Hnil ltac:(done)) in *.
    exists [], (x :: cs), fin. cbn in *.
    rewrite length_app in Hcs. cbn in Hcs.
    repeat split; try done; try lia. by constructor.
  - (* a finally clause right after the body *)
    apply bind_Ok_inv in H as (sq & s1 & _ & H).
    apply bind_Ok_inv in H as (f & s2 & _ & H).
    apply IH in H as (regs & cs & fin & Hseq & _ & _ & Hnil & Hb & Hcs & Hf1 & Hf2).
    specialize (Hnil eq_refl). rewrite Hseq in Hnil.
    apply app_eq_nil in Hnil as [-> [-> ->]%app_eq_nil]. cbn in Hseq. subst seq.
    exists [], [], [x]. cbn in *. specialize (Hf1 eq_refl).
    repeat split; try done; try lia; auto using Forall_nil_2.
    + right. eauto.
    + intros _. by rewrite Hf1.
  - (* a further catch clause *)
    apply bind_Ok_inv in H as (c & s1 & _ & H).
    apply IH in H as (regs & cs & fin & -> & (Hr & Hc & Hf) & Hnil & _ & Hb & Hcs & Hf1 & Hf2).
    rewrite (Hnil ltac:(done)) in *.
    exists [], (x :: cs), fin. cbn in *.
    rewrite length_app in Hcs. cbn in Hcs.
    repeat split; try done; try lia. by constructor.
  - (* a finally clause after the catch clauses *)
    apply bind_Ok_inv in H as (sq & s1 & _ & H).
    apply bind_Ok_inv in H as (f & s2 & _ & H).
    apply IH in H as (regs & cs & fin & Hseq & _ & _ & Hnil & Hb & Hcs & Hf1 & Hf2).
    specialize (Hnil eq_refl). rewrite Hseq in Hnil.
    apply app_eq_nil in Hnil as [-> [-> ->]%app_eq_nil]. cbn in Hseq. subst seq.
    exists [], [], [x]. cbn in *. specialize (Hf1 eq_refl).
    repeat split; try done; try lia; auto using Forall_nil_2.
    + right. eauto.
    + intros _. by rewrite Hf1.
Qed.

Lemma lastTypeAfter_app lt xs ys :
  lastTypeAfter lt (xs ++ ys) = lastTypeAfter (lastTypeAfter lt xs) ys.
Proof. revert lt. induction xs as [|x xs IH]; intros lt; cbn; [done|apply IH]. Qed.

Lemma lastTypeAfter_regular lt xs :
  Forall (λ o, tryItem o = Regular) xs → lastTypeAfter lt xs = lt.
Proof. induction 1 as [|x xs Hx _ IH]; cbn; [done|]. by rewrite Hx. Qed.

Lemma lastTypeAfter_catch lt xs :
  Forall (λ o, tryItem o = Catch) xs → xs ≠ [] → lastTypeAfter lt xs = Catch.
Proof.
  intros Hxs. revert lt. induction Hxs as [|x xs Hx _ IH]; intros lt Hne; [done|].
  cbn. rewrite Hx. destruct xs as [|y xs]; [done|]. by apply IH.
Qed.

Lemma lastTypeAfter_ordered regs cs fin :
  tryOrdered regs cs fin →
  (fin ≠ [] → lastTypeAfter Regular (regs ++ cs ++ fin) = Finally) ∧
  (fin = [] → cs ≠ [] → lastTypeAfter Regular (regs ++ cs ++ fin) = Catch).
Proof.
  intros (Hr & Hc & Hf). rewrite !lastTypeAfter_app.
  rewrite (lastTypeAfter_regular _ _ Hr). split.
  - intros Hne. destruct Hf as [->|(f & -> & Hfin)]; [done|].
    cbn. by rewrite Hfin.
  - intros -> Hne. cbn. by apply lastTypeAfter_catch.
Qed.

Lemma parseTryLoop_misplaced (Parse : Object → M Expr) good bad rest res o s
    t o1 s1 :
  parseTryLoop Parse good Regular res o s = (Ok (t, o1), s1) →
  ((∃ f, f ∈ good ∧ tryItem f = Finally) →
     parseTryLoop Parse (good ++ bad :: rest) Regular res o s
     = (Raise (ParseError bad "finally clause must be last in try expression"),
        s1)) ∧
  ((∃ c, c ∈ good ∧ tryItem c = Catch) →
   (∀ f, f ∈ good → tryItem f ≠ Finally) →
   tryItem bad = Regular →
     parseTryLoop Parse (good ++ bad :: rest) Regular res o s
     = (Raise (ParseError bad
          "Only catch or finally clause can follow catch in try expression"),
        s1)).
Proof.
  intros Hgood.
  pose proof (parseTryLoop_shape _ _ _ _ _ _ _ _ _ Hgood)
    as (regs & cs & fin & Hseq & Hord & _).
  pose proof (lastTypeAfter_ordered _ _ _ Hord) as [HlastF HlastC].
  rewrite <- Hseq in HlastF, HlastC.
  destruct Hord as (Hr & Hc & Hf).
  rewrite Forall_forall in Hr. rewrite Forall_forall in Hc.
  split.
  - intros (f & Hin & Hfin).
    rewrite parseTryLoop_app, (bind_Ok _ _ _ _ _ Hgood). cbn [fst snd].
    rewrite HlastF; [by rewrite parseTryLoop_step|].
    intros ->. rewrite app_nil_r in Hseq. subst good.
    apply elem_of_app in Hin as [Hin|Hin].
    + apply Hr in Hin. congruence.
    + apply Hc in Hin. congruence.
  - intros (c & Hin & Hcatch) Hnofin Hbad.
    rewrite parseTryLoop_app, (bind_Ok _ _ _ _ _ Hgood). cbn [fst snd].
    assert (fin = []) as Hfin.
    { destruct Hf as [->|(f & -> & Hfin)]; [done|].
      exfalso. apply (Hnofin f); [|done]. subst good.
      rewrite !elem_of_app. right. right. by apply list_elem_of_singleton. }
    rewrite HlastC; [by rewrite parseTryLoop_step, Hbad|done|].
    intros ->. subst. rewrite !app_nil_r in Hin. apply Hr in Hin. congruence.
Qed.

(** C4.  The children of a [try] form are classified one after the other
    as body expression, catch clause or finally clause.  A [try] that
    parses has its children in the order body expressions, catch clauses,
    at most one finally clause, and the expression returned holds one body
    entry per body expression, one catch per catch clause and a finally
    body exactly when there is a finally clause.  When the children [good]
    have been gone through and the next child [bad] follows a finally
    clause, or is a body expression following a catch clause, a
    [ParseError] positioned at [bad] is raised: by the loop, and so by
    [parseTry], which puts the no-recur-allowed flag back on the way. *)
Theorem parseTry_clause_order (Parse : Object → M Expr) :
  (∀ info meta head children s t s',
     parseTry Parse (OList info meta (head :: children)) s = (Ok t, s') →
     ∃ regs cs fin,
       children = regs ++ cs ++ fin ∧ tryOrdered regs cs fin ∧
       length (try_body t) = length regs ∧
       length (catches t) = length cs ∧
       (fin = [] ↔ finallyExpr t = None)) ∧
  (∀ good bad rest res o s t o1 s1,
     parseTryLoop Parse good Regular res o s = (Ok (t, o1), s1) →
     ((∃ f, f ∈ good ∧ tryItem f = Finally) →
        parseTryLoop Parse (good ++ bad :: rest) Regular res o s
        = (Raise (ParseError bad
                    "finally clause must be last in try expression"), s1)) ∧
     ((∃ c, c ∈ good ∧ tryItem c = Catch) →
      (∀ f, f ∈ good → tryItem f ≠ Finally) →
      tryItem bad = Regular →
        parseTryLoop Parse (good ++ bad :: rest) Regular res o s
        = (Raise (ParseError bad
             "Only catch or finally clause can follow catch in try expression"),
           s1))) ∧
  (∀ info meta head good bad rest s t o1 s1,
     let obj := OList info meta (head :: good ++ bad :: rest) in
     parseTryLoop Parse good Regular (mkTryExpr (GetPosition obj) [] [] None)
       obj (set_ctx (set_noRecurAllowed true (ctx s)) s) = (Ok (t, o1), s1) →
     (∃ f, f ∈ good ∧ tryItem f = Finally) ∨
     ((∃ c, c ∈ good ∧ tryItem c = Catch) ∧ tryItem bad = Regular) →
     ∃ msg, parseTry Parse obj s
            = (Raise (ParseError bad msg),
               set_ctx (set_noRecurAllowed (noRecurAllowed (ctx s)) (ctx s1))
                 s1)).
Proof.
  split; [|split].
  - intros info meta head children s t s' H. unfold parseTry in H.
    apply bind_Ok_inv in H as (sq & s1 & Hsq & H).
    inversion Hsq; subst sq s1. cbn [tail] in H.
    apply bind_Ok_inv in H as (nra & s2 & _ & H).
    apply bind_Ok_inv in H as ([] & s3 & _ & H).
    apply with_defer_Ok_inv in H as (s4 & H & _).
    apply bind_Ok_inv in H as ([t1 o1] & s5 & Hloop & H).
    apply bind_Ok_inv in H as ([] & s6 & _ & H).
    inversion H; subst.
    apply parseTryLoop_shape in Hloop
      as (regs & cs & fin & -> & Hord & _ & _ & Hb & Hc & Hf1 & Hf2).
    exists regs, cs, fin. cbn in Hb, Hc, Hf1.
    split; [done|]. split; [done|]. split; [done|]. split; [done|]. split.
    + exact Hf1.
    + intros Hnone. destruct fin; [done|]. by destruct Hf2.
  - intros good bad rest res o s t o1 s1. apply parseTryLoop_misplaced.
  - intros info meta head good bad rest s t o1 s1 obj Hgood Hbad.
    pose proof (parseTryLoop_misplaced Parse good bad rest _ _ _ _ _ _ Hgood)
      as [HF HC].
    assert (Hraise : ∃ msg,
      parseTryLoop Parse (good ++ bad :: rest) Regular
        (mkTryExpr (GetPosition obj) [] [] None) obj
        (set_ctx (set_noRecurAllowed true (ctx s)) s)
      = (Raise (ParseError bad msg), s1)).
    { pose proof (parseTryLoop_shape _ _ _ _ _ _ _ _ _ Hgood)
        as (regs & cs & fin & Hseq & (Hr & Hc & Hf) & _).
      rewrite Forall_forall in Hr. rewrite Forall_forall in Hc.
      assert (Hnone : fin = [] → ∀ f, f ∈ good → tryItem f ≠ Finally).
      { intros -> f Hin Hfin. subst good. rewrite app_nil_r in Hin.
        apply elem_of_app in Hin as [Hin|Hin];
          [apply Hr in Hin|apply Hc in Hin]; congruence. }
      destruct Hf as [->|(f & -> & Hfin)].
      - destruct Hbad as [(f & Hin & Hfin)|[Hcatch Hreg]].
        + by destruct (Hnone eq_refl f Hin).
        + eexists. apply HC; [done|by apply Hnone|done].
      - eexists. apply HF. exists f. split; [|done]. subst good.
        rewrite !elem_of_app. right. right. by apply list_elem_of_singleton. }
    destruct Hraise as [msg Hraise]. exists msg. unfold parseTry.
    unfold asSeq. cbn [obj seqItems]. rewrite bind_run. cbn [mret M_ret tail].
    rewrite bind_run. unfold getCtx at 1, gets at 1. cbn [fst snd].
    rewrite bind_run. unfold modCtx at 1, modify at 1. cbn [fst snd].
    unfold with_defer. fold obj. rewrite (bind_Raise _ _ _ _ _ Hraise).
    reflexivity.
Qed.

(** ** Whole-program warnings *)

Lemma printError_run pos msg s :
  printError pos msg s = (Ok tt, addDiagnostics [mkDiagnostic pos msg] s).
Proof. reflexivity. Qed.

Lemma addDiagnostics_app ds1 ds2 s :
  addDiagnostics ds2 (addDiagnostics ds1 s) = addDiagnostics (ds1 ++ ds2) s.
Proof.
  unfold addDiagnostics. cbn. rewrite <- app_assoc, length_app. f_equal. lia.
Qed.

Lemma addDiagnostics_nil s : addDiagnostics [] s = s.
Proof.
  destruct s. unfold addDiagnostics. cbn. rewrite app_nil_r. f_equal. lia.
Qed.

Lemma printNames_run positions prefix names s :
  printNames positions prefix names s
  = (Ok tt, addDiagnostics (warningLines prefix positions names) s).
Proof.
  revert s. induction names as [|n names IH]; intros s.
  - cbn. by rewrite addDiagnostics_nil.
  - cbn [printNames warningLines map]. rewrite bind_run.
    unfold printParseWarning. rewrite printError_run, IH.
    by rewrite addDiagnostics_app.
Qed.

Lemma emitted_addDiagnostics {A} (m : M A) ds r s :
  m s = (r, addDiagnostics ds s) → emitted m s = ds.
Proof. intros H. unfold emitted. rewrite H. cbn. apply drop_app_length. Qed.

Lemma warningLines_msg prefix positions names :
  map d_msg (warningLines prefix positions names)
  = map (λ n, "Parse warning: " +:+ prefix +:+ n) names.
Proof. unfold warningLines. rewrite map_map. reflexivity. Qed.

Lemma sort_Strings_sorted names : StronglySorted String.le (sort_Strings names).
Proof. apply StronglySorted_merge_sort; apply _. Qed.

Lemma sort_Strings_perm names1 names2 :
  names1 ≡ₚ names2 → sort_Strings names1 = sort_Strings names2.
Proof.
  intros Hp. apply (StronglySorted_unique String.le);
    [apply sort_Strings_sorted..|].
  unfold sort_Strings. by rewrite !merge_sort_Permutation.
Qed.

Lemma recordAll_names acc es : (recordAll acc es).1 = acc.1 ++ es.*1.
Proof.
  revert acc. induction es as [|e es IH]; intros acc; cbn.
  - by rewrite app_nil_r.
  - unfold recordAll in IH. rewrite IH. cbn. by rewrite <- app_assoc.
Qed.

Lemma recordAll_positions acc es :
  (recordAll acc es).2 = foldl (λ m e, <[e.1 := e.2]> m) acc.2 es.
Proof.
  revert acc. induction es as [|e es IH]; intros acc; cbn; [done|].
  unfold recordAll in IH. by rewrite IH.
Qed.

Lemma insertAll_perm (es1 es2 : list (string * Position))
    (m : gmap string Position) :
  NoDup es1.*1 → es1 ≡ₚ es2 →
  foldl (λ m e, <[e.1 := e.2]> m) m es1 = foldl (λ m e, <[e.1 := e.2]> m) m es2.
Proof.
  intros Hnd Hp. revert m Hnd.
  induction Hp as [|x l l' _ IH|x y l|l l' l'' Hp1 IH1 Hp2 IH2]; intros m Hnd.
  - done.
  - cbn. apply IH. by apply NoDup_cons in Hnd as [_ ?].
  - cbn. f_equal. apply insert_insert_ne.
    cbn in Hnd. apply NoDup_cons in Hnd as [Hnin _].
    intros Heq. apply Hnin. rewrite Heq. by left.
  - rewrite IH1 by done. apply IH2. by rewrite <- Hp1.
Qed.

Lemma collectNamespaces_recordAll keep order :
  collectNamespaces keep order = recordAll ([], ∅) (omap (nsEntry keep) order).
Proof.
  unfold collectNamespaces, recordAll.
  generalize (([], ∅) : list string * gmap string Position).
  induction order as [|kv order IH]; intros acc; [done|].
  cbn [foldl omap list_omap]. rewrite IH. unfold nsEntry at 2.
  destruct (keep kv.1 kv.2); [|done].
  destruct (sym_info (Name kv.2)) as [pos|]; [|done].
  by destruct (isReportedFile pos).
Qed.

Lemma collectVars_recordAll e keep nameOf order morder :
  collectVars e keep nameOf order morder
  = recordAll ([], ∅) (varEntries e keep nameOf order morder).
Proof.
  unfold collectVars, varEntries.
  generalize (([], ∅) : list string * gmap string Position).
  induction order as [|kv order IH]; intros acc; [done|].
  cbn [foldl]. rewrite IH, bind_cons. unfold recordAll. rewrite foldl_app.
  f_equal. destruct (bool_decide (kv.1 = CoreNamespace e)); [done|].
  generalize (morder kv.1). intros ms. revert acc.
  induction ms as [|m ms IHm]; intros acc; [done|].
  cbn [foldl omap list_omap]. rewrite IHm. unfold varEntry at 2.
  destruct (Vars e !! m.2) as [vr|]; [|done].
  destruct (bool_decide (vr_ns vr = Some kv.1) && keep kv.2 vr); [|done].
  by destruct (vr_info vr).
Qed.

Lemma varEntries_perm e keep nameOf o1 o2 m1 m2 :
  o1 ≡ₚ o2 → (∀ k, m1 k ≡ₚ m2 k) →
  varEntries e keep nameOf o1 m1 ≡ₚ varEntries e keep nameOf o2 m2.
Proof.
  intros Ho Hm. unfold varEntries. rewrite <- Ho. clear Ho o2.
  induction o1 as [|kv o1 IH]; [done|].
  rewrite !bind_cons. apply Permutation_app; [|exact IH].
  destruct (bool_decide (kv.1 = CoreNamespace e)); [done|].
  by rewrite (Hm kv.1).
Qed.

(** A pass that collects the entries [es], sorts the names and prints one
    line per name. *)
Lemma warning_pass_run prefix (es : list (string * Position)) s :
  (let '(names, positions) := recordAll ([], ∅) es in
   printNames positions prefix (sort_Strings names)) s
  = (Ok tt,
     addDiagnostics
       (warningLines prefix (foldl (λ m e, <[e.1 := e.2]> m) ∅ es)
          (sort_Strings es.*1)) s).
Proof.
  destruct (recordAll ([], ∅) es) as [names positions] eqn:Hrec.
  rewrite printNames_run.
  pose proof (recordAll_names ([], ∅) es) as Hn.
  pose proof (recordAll_positions ([], ∅) es) as Hp.
  rewrite Hrec in Hn, Hp. cbn in Hn, Hp. by rewrite Hn, Hp.
Qed.

Lemma warning_pass_msgs {A} (m : M A) prefix es r s :
  m s = (r, addDiagnostics
              (warningLines prefix (foldl (λ m e, <[e.1 := e.2]> m) ∅ es)
                 (sort_Strings es.*1)) s) →
  map d_msg (emitted m s)
  = map (λ n, "Parse warning: " +:+ prefix +:+ n) (sort_Strings es.*1).
Proof.
  intros H. rewrite (emitted_addDiagnostics _ _ _ _ H).
  apply warningLines_msg.
Qed.

Lemma WarnOnUnusedNamespaces_over_run order s :
  WarnOnUnusedNamespaces_over order s
  = (Ok tt,
     let es := omap (nsEntry
                 (λ k n, negb (bool_decide (k = CurrentNamespace (GLOBAL_ENV s)))
                         && negb (ns_isUsed n)
                         && negb (isIgnoredUnusedNamespace n))) order in
     addDiagnostics
       (warningLines "unused namespace "
          (foldl (λ m e, <[e.1 := e.2]> m) ∅ es) (sort_Strings es.*1)) s).
Proof.
  unfold WarnOnUnusedNamespaces_over. rewrite bind_run.
  unfold getEnv, gets. cbn [fst snd].
  rewrite collectNamespaces_recordAll. apply warning_pass_run.
Qed.

Lemma WarnOnGloballyUnusedVars_over_run order morder s :
  WarnOnGloballyUnusedVars_over order morder s
  = (Ok tt,
     let e := GLOBAL_ENV s in
     let es := varEntries e
                 (λ n vr, negb (isGloballyUsed vr) && negb (isPrivate vr)
                          && negb (isRecordConstructor (vr_name vr))
                          && negb (isEntryPointVar n vr))
                 Var_Name order morder in
     addDiagnostics
       (warningLines "globally unused var "
          (foldl (λ m e, <[e.1 := e.2]> m) ∅ es) (sort_Strings es.*1)) s).
Proof.
  unfold WarnOnGloballyUnusedVars_over. rewrite bind_run.
  unfold getEnv, gets. cbn [fst snd].
  rewrite collectVars_recordAll. apply warning_pass_run.
Qed.

Lemma warning_pass_perm prefix (es1 es2 : list (string * Position)) s :
  es1 ≡ₚ es2 →
  map d_msg (warningLines prefix (foldl (λ m e, <[e.1 := e.2]> m) ∅ es1)
               (sort_Strings es1.*1))
  = map d_msg (warningLines prefix (foldl (λ m e, <[e.1 := e.2]> m) ∅ es2)
                 (sort_Strings es2.*1)) ∧
  (NoDup (map d_msg
            (warningLines prefix (foldl (λ m e, <[e.1 := e.2]> m) ∅ es1)
               (sort_Strings es1.*1))) →
   addDiagnostics
     (warningLines prefix (foldl (λ m e, <[e.1 := e.2]> m) ∅ es1)
        (sort_Strings es1.*1)) s
   = addDiagnostics
       (warningLines prefix (foldl (λ m e, <[e.1 := e.2]> m) ∅ es2)
          (sort_Strings es2.*1)) s).
Proof.
  intros Hp.
  assert (Hs : sort_Strings es1.*1 = sort_Strings es2.*1).
  { apply sort_Strings_perm. by rewrite Hp. }
  split.
  - by rewrite !warningLines_msg, Hs.
  - rewrite warningLines_msg. intros Hnd. apply NoDup_fmap_1 in Hnd.
    rewrite <- Hs. rewrite (insertAll_perm es1 es2 ∅); [done| |done].
    unfold sort_Strings in Hnd. by rewrite merge_sort_Permutation in Hnd.
Qed.

(** C8.  The two end-of-analysis passes print their warnings sorted by
    name: the texts printed are those of a list of names in increasing
    byte-wise order.  The order in which the namespaces, and the mappings
    of each namespace, are visited does not change the sequence of texts;
    and when one order of visit prints no text twice (the names noted down
    are distinct, as the keys of a map are), every other order prints the
    same lines, positions included, and leaves the same state. *)
Theorem unused_warnings_sorted_by_name :
  (∀ order s,
     ∃ names, StronglySorted String.le names ∧
       map d_msg (emitted (WarnOnUnusedNamespaces_over order) s)
       = map (λ n, "Parse warning: unused namespace " +:+ n) names) ∧
  (∀ order morder s,
     ∃ names, StronglySorted String.le names ∧
       map d_msg (emitted (WarnOnGloballyUnusedVars_over order morder) s)
       = map (λ n, "Parse warning: globally unused var " +:+ n) names) ∧
  (∀ o1 o2 s, o1 ≡ₚ o2 →
     map d_msg (emitted (WarnOnUnusedNamespaces_over o1) s)
     = map d_msg (emitted (WarnOnUnusedNamespaces_over o2) s) ∧
     (NoDup (map d_msg (emitted (WarnOnUnusedNamespaces_over o1) s)) →
      WarnOnUnusedNamespaces_over o1 s = WarnOnUnusedNamespaces_over o2 s)) ∧
  (∀ o1 o2 m1 m2 s, o1 ≡ₚ o2 → (∀ k, m1 k ≡ₚ m2 k) →
     map d_msg (emitted (WarnOnGloballyUnusedVars_over o1 m1) s)
     = map d_msg (emitted (WarnOnGloballyUnusedVars_over o2 m2) s) ∧
     (NoDup (map d_msg (emitted (WarnOnGloballyUnusedVars_over o1 m1) s)) →
      WarnOnGloballyUnusedVars_over o1 m1 s
      = WarnOnGloballyUnusedVars_over o2 m2 s)).
Proof.
  split; [|split; [|split]].
  - intros order s. eexists. split; [apply sort_Strings_sorted|].
    eapply warning_pass_msgs. apply WarnOnUnusedNamespaces_over_run.
  - intros order morder s. eexists. split; [apply sort_Strings_sorted|].
    eapply warning_pass_msgs. apply WarnOnGloballyUnusedVars_over_run.
  - intros o1 o2 s Hp.
    rewrite !(emitted_addDiagnostics _ _ _ _ (WarnOnUnusedNamespaces_over_run _ s)).
    rewrite !WarnOnUnusedNamespaces_over_run. cbn zeta.
    match goal with
    | |- context [warningLines ?pre (foldl _ ∅ ?es1) _] =>
        match goal with
        | |- context [warningLines pre (foldl _ ∅ (omap ?f o2)) _] =>
            destruct (warning_pass_perm pre es1 (omap f o2) s) as [H1 H2];
              [by rewrite Hp|]
        end
    end.
    split; [exact H1|]. intros Hnd. by rewrite (H2 Hnd).
  - intros o1 o2 m1 m2 s Hp Hm.
    rewrite !(emitted_addDiagnostics _ _ _ _
                (WarnOnGloballyUnusedVars_over_run _ _ s)).
    rewrite !WarnOnGloballyUnusedVars_over_run. cbn zeta.
    match goal with
    | |- context [warningLines ?pre
                    (foldl _ ∅ (varEntries ?e ?keep ?nm o1 m1)) _] =>
        destruct (warning_pass_perm pre (varEntries e keep nm o1 m1)
                    (varEntries e keep nm o2 m2) s) as [H1 H2];
          [by apply varEntries_perm|]
    end.
    split; [exact H1|]. intros Hnd. by rewrite (H2 Hnd).
Qed.

(** ** do *)

(** A [do] form with one body expression, in linter mode: the "redundant do
    form" warning is written whatever the created-by-macro flag of the form
    turns out to be; the flag only ends up in the expression. *)
Lemma do_single_expression_warns (Parse : Object → M Expr)
    (info : option ObjectInfo) (hinfo : ObjectInfo) (meta hm : option MapData)
    (x : Object) (e : Expr) (s s1 : PState) :
  let head := OSymbol (Some hinfo) hm None (do STR) in
  let obj := OList info meta [head; x] in
  do STR ∉ [quote STR; _if STR; fn_ STR; let_ STR; letfn_ STR; loop_ STR;
            str_recur STR; setMacro_ STR; def STR; defLinter STR; _var STR] →
  LINTER_MODE = true →
  resolveMacro head s = (Ok None, s) →
  parseBody Parse [x] (set_ctx (set_isUnknownCallableScope false (ctx s)) s)
  = (Ok [e], s1) →
  parseList Parse obj s
  = (Ok (DoExpr (GetPosition obj) [e]
           (bool_decide (filename (info_Position hinfo)
                         = Some (coreFilename STR)))),
     let s2 := addDiagnostics
                 [mkDiagnostic (GetPosition obj)
                    "Parse warning: redundant do form"] s1 in
     set_ctx (set_isUnknownCallableScope (isUnknownCallableScope (ctx s))
                (ctx s2)) s2).
Proof.
  intros head obj Hdistinct HL Hm Hbody.
  assert (Hsp : parseSpecialForm Parse obj [head; x] (GetPosition obj) (do STR)
    = Some (b ← parseBody Parse (tail [head; x]);
            byMacro ← isCreatedByMacro [head; x];
            when LINTER_MODE (
              if bool_decide (length b = 0) then
                printParseWarning (GetPosition obj) "do form with empty body"
              else when (bool_decide (length b = 1))
                     (printParseWarning (GetPosition obj) "redundant do form"));;
            mret (DoExpr (GetPosition obj) b byMacro))).
  { unfold parseSpecialForm.
    repeat (rewrite bool_decide_eq_false_2;
            [|intros Heq; apply Hdistinct; rewrite Heq; set_solver]).
    by rewrite bool_decide_eq_true_2. }
  unfold obj, head.
  rewrite (parseList_special Parse info meta (Some hinfo) hm _ [x] s _ Hm Hsp).
  unfold with_defer. rewrite bind_run. unfold modCtx at 1, modify at 1.
  cbn [fst snd tail]. rewrite (bind_Ok _ _ _ _ _ Hbody).
  rewrite HL. reflexivity.
Qed.

End Properties.

(** * The properties at work on sample forms *)

Lemma parseRecur_checks_witness :
  parseRecur (@ParseN Demo.strict 3) Demo.recur1 Demo.sTry
  = (Raise (ParseError Demo.recur1 "Cannot recur across try"), Demo.sTry) ∧
  parseRecur (@ParseN Demo.strict 3) Demo.recur1 Demo.s0
  = (Raise (ParseError Demo.recur1 "No recursion point for recur"), Demo.s0) ∧
  parseRecur (@ParseN Demo.strict 3) Demo.recur1 (Demo.sLoop [])
  = (Raise (ParseError Demo.recur1
       "Mismatched argument count to recur, expected: 0 args, got: 1"),
     Demo.sLoop []) ∧
  parseRecur (@ParseN Demo.strict 3) Demo.recur0 (Demo.sLoop [])
  = (Ok (RecurExpr (GetPosition Demo.recur0) []),
     set_ctx (set_recur true (ctx (Demo.sLoop []))) (Demo.sLoop [])).
Proof.
  pose proof (parseRecur_checks (@ParseN Demo.strict 3)) as T.
  split; [|split; [|split]].
  - apply (proj1 (T Demo.recur1 Demo.sTry)). reflexivity.
  - apply (proj1 (proj2 (T Demo.recur1 Demo.s0))); reflexivity.
  - etrans.
    + apply (proj1 (proj2 (proj2 (T Demo.recur1 (Demo.sLoop [])))
               _ _ _ [] [NewLiteralExpr (Demo.rint 2 8 1)] (Demo.sLoop [])
               eq_refl eq_refl eq_refl ltac:(vm_compute; reflexivity))).
      vm_compute. lia.
    + vm_compute. reflexivity.
  - apply (proj2 (proj2 (proj2 (T Demo.recur0 (Demo.sLoop [])))
             _ _ _ [] [] (Demo.sLoop [])
             eq_refl eq_refl eq_refl ltac:(vm_compute; reflexivity))).
    reflexivity.
Defined.

Lemma parseBody_recur_tail_position_witness :
  @parseBodyLoop Demo.strict (@ParseN Demo.strict 3)
    [Demo.recur0; Demo.rint 2 9 1] [] (Demo.sLoop [])
  = (Raise (ParseError Demo.recur0 "Can only recur from tail position"),
     set_ctx (set_recur true (ctx (Demo.sLoop []))) (Demo.sLoop [])) ∧
  ∃ e1 e2 s', @parseBodyLoop Demo.linter (@ParseN Demo.linter 3)
                [Demo.recur0; Demo.rint 2 9 1] [] (Demo.sLoop [])
              = (Ok [e1; e2], s').
Proof.
  assert (Hne : [Demo.rint 2 9 1] ≠ []) by discriminate.
  split.
  - apply (proj1 (proj1 (@parseBody_recur_tail_position Demo.strict
             (@ParseN Demo.strict 3) Demo.recur0 [Demo.rint 2 9 1]
             (RecurExpr (GetPosition Demo.recur0) []) (Demo.sLoop [])
             (set_ctx (set_recur true (ctx (Demo.sLoop []))) (Demo.sLoop []))
             ltac:(vm_compute; reflexivity) eq_refl Hne) [])).
    reflexivity.
  - eexists _, _, _.
    rewrite (proj2 (proj1 (@parseBody_recur_tail_position Demo.linter
               (@ParseN Demo.linter 3) Demo.recur0 [Demo.rint 2 9 1]
               (RecurExpr (GetPosition Demo.recur0) []) (Demo.sLoop [])
               (set_ctx (set_recur true (ctx (Demo.sLoop []))) (Demo.sLoop []))
               ltac:(vm_compute; reflexivity) eq_refl Hne) []) eq_refl).
    vm_compute. reflexivity.
Defined.


Lemma parseTry_clause_order_witness :
  (∃ t s' regs cs fin,
     @parseTry Demo.strict (@ParseN Demo.strict 4) Demo.tryGood Demo.s0
     = (Ok t, s') ∧
     [Demo.rint 5 6 1; Demo.catch1; Demo.finally1] = regs ++ cs ++ fin ∧
     @tryOrdered Demo.strict regs cs fin ∧
     length (try_body t) = length regs ∧ length (catches t) = length cs ∧
     (fin = [] ↔ finallyExpr t = None)) ∧
  (∃ msg s',
     @parseTry Demo.strict (@ParseN Demo.strict 4) Demo.tryBad Demo.s0
     = (Raise (ParseError (Demo.rint 6 20 1) msg), s')).
Proof.
  pose proof (@parseTry_clause_order Demo.strict (@ParseN Demo.strict 4))
    as (Hshape & _ & Hbad).
  split.
  - destruct (@parseTry Demo.strict (@ParseN Demo.strict 4) Demo.tryGood Demo.s0)
      as [[t|p] s'] eqn:Hrun; [|vm_compute in Hrun; discriminate Hrun].
    exists t, s'.
    destruct (Hshape _ _ _ _ _ _ _ Hrun) as (regs & cs & fin & H).
    exists regs, cs, fin. done.
  - destruct (Hbad (Demo.at_ "user.clj" 6 1) None (Demo.rsym 6 2 "try")
                [Demo.finally1] (Demo.rint 6 20 1) [] Demo.s0
                (mkTryExpr (GetPosition Demo.tryBad) [] []
                   (Some [NewLiteralExpr (Demo.rint 5 35 3)]))
                Demo.finally1
                (set_ctx (set_noRecurAllowed true (ctx Demo.s0)) Demo.s0)
                ltac:(vm_compute; reflexivity)) as [msg Hmsg].
    + left. exists Demo.finally1. split; [apply list_elem_of_here|reflexivity].
    + eauto.
Defined.

Lemma if_without_else_witness :
  (∃ s1,
     Stderr s1 = [mkDiagnostic (GetPosition Demo.if2)
                    "Parse warning: missing else branch"] ∧
     @ParseN Demo.linter 2 Demo.if2 Demo.s0
     = with_defer (modCtx (set_isUnknownCallableScope false))
         (c' ← @ParseN Demo.linter 1 (Demo.rint 3 5 1);
          p' ← @ParseN Demo.linter 1 (Demo.rint 3 7 2);
          mret (IfExpr (GetPosition Demo.if2) c' p'
                  (LiteralExpr noPosition NIL false))) s1) ∧
  (∃ c' p' s',
     @ParseN Demo.linter 2 Demo.if2 Demo.s0
     = (Ok (IfExpr (GetPosition Demo.if2) c' p'
              (LiteralExpr noPosition NIL false)), s')) ∧
  @ParseN Demo.linter 1 (Demo.rlist 3 1 [Demo.rsym 3 2 "if"; Demo.rint 3 5 1])
    Demo.s0
  = (Raise (ParseError (Demo.rlist 3 1 [Demo.rsym 3 2 "if"; Demo.rint 3 5 1])
              "Too few arguments to if"), Demo.s0).
Proof.
  assert (Hne : _if (@STR Demo.linter) ≠ quote (@STR Demo.linter))
    by discriminate.
  pose proof (@if_without_else Demo.linter) as T.
  split; [|split].
  - destruct (proj1 (T 0 (Demo.at_ "user.clj" 3 1) (Demo.at_ "user.clj" 3 2)
                      None None Demo.s0 Hne eq_refl)
                (Demo.rint 3 5 1) (Demo.rint 3 7 2))
      as [(s1 & _ & _ & Herr & Hrun) _].
    exists s1. split; [exact Herr|exact Hrun].
  - destruct (@ParseN Demo.linter 2 Demo.if2 Demo.s0) as [[e|p] s'] eqn:Hrun;
      [|vm_compute in Hrun; discriminate Hrun].
    destruct (proj1 (T 0 (Demo.at_ "user.clj" 3 1) (Demo.at_ "user.clj" 3 2)
                      None None Demo.s0 Hne eq_refl)
                (Demo.rint 3 5 1) (Demo.rint 3 7 2))
      as [_ Hneg].
    destruct (Hneg e s' Hrun) as (c' & p' & ->). eauto.
  - apply (proj1 (proj2 (T 0 (Demo.at_ "user.clj" 3 1)
                           (Demo.at_ "user.clj" 3 2) None None Demo.s0 Hne
                           eq_refl) [Demo.rint 3 5 1])).
    vm_compute. lia.
Defined.

Lemma quote_is_literal_of_second_witness :
  @parseList Demo.strict (@ParseN Demo.strict 0) Demo.quote3 Demo.s0
  = (Ok (NewLiteralExpr (Demo.rint 4 8 1)), Demo.s0) ∧
  @ParseN Demo.strict 1 (Demo.rlist 4 1 [Demo.rsym 4 2 "quote"]) Demo.s0
  = (Ok (NewLiteralExpr NIL), Demo.s0).
Proof.
  split.
  - apply (proj1 (@quote_is_literal_of_second Demo.strict
                    (@ParseN Demo.strict 0) (Demo.at_ "user.clj" 4 1)
                    (Demo.at_ "user.clj" 4 2) None None
                    [Demo.rint 4 8 1; Demo.rint 4 10 2] 0 Demo.s0 eq_refl)).
  - apply (proj2 (@quote_is_literal_of_second Demo.strict
                    (@ParseN Demo.strict 0) (Demo.at_ "user.clj" 4 1)
                    (Demo.at_ "user.clj" 4 2) None None [] 0 Demo.s0 eq_refl)).
Defined.

(** C6, as the claim states it, fails: the three-element form
    [(quote 1 2)] parses, in strict mode, to the literal [1]; so does, to
    the literal [NIL], the one-element form [(quote)]. *)
Lemma quote_arity_is_not_checked :
  (∃ items, seqItems Demo.quote3 = Some items ∧ length items = 3) ∧
  @ParseN Demo.strict 1 Demo.quote3 Demo.s0
  = (Ok (LiteralExpr (GetPosition (Demo.rint 4 8 1)) (Demo.rint 4 8 1) false),
     Demo.s0) ∧
  @ParseN Demo.strict 1 (Demo.rlist 4 1 [Demo.rsym 4 2 "quote"]) Demo.s0
  = (Ok (LiteralExpr noPosition NIL false), Demo.s0).
Proof.
  split; [|split].
  - eexists. split; reflexivity.
  - vm_compute. reflexivity.
  - vm_compute. reflexivity.
Qed.

(** C7, where the code departs from the claim: in linter mode the form
    [(do 1)] whose head was read from the core file, so that its
    created-by-macro flag is true, still gets the "redundant do form"
    warning; the same form written by the user gets the same warning. *)
Lemma do_created_by_macro_still_warns :
  @ParseN Demo.linter 2 Demo.doByMacro Demo.s0
  = (Ok (DoExpr (GetPosition Demo.doByMacro)
           [NewLiteralExpr (Demo.rint 7 5 1)] true),
     addDiagnostics
       [mkDiagnostic (GetPosition Demo.doByMacro)
          "Parse warning: redundant do form"] Demo.s0) ∧
  @ParseN Demo.linter 2
    (Demo.rlist 7 1 [Demo.rsym 7 2 "do"; Demo.rint 7 5 1]) Demo.s0
  = (Ok (DoExpr (GetPosition Demo.doByMacro)
           [NewLiteralExpr (Demo.rint 7 5 1)] false),
     addDiagnostics
       [mkDiagnostic (GetPosition Demo.doByMacro)
          "Parse warning: redundant do form"] Demo.s0).
Proof. split; vm_compute; reflexivity. Qed.

Lemma parseParams_trailing_amp_witness :
  @parseParams Demo.strict
    (Demo.rvec 1 1 (map symObj [Demo.sym "a"; Demo.sym "b"] ++
                    [symObj (Demo.sym "&")]))
    Demo.s0
  = (Ok ([Demo.sym "a"; Demo.sym "b"], false), Demo.s0) ∧
  @parseParams Demo.linter
    (Demo.rvec 1 1 (map symObj [Demo.sym "a"; Demo.sym "b"] ++
                    [symObj (Demo.sym "&")]))
    Demo.s0
  = (Ok ([Demo.sym "a"; Demo.sym "b"], false), Demo.s0) ∧
  @parseParams Demo.strict
    (Demo.rvec 1 1 (map symObj [Demo.sym "a"] ++
                    symObj (Demo.sym "&")
                    :: [Demo.rsym 1 6 "b"; Demo.rsym 1 8 "c"]))
    Demo.s0
  = (Raise (ParseError (Demo.rsym 1 8 "c") "Unexpected parameter: c"),
     Demo.s0) ∧
  @parseParams Demo.strict
    (Demo.rvec 1 1 (map symObj [Demo.sym "a"] ++
                    Demo.rint 1 4 1 :: [Demo.rsym 1 6 "&"]))
    Demo.s0
  = (Raise (ParseError (Demo.rint 1 4 1) "Unsupported binding form: 1"),
     Demo.s0).
Proof.
  assert (Hpre : ∀ W : World, amp (@SYMBOLS W) = Demo.sym "&" →
            Forall (λ x, Symbol_Equals (amp (@SYMBOLS W)) x = false)
              [Demo.sym "a"; Demo.sym "b"]).
  { intros W ->. repeat constructor. }
  split; [|split; [|split]].
  - apply (proj1 (@parseParams_trailing_amp Demo.strict
                    [Demo.sym "a"; Demo.sym "b"] (Demo.sym "&") [] NIL
                    (Demo.at_ "user.clj" 1 1) None Demo.s0
                    (Hpre Demo.strict eq_refl) eq_refl)).
  - apply (proj1 (@parseParams_trailing_amp Demo.linter
                    [Demo.sym "a"; Demo.sym "b"] (Demo.sym "&") [] NIL
                    (Demo.at_ "user.clj" 1 1) None Demo.s0
                    (Hpre Demo.linter eq_refl) eq_refl)).
  - apply (proj1 (proj2 (@parseParams_trailing_amp Demo.strict
                    [Demo.sym "a"] (Demo.sym "&")
                    [Demo.rsym 1 6 "b"; Demo.rsym 1 8 "c"] NIL
                    (Demo.at_ "user.clj" 1 1) None Demo.s0
                    ltac:(repeat constructor) eq_refl))).
  - apply (proj2 (proj2 (proj2 (@parseParams_trailing_amp Demo.strict
                    [Demo.sym "a"] (Demo.sym "&")
                    [Demo.rsym 1 6 "&"] (Demo.rint 1 4 1)
                    (Demo.at_ "user.clj" 1 1) None Demo.s0
                    ltac:(repeat constructor) eq_refl))) eq_refl eq_refl).
Defined.

(** C9, the counterexamples.  Vectors whose last element is [&] and which
    are not returned as a non-variadic list of what precedes it: [[a & b &]]
    raises at the second element after the first [&], in both modes;
    [[& &]] is a variadic list that holds [&]; [[1 &]] raises in strict
    mode.  And an error with exactly one element after [&]: [[a & 1]] in
    strict mode. *)
Lemma parseParams_trailing_amp_not_general :
  let a := Demo.rsym 1 2 "a" in
  let b := Demo.rsym 1 6 "b" in
  let amp1 := Demo.rsym 1 4 "&" in
  let amp2 := Demo.rsym 1 8 "&" in
  let one := Demo.rint 1 6 1 in
  @parseParams Demo.strict (Demo.rvec 1 1 [a; amp1; b; amp2]) Demo.s0
  = (Raise (ParseError amp2 "Unexpected parameter: &"), Demo.s0) ∧
  @parseParams Demo.linter (Demo.rvec 1 1 [a; amp1; b; amp2]) Demo.s0
  = (Raise (ParseError amp2 "Unexpected parameter: &"), Demo.s0) ∧
  @parseParams Demo.strict (Demo.rvec 1 1 [amp1; amp2]) Demo.s0
  = (Ok ([mkSymbol (Demo.at_ "user.clj" 1 8) None None "&"], true),
     Demo.s0) ∧
  @parseParams Demo.strict (Demo.rvec 1 1 [one; amp2]) Demo.s0
  = (Raise (ParseError one "Unsupported binding form: 1"), Demo.s0) ∧
  @parseParams Demo.strict (Demo.rvec 1 1 [a; amp1; one]) Demo.s0
  = (Raise (ParseError one "Unsupported binding form: 1"), Demo.s0).
Proof. repeat split; vm_compute; reflexivity. Qed.

Lemma qualified_symbol_never_local_witness :
  GetBinding (localBindings (ctx Demo.sX)) (Demo.sym "x")
  = Some (mkBinding (Demo.sym "x") 0 0 false None) ∧
  GetLocalBinding (ctx Demo.sX)
    (mkSymbol (Demo.at_ "user.clj" 8 1) None (Some "user") "x") = None ∧
  ∃ s', @parseSymbol Demo.strict Demo.qualifiedX Demo.sX
        = (Ok (VarRefExpr (GetPosition Demo.qualifiedX) 0), s').
Proof.
  pose proof (@qualified_symbol_never_local Demo.strict Demo.qualifiedX
                (mkSymbol (Demo.at_ "user.clj" 8 1) None (Some "user") "x")
                Demo.sX eq_refl ltac:(discriminate)) as (Hglb & Hres & _).
  split; [reflexivity|]. split; [apply Hglb|].
  eexists. rewrite (Hres 0 ltac:(vm_compute; reflexivity)).
  vm_compute. reflexivity.
Defined.

Lemma unused_warnings_sorted_by_name_witness :
  map d_msg (emitted (@WarnOnUnusedNamespaces_over Demo.linter Demo.orderBA)
               Demo.s0)
  = ["Parse warning: unused namespace app.a";
     "Parse warning: unused namespace app.b"] ∧
  @WarnOnUnusedNamespaces_over Demo.linter Demo.orderAB Demo.s0
  = @WarnOnUnusedNamespaces_over Demo.linter Demo.orderBA Demo.s0.
Proof.
  pose proof (@unused_warnings_sorted_by_name Demo.linter) as (_ & _ & Hns & _).
  destruct (Hns Demo.orderAB Demo.orderBA Demo.s0 (perm_swap _ _ _))
    as [Hmsg Hall].
  split.
  - rewrite <- Hmsg. vm_compute. reflexivity.
  - apply Hall. apply (bool_decide_unpack _). vm_compute. exact I.
Defined.

(** * Further properties *)

(** ** Lexical frames *)

Section Frames.
Context `{W : World}.

(** [addBindings] on a chain with head [f] only rewrites [f]: it never prints
    (the names are entered with [skipUnused]), a name that is not among
    [names] keeps what it had, and a name that is gets the binding of its
    last occurrence. *)
Lemma addBindings_run (names : list Symbol) (f : BindingsFrame)
    (parent : Bindings) (i : Z) (s : PState) :
  ∃ bs, addBindings (f :: parent) names i s
        = (Ok (mkFrame bs (frame f) :: parent), s) ∧
    (∀ nm, (∀ x, x ∈ names → name x ≠ nm) → bs !! nm = bindings f !! nm) ∧
    (∀ j x, names !! j = Some x →
       (∀ k y, j < k → names !! k = Some y → name y ≠ name x) →
       bs !! name x
       = Some (mkBinding x (i + Z.of_nat j) (frame f) false None)).
Proof.
  revert f i. induction names as [|x names IH]; intros f i.
  - exists (bindings f). split; [by destruct f|]. split; [done|].
    intros j x Hj. by rewrite lookup_nil in Hj.
  - cbn [addBindings]. unfold AddBinding.
    rewrite andb_false_r. cbn [when negb].
    rewrite bind_run. cbn [mret M_ret]. rewrite bind_run. cbn [mret M_ret].
    destruct (IH (mkFrame (<[name x := mkBinding x i (frame f) false None]>
                             (bindings f)) (frame f)) (i + 1)%Z)
      as (bs & Hrun & Hout & Hin).
    cbn [bindings frame] in Hrun, Hout, Hin.
    exists bs. split; [exact Hrun|]. split.
    + intros nm Hnm. rewrite Hout.
      * apply lookup_insert_ne. apply Hnm. left.
      * intros y Hy. apply Hnm. by right.
    + intros [|j] y Hj Hlast; cbn in Hj.
      * injection Hj as <-. rewrite Hout.
        -- rewrite lookup_insert_eq. do 2 f_equal. lia.
        -- intros y Hy. apply list_elem_of_lookup in Hy as [k Hk].
           apply (Hlast (S k) y); [lia|exact Hk].
      * rewrite (Hin j y Hj).
        -- do 2 f_equal. lia.
        -- intros k z Hk Hz. apply (Hlast (S k) z); [lia|exact Hz].
Qed.

Lemma PushLocalFrame_run (names : list Symbol) (s : PState) :
  let fr := (match localBindings (ctx s) with
             | [] => 0
             | f :: _ => frame f + 1
             end)%Z in
  ∃ bs, PushLocalFrame names s
        = (Ok tt, set_ctx (set_localBindings
                             (mkFrame bs fr :: localBindings (ctx s)) (ctx s))
                    s) ∧
    (∀ nm, (∀ x, x ∈ names → name x ≠ nm) → bs !! nm = None) ∧
    (∀ j x, names !! j = Some x →
       (∀ k y, j < k → names !! k = Some y → name y ≠ name x) →
       bs !! name x = Some (mkBinding x (Z.of_nat j) fr false None)).
Proof.
  intros fr. unfold PushLocalFrame, PushEmptyLocalFrame.
  destruct (addBindings_run names (mkFrame ∅ fr) (localBindings (ctx s)) 0
              (set_ctx (set_localBindings (PushFrame (localBindings (ctx s)))
                          (ctx s)) s))
    as (bs & Hrun & Hout & Hin).
  exists bs. split; [|split].
  - rewrite bind_run. unfold modCtx at 1, modify at 1.
    rewrite bind_run. unfold getCtx at 1, gets at 1.
    cbn [ctx set_ctx localBindings set_localBindings].
    unfold PushFrame at 1. fold fr. rewrite bind_run, Hrun.
    cbn [frame]. unfold modCtx, modify. by destruct s as [[] ?].
  - intros nm Hnm. rewrite (Hout nm Hnm). apply lookup_empty.
  - intros j x Hj Hlast. rewrite (Hin j x Hj Hlast). cbn [frame].
    do 2 f_equal.
Qed.

(** Entering a scope and leaving it again is the identity on the state, in
    both modes: the names are entered without any warning, and
    [PopLocalFrame] drops exactly the frame [PushLocalFrame] has built. *)
Theorem PushLocalFrame_PopLocalFrame (names : list Symbol) (s : PState) :
  (PushLocalFrame names;; PopLocalFrame) s = (Ok tt, s).
Proof.
  destruct (PushLocalFrame_run names s) as (bs & Hrun & _).
  rewrite (bind_Ok _ _ _ _ _ Hrun). unfold PopLocalFrame.
  rewrite bind_run. unfold getCtx at 1, gets at 1.
  by destruct s as [[] ?].
Qed.

(** What a name resolves to once [PushLocalFrame names] has run.  An
    unqualified [sym] that occurs in [names] resolves to the new frame: the
    binding carries the symbol of the last occurrence, its position in
    [names] as index and the new frame number (one more than the enclosing
    frame, 0 at top level), and is not marked used.  A name that does not
    occur resolves as it did before. *)
Theorem PushLocalFrame_lookup (names : list Symbol) (sym : Symbol)
    (s : PState) :
  ns sym = None →
  ∃ s', PushLocalFrame names s = (Ok tt, s') ∧
    (∀ j x, names !! j = Some x → name x = name sym →
       (∀ k y, j < k → names !! k = Some y → name y ≠ name sym) →
       GetLocalBinding (ctx s') sym
       = Some (mkBinding x (Z.of_nat j)
                 (match localBindings (ctx s) with
                  | [] => 0
                  | f :: _ => frame f + 1
                  end)%Z false None)) ∧
    ((∀ x, x ∈ names → name x ≠ name sym) →
     GetLocalBinding (ctx s') sym = GetLocalBinding (ctx s) sym).
Proof.
  intros Hns. destruct (PushLocalFrame_run names s) as (bs & Hrun & Hout & Hin).
  eexists. split; [exact Hrun|]. unfold GetLocalBinding. rewrite Hns.
  cbn [ctx set_ctx localBindings set_localBindings GetBinding bindings].
  split.
  - intros j x Hj Hname Hlast. rewrite <- Hname.
    rewrite (Hin j x Hj); [reflexivity|].
    intros k y Hk Hy. rewrite Hname. by apply (Hlast k y).
  - intros Hnone. by rewrite (Hout (name sym) Hnone).
Qed.

End Frames.

Lemma PushLocalFrame_lookup_witness :
  ∃ s', @PushLocalFrame Demo.linter
          [Demo.sym "a"; Demo.sym "b"; Demo.sym "a"] Demo.sX = (Ok tt, s') ∧
    GetLocalBinding (ctx s') (Demo.sym "a")
    = Some (mkBinding (Demo.sym "a") 2 1 false None) ∧
    GetLocalBinding (ctx s') (Demo.sym "x")
    = Some (mkBinding (Demo.sym "x") 0 0 false None).
Proof.
  destruct (@PushLocalFrame_lookup Demo.linter
              [Demo.sym "a"; Demo.sym "b"; Demo.sym "a"] (Demo.sym "a")
              Demo.sX eq_refl) as (s1 & Hrun & Hin & _).
  destruct (@PushLocalFrame_lookup Demo.linter
              [Demo.sym "a"; Demo.sym "b"; Demo.sym "a"] (Demo.sym "x")
              Demo.sX eq_refl) as (s2 & Hrun2 & _ & Hout).
  rewrite Hrun in Hrun2. injection Hrun2 as <-.
  exists s1. split; [exact Hrun|]. split.
  - apply (Hin 2 (Demo.sym "a") eq_refl eq_refl).
    intros k y Hk Hy. destruct k as [|[|[|k]]]; [lia|lia|lia|discriminate].
  - rewrite Hout; [reflexivity|].
    intros x Hx.
    repeat (apply elem_of_cons in Hx as [->|Hx]; [discriminate|]).
    by apply not_elem_of_nil in Hx.
Defined.

(** ** The stack of loop bindings *)

Section LoopBindings.
Context `{W : World}.

(** [PushLoopBindings] makes its argument the innermost recursion point, and
    [PopLoopBindings] takes the state back to what it was. *)
Theorem loop_bindings_push_pop (bs : list Symbol) (s : PState) :
  ∃ s1, PushLoopBindings bs s = (Ok tt, s1) ∧
        GetLoopBindings (ctx s1) = Some bs ∧
        PopLoopBindings s1 = (Ok tt, s).
Proof.
  eexists. split; [reflexivity|]. split.
  - unfold GetLoopBindings. cbn. apply last_snoc.
  - unfold PopLoopBindings. rewrite bind_run. unfold getCtx, gets.
    cbn [ctx set_ctx loopBindings set_loopBindings].
    destruct (loopBindings (ctx s) ++ [bs]) eqn:Hl.
    { by apply app_eq_nil in Hl as [_ ?]. }
    rewrite <- Hl. unfold modCtx, modify.
    cbn [ctx set_ctx loopBindings set_loopBindings].
    rewrite removelast_last. by destruct s as [[] ?].
Qed.

End LoopBindings.

(** ** Marking a binding as used *)

Section Usage.
Context `{W : World}.

(** [Bindings_setUsed] marks the binding a lookup of the name finds, and
    that one only. *)
Lemma GetBinding_setUsed (b : Bindings) (nm : string) (sym : Symbol) :
  GetBinding (Bindings_setUsed b nm) sym
  = if bool_decide (name sym = nm) then Binding_setUsed <$> GetBinding b sym
    else GetBinding b sym.
Proof.
  induction b as [|env parent IH]; cbn [Bindings_setUsed GetBinding].
  - by case_bool_decide.
  - destruct (bindings env !! nm) as [x|] eqn:Hx.
    + cbn [GetBinding bindings]. case_bool_decide as Hnm.
      * subst nm. by rewrite lookup_insert_eq, Hx.
      * by rewrite lookup_insert_ne.
    + cbn [GetBinding]. rewrite IH. case_bool_decide as Hnm.
      * subst nm. by rewrite Hx.
      * reflexivity.
Qed.

(** A symbol that is bound locally parses to a [BindingExpr] of that
    binding, whatever the global environment holds under the name.  The
    binding is marked used, in the expression and for every later lookup
    of the name; every other name resolves as before, and the environment
    and the diagnostics are not touched. *)
Theorem local_binding_shadows_global (n : nat) (obj : Object) (sym : Symbol)
    (b : Binding) (s : PState) :
  asSymbol obj = Some sym →
  GetLocalBinding (ctx s) sym = Some b →
  ∃ s', ParseN (S n) obj s
        = (Ok (BindingExpr (GetPosition obj) (Binding_setUsed b)), s') ∧
        GetLocalBinding (ctx s') sym = Some (Binding_setUsed b) ∧
        (∀ other, name other ≠ name sym →
           GetLocalBinding (ctx s') other = GetLocalBinding (ctx s) other) ∧
        GLOBAL_ENV s' = GLOBAL_ENV s ∧ Stderr s' = Stderr s ∧
        PROBLEM_COUNT s' = PROBLEM_COUNT s.
Proof.
  intros Hsym Hb. destruct obj; try discriminate. cbn in Hsym.
  injection Hsym as <-.
  cbn [ParseN Parse_step]. unfold parseSymbol. cbn [asSymbol name].
  destruct (length (Split sname "."%char)) as [|k] eqn:Hk.
  { apply length_zero_iff_nil in Hk. by apply Split_not_nil in Hk. }
  cbn [parseSymbolN asSymbol]. rewrite bind_run.
  unfold getCtx at 1, gets at 1. cbn [id]. rewrite Hb.
  eexists. split; [reflexivity|].
  cbn [ctx set_ctx GLOBAL_ENV Stderr PROBLEM_COUNT].
  split; [|split; [|done]].
  - unfold GetLocalBinding in *. cbn [ns name] in *.
    destruct sns; [discriminate|].
    cbn [localBindings set_localBindings].
    rewrite GetBinding_setUsed. cbn [name].
    rewrite bool_decide_eq_true_2 by done. by rewrite Hb.
  - intros other Hother. unfold GetLocalBinding.
    destruct (ns other); [reflexivity|].
    cbn [localBindings set_localBindings name].
    rewrite GetBinding_setUsed. by rewrite bool_decide_eq_false_2.
Qed.

(** A list whose head is a locally bound symbol is never macro-expanded,
    even when a macro of that name exists. *)
Theorem local_binding_shadows_macro (info : option ObjectInfo)
    (meta : option MapData) (seq : list Object) (sym : Symbol) (b : Binding)
    (s : PState) :
  asSymbol (First seq) = Some sym →
  GetLocalBinding (ctx s) sym = Some b →
  macroexpand1 (OList info meta seq) s = (Ok None, s).
Proof.
  intros Hsym Hb. apply macroexpand1_no_macro.
  unfold resolveMacro. rewrite Hsym. rewrite bind_run.
  unfold getCtx, gets. cbn [id]. by rewrite Hb.
Qed.

End Usage.

Lemma local_binding_shadows_global_witness :
  ∃ s', @ParseN Demo.strict 1 (Demo.rsym 9 1 "x") Demo.sX
        = (Ok (BindingExpr (GetPosition (Demo.rsym 9 1 "x"))
                 (mkBinding (Demo.sym "x") 0 0 true None)), s') ∧
        GLOBAL_ENV s' = Demo.envX.
Proof.
  destruct (@local_binding_shadows_global Demo.strict 0 (Demo.rsym 9 1 "x")
              (mkSymbol (Demo.at_ "user.clj" 9 1) None None "x")
              (mkBinding (Demo.sym "x") 0 0 false None) Demo.sX
              eq_refl eq_refl) as (s' & Hrun & _ & _ & Henv & _).
  exists s'. split; [exact Hrun|exact Henv].
Defined.

Lemma local_binding_shadows_macro_witness :
  @macroexpand1 Demo.strict
    (Demo.rlist 9 1 [Demo.rsym 9 2 "x"; Demo.rint 9 4 1]) Demo.sX
  = (Ok None, Demo.sX).
Proof.
  apply (@local_binding_shadows_macro Demo.strict (Demo.at_ "user.clj" 9 1)
           None [Demo.rsym 9 2 "x"; Demo.rint 9 4 1]
           (mkSymbol (Demo.at_ "user.clj" 9 2) None None "x")
           (mkBinding (Demo.sym "x") 0 0 false None) Demo.sX
           eq_refl eq_refl).
Defined.

(** ** What parsing leaves as it found it *)

Lemma sameBinding_refl x : sameBinding x x.
Proof. by left. Qed.

Lemma sameBinding_trans x y z : sameBinding x y → sameBinding y z → sameBinding x z.
Proof.
  intros [->| ->] [->| ->]; unfold sameBinding; auto.
Qed.

#[global] Instance sameFrame_refl : Reflexive sameFrame.
Proof.
  intros f. split; [done|]. intros k.
  destruct (bindings f !! k); constructor. apply sameBinding_refl.
Qed.

#[global] Instance sameFrame_trans : Transitive sameFrame.
Proof.
  intros f g h [Hf1 Hf2] [Hg1 Hg2]. split; [congruence|]. intros k.
  specialize (Hf2 k). specialize (Hg2 k).
  destruct Hf2 as [x y Hxy|]; inversion Hg2; subst; constructor.
  by eapply sameBinding_trans.
Qed.

#[global] Instance sameScope_refl : Reflexive sameScope.
Proof. exact (_ : Reflexive (Forall2 sameFrame)). Qed.

#[global] Instance sameScope_trans : Transitive sameScope.
Proof. exact (_ : Transitive (Forall2 sameFrame)). Qed.

#[global] Instance innerScope_refl : Reflexive innerScope.
Proof. intros [|f b]; cbn; [done|]. split; [done|reflexivity]. Qed.

#[global] Instance innerScope_trans : Transitive innerScope.
Proof.
  intros [|f b] [|g c] [|h d]; cbn; try done.
  intros [H1 H2] [H3 H4]. split; [congruence|]. by etrans.
Qed.

Lemma sameScope_innerScope b b' : sameScope b b' → innerScope b b'.
Proof.
  intros H. destruct H as [|f f' b b' [Hf _] Hb]; cbn; [done|]. by split.
Qed.

#[global] Instance quietStep_refl : Reflexive quietStep.
Proof. by intros s. Qed.

#[global] Instance quietStep_trans : Transitive quietStep.
Proof.
  intros s1 s2 s3 (H1 & H2 & H3) (H4 & H5 & H6). unfold quietStep.
  repeat split; congruence.
Qed.

(** *** The rules of [keeps] *)

Lemma keeps_ret (R : relation PState) `{!Reflexive R} {A} (a : A) :
  keeps R (mret a).
Proof. intros s. reflexivity. Qed.

Lemma keeps_panic (R : relation PState) `{!Reflexive R} {A} p :
  keeps R (@panic A p).
Proof. intros s. reflexivity. Qed.

Lemma keeps_gets (R : relation PState) `{!Reflexive R} {A} (f : PState → A) :
  keeps R (gets f).
Proof. intros s. reflexivity. Qed.

Lemma keeps_getCtx (R : relation PState) `{!Reflexive R} {A}
    (f : ParseContext → A) :
  keeps R (getCtx f).
Proof. intros s. reflexivity. Qed.

Lemma keeps_liftRes (R : relation PState) `{!Reflexive R} {A} (r : Res A) :
  keeps R (liftRes r).
Proof. intros s. reflexivity. Qed.

Lemma keeps_bind (R : relation PState) `{!Transitive R} {A B} (m : M A)
    (f : A → M B) :
  keeps R m → (∀ a, keeps R (f a)) → keeps R (m ≫= f).
Proof.
  intros Hm Hf s. rewrite bind_run. specialize (Hm s).
  destruct (m s) as [[a|p] s1]; cbn in Hm |- *; [|exact Hm].
  etrans; [exact Hm|apply Hf].
Qed.

Lemma keeps_with_defer (R : relation PState) `{!Transitive R} {A} (d : M unit)
    (m : M A) :
  keeps R m → keeps R d → keeps R (with_defer d m).
Proof.
  intros Hm Hd s. unfold with_defer. specialize (Hm s).
  destruct (m s) as [r s1]. specialize (Hd s1). cbn in Hm.
  destruct (d s1) as [[[]|p] s2]; cbn in Hd |- *; by etrans.
Qed.

Lemma keeps_when (R : relation PState) `{!Reflexive R} (b : bool) (m : M unit) :
  (b = true → keeps R m) → keeps R (when b m).
Proof. destruct b; cbn; [auto|]. intros _. by apply keeps_ret. Qed.

Lemma keeps_weaken (R R' : relation PState) {A} (m : M A) :
  (∀ s s', R s s' → R' s s') → keeps R m → keeps R' m.
Proof. intros H Hm s. apply H, Hm. Qed.

Lemma keeps_getVar (R : relation PState) `{!Reflexive R} v : keeps R (getVar v).
Proof. intros s. unfold getVar. by destruct (Vars (GLOBAL_ENV s) !! v). Qed.

Lemma keeps_getNs (R : relation PState) `{!Reflexive R} n : keeps R (getNs n).
Proof. intros s. unfold getNs. by destruct (Namespaces (GLOBAL_ENV s) !! n). Qed.

Create HintDb keeps.

Ltac keeps_step :=
  first
    [ assumption
    | solve [auto with keeps]
    | apply keeps_ret; apply _
    | apply keeps_panic; apply _
    | apply keeps_gets; apply _
    | apply keeps_getCtx; apply _
    | apply keeps_liftRes; apply _
    | apply keeps_getVar; apply _
    | apply keeps_getNs; apply _
    | apply keeps_bind; [apply _| |intros ?; cbv beta]
    | apply keeps_with_defer; [apply _| |]
    | apply keeps_when; [apply _|intros ?]
    | lazymatch goal with
      | |- keeps _ (match ?x with _ => _ end) => destruct x eqn:?
      | |- keeps _ (if ?x then _ else _) => destruct x eqn:?
      end
    | solve [eauto with keeps] ].

Ltac keeps_auto := repeat keeps_step.

Section Balanced.
Context `{W : World}.

#[local] Instance reported_refl : Reflexive reported.
Proof.
  intros s. exists []. rewrite app_nil_r. cbn. split; [done|]. split; [lia|done].
Qed.

#[local] Instance reported_trans : Transitive reported.
Proof.
  intros s1 s2 s3 (d1 & H1 & H2 & H3) (d2 & H4 & H5 & H6).
  exists (d1 ++ d2). rewrite H4, H1, H5, H2, length_app, app_assoc.
  split; [done|]. split; [lia|]. intros HL. by rewrite H3, H6.
Qed.

Lemma reported_same s s' :
  Stderr s' = Stderr s → PROBLEM_COUNT s' = PROBLEM_COUNT s → reported s s'.
Proof.
  intros H1 H2. exists []. rewrite app_nil_r. cbn.
  split; [done|]. split; [lia|done].
Qed.

#[local] Instance KeptG_refl RL u `{!Reflexive RL} : Reflexive (KeptG RL u).
Proof. intros s. unfold KeptG. repeat split; reflexivity. Qed.

#[local] Instance KeptG_trans RL u `{!Transitive RL} : Transitive (KeptG RL u).
Proof.
  intros s1 s2 s3 (H1 & H2 & H3 & H4 & H5 & H6) (G1 & G2 & G3 & G4 & G5 & G6).
  unfold KeptG. repeat split; try congruence; try (by etrans).
  intros Hu. rewrite G5, H5; done.
Qed.

Lemma quietStep_KeptG RL u `{!Reflexive RL} s s' :
  quietStep s s' → KeptG RL u s s'.
Proof.
  intros (H1 & H2 & H3). unfold KeptG. rewrite H1.
  repeat split; try reflexivity.
  exists []. rewrite app_nil_r. cbn. split; [done|]. split; [lia|done].
Qed.

Lemma keeps_quiet RL u `{!Reflexive RL} {A} (m : M A) :
  keeps quietStep m → keeps (KeptG RL u) m.
Proof. apply keeps_weaken. intros s s'. by apply quietStep_KeptG. Qed.

(** *** Steps on the environment and the memoized vars *)

Lemma quiet_modEnv f : keeps quietStep (modEnv f).
Proof. by intros s. Qed.

Lemma quiet_modVar v f : keeps quietStep (modVar v f).
Proof. unfold modVar. pose proof quiet_modEnv. keeps_auto. Qed.

Lemma quiet_modNs n f : keeps quietStep (modNs n f).
Proof. unfold modNs. pose proof quiet_modEnv. keeps_auto. Qed.

Lemma quiet_memoCoreVar getf setf nm :
  (∀ v, keeps quietStep (modify (setf v))) →
  keeps quietStep (memoCoreVar getf setf nm).
Proof. intros H. unfold memoCoreVar, getEnv. keeps_auto. Qed.

End Balanced.

Section Balanced2.
Context `{W : World}.

#[local] Existing Instance reported_refl.
#[local] Existing Instance reported_trans.
#[local] Existing Instance KeptG_refl.
#[local] Existing Instance KeptG_trans.

(** *** Steps on the context and the diagnostics *)

Lemma keeps_set_recur RL u `{!Reflexive RL} b :
  keeps (KeptG RL u) (modCtx (set_recur b)).
Proof.
  intros s. unfold KeptG. cbn. split_and!; try reflexivity.
  by apply reported_same.
Qed.

Lemma keeps_printError RL u `{!Reflexive RL} pos msg :
  LINTER_MODE = true → keeps (KeptG RL u) (printError pos msg).
Proof.
  intros HL s. unfold KeptG. cbn. split_and!; try reflexivity.
  exists [mkDiagnostic pos msg]. cbn. split; [done|]. split; [lia|].
  intros HL'. congruence.
Qed.

Lemma keeps_printParseWarning RL u `{!Reflexive RL} pos msg :
  LINTER_MODE = true → keeps (KeptG RL u) (printParseWarning pos msg).
Proof. apply keeps_printError; done. Qed.

Lemma keeps_printParseError RL u `{!Reflexive RL} pos msg :
  LINTER_MODE = true → keeps (KeptG RL u) (printParseError pos msg).
Proof. apply keeps_printError; done. Qed.

(** [AddBinding] rewrites the innermost frame of the chain it is given and
    may print; handed back is a chain with the same parent. *)
Lemma AddBinding_run b sym i sk t s :
  ∃ r s', AddBinding b sym i sk t s = (r, s') ∧
    ctx s' = ctx s ∧ reported s s' ∧
    ∀ b', r = Ok b' →
      ∃ f f' parent, b = f :: parent ∧ b' = f' :: parent ∧ frame f' = frame f.
Proof.
  destruct b as [|f parent]; cbn [AddBinding].
  { eexists _, s. split; [reflexivity|]. split; [done|]. split; [reflexivity|].
    intros b'. discriminate. }
  assert (Hw : ∃ s', when (LINTER_MODE && negb sk)
                 (match bindings f !! name sym with
                  | Some old =>
                      when (needsUnusedWarning old)
                        (printParseWarning (GetPosition (symObj (b_name old)))
                           ("Unused binding: " +:+ ToString (symObj (b_name old))))
                  | None => mret tt
                  end) s = (Ok tt, s') ∧ ctx s' = ctx s ∧ reported s s').
  { destruct LINTER_MODE eqn:HL; cbn [andb when];
      [|exists s; split; [done|split; [done|reflexivity]]].
    destruct sk; cbn [negb when];
      [exists s; split; [done|split; [done|reflexivity]]|].
    destruct (bindings f !! name sym) as [old|];
      [|exists s; split; [done|split; [done|reflexivity]]].
    destruct (needsUnusedWarning old); cbn [when];
      [|exists s; split; [done|split; [done|reflexivity]]].
    eexists. split; [reflexivity|]. split; [done|].
    eexists [_]. cbn. split; [done|]. split; [lia|congruence]. }
  destruct Hw as (s' & Hw & Hctx & Hrep).
  eexists _, s'. rewrite (bind_Ok _ _ _ _ _ Hw). split; [reflexivity|].
  split; [done|]. split; [done|]. intros b' [= <-].
  eexists _, _, _. split_and!; reflexivity.
Qed.

Lemma keeps_localAddBinding u sym i sk t :
  keeps (KeptG innerScope u) (localAddBinding sym i sk t).
Proof.
  intros s. unfold localAddBinding. rewrite bind_run.
  unfold getCtx at 1, gets at 1.
  destruct (AddBinding_run (localBindings (ctx s)) sym i sk t s)
    as (r & s' & Hrun & Hctx & Hrep & Hres).
  rewrite bind_run, Hrun. destruct r as [b'|p]; cbn.
  - destruct (Hres b' eq_refl) as (f & f' & parent & Hb & -> & Hf).
    unfold KeptG. cbn. rewrite Hctx, Hb. cbn.
    split_and!; done.
  - unfold KeptG. rewrite Hctx. split_and!; try reflexivity. done.
Qed.

Lemma addLinterSyms_run syms f parent s :
  ∃ f', addLinterSyms (f :: parent) syms s = (Ok (f' :: parent), s).
Proof.
  revert f. induction syms as [|o syms IH]; intros f; cbn [addLinterSyms].
  - by exists f.
  - destruct (asSymbol o) as [sym|]; [|apply IH].
    unfold AddBinding. rewrite andb_false_r. cbn [when].
    rewrite bind_run. cbn [mret M_ret]. rewrite bind_run. cbn [mret M_ret].
    apply IH.
Qed.

(** *** Brackets: what is pushed or set is popped or reset by the deferred
    call *)

Lemma keeps_local_frame u {A} names (m : M A) :
  keeps (KeptG sameScope u) m →
  keeps (KeptG sameScope u) (PushLocalFrame names;; with_defer PopLocalFrame m).
Proof.
  intros Hm s. destruct (PushLocalFrame_run names s) as (bs & Hrun & _).
  rewrite (bind_Ok _ _ _ _ _ Hrun). unfold with_defer.
  match goal with |- context [m ?s1] => specialize (Hm s1) end.
  destruct (m _) as [r s2]. cbn in Hm.
  destruct Hm as (H1 & H2 & H3 & H4 & H5 & H6).
  inversion H1 as [|F F' lb lb' HF Hlb Heq1 Heq2]. subst.
  unfold PopLocalFrame. rewrite bind_run. unfold getCtx at 1, gets at 1.
  rewrite <- Heq2. cbn. unfold KeptG. cbn. split_and!; try done.
Qed.

Lemma keeps_empty_frame u {A} (m : M A) :
  keeps (KeptG innerScope u) m →
  keeps (KeptG sameScope u) (PushEmptyLocalFrame;; with_defer PopLocalFrame m).
Proof.
  intros Hm s. rewrite bind_run. unfold PushEmptyLocalFrame at 1, modCtx at 1,
    modify at 1. unfold with_defer.
  match goal with |- context [m ?s1] => specialize (Hm s1) end.
  destruct (m _) as [r s2]. cbn in Hm.
  destruct Hm as (H1 & H2 & H3 & H4 & H5 & H6).
  destruct (localBindings (ctx s2)) as [|F' lb'] eqn:Hlb; [done|].
  destruct H1 as [HF Hs].
  unfold PopLocalFrame. rewrite bind_run. unfold getCtx at 1, gets at 1.
  rewrite Hlb. cbn. unfold KeptG. cbn. split_and!; try done.
Qed.

Lemma PopLoopBindings_snoc s l nms :
  loopBindings (ctx s) = l ++ [nms] →
  PopLoopBindings s = (Ok tt, set_ctx (set_loopBindings l (ctx s)) s).
Proof.
  intros H. unfold PopLoopBindings. rewrite bind_run.
  unfold getCtx, gets. rewrite H.
  assert (Hr : removelast (l ++ [nms]) = l) by apply removelast_last.
  destruct (l ++ [nms]) eqn:Hl.
  { by apply app_eq_nil in Hl as [_ ?]. }
  unfold modCtx, modify. by rewrite Hr.
Qed.

Lemma keeps_loop_frame RL u {A} nms (m : M A) :
  keeps (KeptG RL u) m →
  keeps (KeptG RL u) (PushLoopBindings nms;; with_defer PopLoopBindings m).
Proof.
  intros Hm s. rewrite bind_run. unfold PushLoopBindings at 1, modCtx at 1,
    modify at 1. unfold with_defer.
  match goal with |- context [m ?s1] => specialize (Hm s1) end.
  destruct (m _) as [r s2]. cbn in Hm.
  destruct Hm as (H1 & H2 & H3 & H4 & H5 & H6).
  rewrite (PopLoopBindings_snoc s2 _ _ H2).
  unfold KeptG. cbn. split_and!; try done.
Qed.

Lemma keeps_noRecur_frame RL u {A} b (m : M A) :
  keeps (KeptG RL u) m →
  keeps (KeptG RL u)
    (x ← getCtx noRecurAllowed;
     modCtx (set_noRecurAllowed b);;
     with_defer (modCtx (set_noRecurAllowed x)) m).
Proof.
  intros Hm s. rewrite bind_run. unfold getCtx at 1, gets at 1.
  rewrite bind_run. unfold modCtx at 1, modify at 1. unfold with_defer.
  match goal with |- context [m ?s1] => specialize (Hm s1) end.
  destruct (m _) as [r s2]. cbn in Hm.
  destruct Hm as (H1 & H2 & H3 & H4 & H5 & H6).
  cbn. unfold KeptG. cbn. split_and!; try done.
Qed.

Lemma keeps_unknown_frame RL {A} (m : bool → M A) :
  (∀ x, keeps (KeptG RL false) (m x)) →
  keeps (KeptG RL true)
    (x ← getCtx isUnknownCallableScope;
     with_defer (modCtx (set_isUnknownCallableScope x)) (m x)).
Proof.
  intros Hm s. rewrite bind_run. unfold getCtx at 1, gets at 1.
  unfold with_defer.
  specialize (Hm (isUnknownCallableScope (ctx s)) s).
  destruct (m _ s) as [r s2]. cbn in Hm.
  destruct Hm as (H1 & H2 & H3 & H4 & H5 & H6).
  cbn. unfold KeptG. cbn. split_and!; try done.
Qed.

Lemma keeps_linter_frame RL u {A} syms (m : M A) :
  keeps (KeptG RL u) m →
  keeps (KeptG RL u)
    (modCtx (λ c, set_linterBindings (PushFrame (linterBindings c)) c);;
     with_defer
       (lb ← getCtx linterBindings;
        lb' ← PopFrame lb;
        modCtx (set_linterBindings lb'))
       (lb ← getCtx linterBindings;
        lb' ← addLinterSyms lb syms;
        modCtx (set_linterBindings lb');;
        m)).
Proof.
  intros Hm s. rewrite bind_run. unfold modCtx at 1, modify at 1.
  unfold with_defer. rewrite bind_run. unfold getCtx at 1, gets at 1.
  cbn [ctx set_ctx linterBindings set_linterBindings]. unfold PushFrame at 1.
  rewrite bind_run.
  match goal with
  | |- context [addLinterSyms (?f :: ?p) syms ?s1] =>
      destruct (addLinterSyms_run syms f p s1) as (f' & Hadd)
  end.
  rewrite Hadd. rewrite bind_run. unfold modCtx at 1, modify at 1.
  match goal with |- context [m ?s2] => specialize (Hm s2) end.
  destruct (m _) as [r s3]. cbn in Hm.
  destruct Hm as (H1 & H2 & H3 & H4 & H5 & H6).
  rewrite bind_run. unfold getCtx, gets. rewrite H3. cbn.
  unfold KeptG. cbn. split_and!; try done.
Qed.

Lemma keeps_set_unknown RL `{!Reflexive RL} b :
  keeps (KeptG RL false) (modCtx (set_isUnknownCallableScope b)).
Proof.
  intros s. unfold KeptG. cbn. split_and!; try reflexivity; try done.
  by apply reported_same.
Qed.

End Balanced2.

Section Kept.
Context `{W : World}.
Hypothesis HQ : WorldQuiet.

#[local] Existing Instance reported_refl.
#[local] Existing Instance reported_trans.
#[local] Existing Instance KeptG_refl.
#[local] Existing Instance KeptG_trans.

Abbreviation K := (KeptG sameScope true).
Abbreviation KU := (KeptG sameScope false).
Abbreviation KI := (KeptG innerScope true).

Ltac linter_on :=
  repeat match goal with
         | H : negb _ = false |- _ => apply negb_false_iff in H
         | H : _ && _ = true |- _ => apply andb_prop in H as [? ?]
         end;
  done.

Ltac kstep :=
  first
    [ apply keeps_local_frame
    | apply keeps_empty_frame
    | apply keeps_loop_frame
    | apply keeps_noRecur_frame
    | apply keeps_unknown_frame; intros ?
    | apply keeps_linter_frame
    | apply keeps_set_recur; apply _
    | apply keeps_set_unknown; apply _
    | apply keeps_localAddBinding
    | apply keeps_printParseWarning; [apply _|linter_on]
    | apply keeps_printParseError; [apply _|linter_on]
    | apply keeps_quiet; [apply _|solve [auto with keeps]]
    | keeps_step ].

Ltac kauto := repeat kstep.

(** *** Steps that only read, or only write to the registry *)

Lemma quiet_Intern k x : keeps quietStep (Intern k x).
Proof. apply HQ. Qed.
Lemma quiet_InternFake k x : keeps quietStep (InternFake k x).
Proof. apply HQ. Qed.
Lemma quiet_generateSymbol p : keeps quietStep (generateSymbol p).
Proof. apply HQ. Qed.
Lemma quiet_Eval e : keeps quietStep (Eval e).
Proof. apply HQ. Qed.
Lemma quiet_SetMacroExpr_Eval v : keeps quietStep (SetMacroExpr_Eval v).
Proof. apply HQ. Qed.

#[local] Hint Resolve quiet_modEnv quiet_modVar quiet_modNs quiet_Intern
  quiet_InternFake quiet_generateSymbol quiet_Eval quiet_SetMacroExpr_Eval
  : keeps.

Lemma quiet_asSeq obj : keeps quietStep (asSeq obj).
Proof. unfold asSeq. keeps_auto. Qed.

#[local] Hint Resolve quiet_asSeq : keeps.

Lemma quiet_checkForm obj lo hi : keeps quietStep (checkForm obj lo hi).
Proof. unfold checkForm. keeps_auto. Qed.

Lemma quiet_isCreatedByMacro seq : keeps quietStep (isCreatedByMacro seq).
Proof. unfold isCreatedByMacro. keeps_auto. Qed.

Lemma quiet_updateVar vr info e sym : keeps quietStep (updateVar vr info e sym).
Proof. unfold updateVar. keeps_auto. Qed.

Lemma quiet_MakeVarRefExpr vr obj : keeps quietStep (MakeVarRefExpr vr obj).
Proof. unfold MakeVarRefExpr. keeps_auto. Qed.

Lemma quiet_InternFakeSymbol symNs obj sym :
  keeps quietStep (InternFakeSymbol symNs obj sym).
Proof. unfold InternFakeSymbol, getEnv. keeps_auto. Qed.

Lemma quiet_resolveMacro obj : keeps quietStep (resolveMacro obj).
Proof. unfold resolveMacro, getEnv. keeps_auto. Qed.

#[local] Hint Resolve quiet_checkForm quiet_isCreatedByMacro quiet_updateVar
  quiet_MakeVarRefExpr quiet_InternFakeSymbol quiet_resolveMacro : keeps.

Lemma quiet_macroexpand1 obj : keeps quietStep (macroexpand1 obj).
Proof. unfold macroexpand1. keeps_auto. Qed.

Lemma quiet_memo getf setf nm :
  (∀ v s, quietStep s (setf v s)) →
  keeps quietStep (memoCoreVar getf setf nm).
Proof. intros H. apply quiet_memoCoreVar. intros v s. apply H. Qed.

Lemma quiet_getRequireVar : keeps quietStep getRequireVar.
Proof. apply quiet_memo. done. Qed.
Lemma quiet_getReferVar : keeps quietStep getReferVar.
Proof. apply quiet_memo. done. Qed.
Lemma quiet_getAliasVar : keeps quietStep getAliasVar.
Proof. apply quiet_memo. done. Qed.
Lemma quiet_getCreateNsVar : keeps quietStep getCreateNsVar.
Proof. apply quiet_memo. done. Qed.
Lemma quiet_getInNsVar : keeps quietStep getInNsVar.
Proof. apply quiet_memo. done. Qed.

Lemma quiet_isKnownMacros sym : keeps quietStep (isKnownMacros sym).
Proof.
  unfold isKnownMacros.
  assert (keeps quietStep
            (memoCoreVar KNOWN_MACROS set_KNOWN_MACROS "*known-macros*"))
    by (apply quiet_memo; done).
  keeps_auto.
Qed.

#[local] Hint Resolve quiet_macroexpand1 quiet_getRequireVar quiet_getReferVar
  quiet_getAliasVar quiet_getCreateNsVar quiet_getInNsVar quiet_isKnownMacros
  : keeps.

Lemma quiet_isUnknownCallable e : keeps quietStep (isUnknownCallable e).
Proof. unfold isUnknownCallable, getEnv. keeps_auto. Qed.

Lemma quiet_valueEqualsVar val v : keeps quietStep (valueEqualsVar val v).
Proof. unfold valueEqualsVar. keeps_auto. Qed.

#[local] Hint Resolve quiet_isUnknownCallable quiet_valueEqualsVar : keeps.

(** *** The sub-parsers, over a [Parse] that keeps the balance *)

Section SubKept.
Variable Parse : Object → M Expr.
Hypothesis HP : ∀ o, keeps K (Parse o).

Lemma kept_parseSeq seq : keeps K (parseSeq Parse seq).
Proof. induction seq; cbn [parseSeq]; kauto. Qed.

#[local] Hint Resolve kept_parseSeq : keeps.

Lemma kept_parseVector v pos : keeps K (parseVector Parse v pos).
Proof. unfold parseVector. kauto. Qed.

Lemma kept_parseSet v pos : keeps K (parseSet Parse v pos).
Proof. unfold parseSet. kauto. Qed.

Lemma kept_parseMapEntries m : keeps K (parseMapEntries Parse m).
Proof. induction m; cbn [parseMapEntries]; kauto. Qed.

#[local] Hint Resolve kept_parseMapEntries : keeps.

Lemma kept_parseMap m pos : keeps K (parseMap Parse m pos).
Proof. unfold parseMap. kauto. Qed.

#[local] Hint Resolve kept_parseVector kept_parseSet kept_parseMap : keeps.

Lemma kept_parseDef obj isForLinter : keeps K (parseDef Parse obj isForLinter).
Proof. unfold parseDef, getEnv. kauto. Qed.

Lemma kept_lintBodyExpr ro e :
  LINTER_MODE = true → keeps K (lintBodyExpr ro e).
Proof. intros HL. unfold lintBodyExpr. kauto. Qed.

Lemma kept_parseBodyLoop seq res : keeps K (parseBodyLoop Parse seq res).
Proof.
  revert res. induction seq; intros res; cbn [parseBodyLoop]; kauto.
  by apply kept_lintBodyExpr.
Qed.

#[local] Hint Resolve kept_parseBodyLoop : keeps.

Lemma kept_parseBody seq : keeps K (parseBody Parse seq).
Proof. unfold parseBody. kauto. Qed.

#[local] Hint Resolve kept_parseDef kept_parseBody : keeps.

Lemma kept_bindingSymbol ro : keeps K (bindingSymbol ro).
Proof. unfold bindingSymbol. kauto. Qed.

#[local] Hint Resolve kept_bindingSymbol : keeps.

Lemma kept_parseParamsLoop v res : keeps K (parseParamsLoop v res).
Proof. revert res. induction v; intros res; cbn [parseParamsLoop]; kauto. Qed.

Lemma kept_parseParams params : keeps K (parseParams params).
Proof. unfold parseParams. pose proof kept_parseParamsLoop. kauto. Qed.

#[local] Hint Resolve kept_parseParams : keeps.

Lemma kept_warnUnused RL u `{!Reflexive RL} `{!Transitive RL} what :
  LINTER_MODE = true → keeps (KeptG RL u) (warnUnused what).
Proof.
  intros HL. unfold warnUnused. kauto.
  match goal with |- keeps _ (foldr _ _ ?l) => induction l end;
    cbn [foldr]; kauto.
Qed.

Lemma kept_warnUnused_K what :
  LINTER_MODE = true → keeps K (warnUnused what).
Proof. apply kept_warnUnused; apply _. Qed.

Lemma kept_warnUnused_KI what :
  LINTER_MODE = true → keeps KI (warnUnused what).
Proof. apply kept_warnUnused; apply _. Qed.

#[local] Hint Resolve kept_warnUnused_K kept_warnUnused_KI : keeps.

Lemma kept_addArity fn sig : keeps K (addArity Parse fn sig).
Proof. unfold addArity. kauto. Qed.

#[local] Hint Resolve kept_addArity : keeps.

Lemma kept_wrapWithMeta fn obj : keeps K (wrapWithMeta Parse fn obj).
Proof. unfold wrapWithMeta. kauto. Qed.

Lemma kept_parseFnLoop bodies res : keeps K (parseFnLoop Parse bodies res).
Proof. revert res. induction bodies; intros res; cbn [parseFnLoop]; kauto. Qed.

#[local] Hint Resolve kept_wrapWithMeta kept_parseFnLoop : keeps.

Lemma kept_parseFnArities res obj bodies :
  keeps K (parseFnArities Parse res obj bodies).
Proof. unfold parseFnArities. kauto. Qed.

#[local] Hint Resolve kept_parseFnArities : keeps.

Lemma kept_parseFn obj : keeps K (parseFn Parse obj).
Proof. unfold parseFn. kauto. Qed.

Lemma kept_resolveType obj : keeps K (resolveType Parse obj).
Proof. unfold resolveType. kauto. Qed.

#[local] Hint Resolve kept_parseFn kept_resolveType : keeps.

Lemma kept_parseCatch obj : keeps K (parseCatch Parse obj).
Proof. unfold parseCatch. kauto. Qed.

#[local] Hint Resolve kept_parseCatch : keeps.

Lemma kept_parseTryLoop seq lt res obj :
  keeps K (parseTryLoop Parse seq lt res obj).
Proof.
  revert lt res obj. induction seq; intros lt res obj; cbn [parseTryLoop];
    unfold parseFinally; kauto.
Qed.

#[local] Hint Resolve kept_parseTryLoop : keeps.

Lemma kept_parseTry obj : keeps K (parseTry Parse obj).
Proof. unfold parseTry. kauto. Qed.

#[local] Hint Resolve kept_parseTry : keeps.

Lemma keeps_K_KI {A} (m : M A) : keeps K m → keeps KI m.
Proof.
  apply keeps_weaken. intros s s' (H1 & H2). split; [|done].
  by apply sameScope_innerScope.
Qed.

Lemma keeps_K_KU {A} (m : M A) : keeps K m → keeps KU m.
Proof.
  apply keeps_weaken. intros s s' (H1 & H2 & H3 & H4 & H5 & H6).
  unfold KeptG. split_and!; done.
Qed.

#[local] Hint Resolve keeps_K_KI keeps_K_KU : keeps.

Lemma kept_parseBindingsLoop formName sk b i nms vals :
  keeps KI (parseBindingsLoop Parse formName sk b i nms vals).
Proof.
  remember (length b) as n eqn:Hn. revert b Hn i nms vals.
  induction n as [n IH] using lt_wf_ind. intros b Hn i nms vals.
  destruct b as [|s [|v rest]]; cbn [parseBindingsLoop]; [kauto..|].
  assert (Hrest : ∀ i nms vals,
            keeps KI (parseBindingsLoop Parse formName sk rest i nms vals)).
  { intros. eapply (IH (length rest)); [|reflexivity]. subst n. cbn. lia. }
  kauto.
Qed.

#[local] Hint Resolve kept_parseBindingsLoop : keeps.

Lemma kept_parseLetLoop obj formName : keeps K (parseLetLoop Parse obj formName).
Proof. unfold parseLetLoop. kauto. Qed.

#[local] Hint Resolve kept_parseLetLoop : keeps.

Lemma kept_parseLet obj : keeps K (parseLet Parse obj).
Proof. unfold parseLet. kauto. Qed.
Lemma kept_parseLoop obj : keeps K (parseLoop Parse obj).
Proof. unfold parseLoop. kauto. Qed.
Lemma kept_parseLetfn obj : keeps K (parseLetfn Parse obj).
Proof. unfold parseLetfn. kauto. Qed.

Lemma kept_parseRecur obj : keeps K (parseRecur Parse obj).
Proof. unfold parseRecur. kauto. Qed.

Lemma kept_parseSetMacro obj : keeps K (parseSetMacro Parse obj).
Proof. unfold parseSetMacro. kauto. Qed.

#[local] Hint Resolve kept_parseLet kept_parseLoop kept_parseLetfn
  kept_parseRecur kept_parseSetMacro : keeps.

(** The call-site checks run in linter mode only. *)
Lemma kept_reportNotAFunction RL u `{!Reflexive RL} pos nm :
  LINTER_MODE = true → keeps (KeptG RL u) (reportNotAFunction pos nm).
Proof. intros HL. unfold reportNotAFunction. kauto. Qed.

Lemma kept_checkTypesLoop da i call cargs res :
  LINTER_MODE = true → keeps KU (checkTypesLoop da i call cargs res).
Proof.
  intros HL. revert i res.
  induction da; intros i res; cbn [checkTypesLoop]; kauto.
Qed.

Lemma kept_reportWrongArity f isMacro call cargs pos :
  LINTER_MODE = true → keeps KU (reportWrongArity f isMacro call cargs pos).
Proof.
  intros HL. unfold reportWrongArity, checkTypes.
  pose proof (λ da i res, kept_checkTypesLoop da i call cargs res HL).
  kauto.
Qed.

Lemma kept_checkCall e isMacro call cargs pos :
  LINTER_MODE = true → keeps KU (checkCall e isMacro call cargs pos).
Proof.
  intros HL. unfold checkCall.
  pose proof (λ f, kept_reportWrongArity f isMacro call cargs pos HL).
  pose proof (λ nm, kept_reportNotAFunction sameScope false pos nm HL).
  kauto.
Qed.

Lemma kept_lintCall res callable cargs pos :
  LINTER_MODE = true → keeps KU (lintCall res callable cargs pos).
Proof.
  intros HL. unfold lintCall, orM.
  pose proof (λ f m, kept_reportWrongArity f m res cargs pos HL).
  pose proof (λ e m, kept_checkCall e m res cargs pos HL).
  pose proof (λ nm, kept_reportNotAFunction sameScope false pos nm HL).
  kauto.
Qed.

Lemma sameScope_setUsed b nm : sameScope b (Bindings_setUsed b nm).
Proof.
  induction b as [|env parent IH]; cbn [Bindings_setUsed]; [constructor|].
  destruct (bindings env !! nm) as [x|] eqn:Hx.
  - constructor; [|reflexivity]. split; [done|]. intros k. cbn [bindings].
    destruct (decide (k = nm)) as [->|Hne].
    + rewrite lookup_insert_eq, Hx. constructor. by right.
    + rewrite lookup_insert_ne by done.
      destruct (bindings env !! k); constructor. by left.
  - constructor; [reflexivity|exact IH].
Qed.

Lemma kept_setUsed u nm :
  keeps (KeptG sameScope u)
    (modCtx (λ c, set_localBindings (Bindings_setUsed (localBindings c) nm) c)).
Proof.
  intros s. unfold KeptG. cbn. split_and!; try done.
  - apply sameScope_setUsed.
  - by apply reported_same.
Qed.

#[local] Hint Resolve kept_setUsed : keeps.

Lemma kept_parseSymbolN n obj : keeps K (parseSymbolN n obj).
Proof.
  revert obj. induction n as [|n IH]; intros obj; cbn [parseSymbolN];
    unfold getEnv, NewSurrogateExpr; kauto.
Qed.

Lemma kept_parseSymbol obj : keeps K (parseSymbol obj).
Proof. unfold parseSymbol. apply kept_parseSymbolN. Qed.

Lemma kept_parseVarForm obj seq pos : keeps K (parseVarForm obj seq pos).
Proof. unfold parseVarForm, getEnv. kauto. Qed.

#[local] Hint Resolve kept_parseSymbol kept_parseVarForm : keeps.

Lemma kept_parseSpecialForm obj seq pos nm m :
  parseSpecialForm Parse obj seq pos nm = Some m → keeps K m.
Proof.
  unfold parseSpecialForm. intros H.
  repeat (case_bool_decide; [injection H as <-; kauto|]).
  discriminate.
Qed.

Lemma kept_parseCall seq pos cur : keeps KU (parseCall Parse seq pos cur).
Proof.
  unfold parseCall.
  pose proof (λ res callable cargs, kept_lintCall res callable cargs pos).
  kauto.
Qed.

#[local] Hint Resolve kept_parseCall : keeps.

Lemma kept_parseList obj : keeps K (parseList Parse obj).
Proof.
  unfold parseList. kauto.
  apply keeps_K_KU.
  match goal with
  | H : match ?x with _ => _ end = Some _ |- _ =>
      destruct x as [| | | | |? ? [?|] ?| | | | | | | |]; try discriminate
  end.
  by eapply kept_parseSpecialForm.
Qed.

Lemma kept_Parse_step obj : keeps K (Parse_step Parse obj).
Proof.
  pose proof kept_parseList.
  unfold Parse_step, NewLiteralExpr. destruct obj; kauto.
Qed.

End SubKept.

(** The parser keeps the balance at every depth, whether it returns or
    panics. *)
Lemma kept_ParseN n obj : keeps K (ParseN n obj).
Proof.
  revert obj. induction n as [|n IH]; intros obj; cbn [ParseN].
  - kauto.
  - by apply kept_Parse_step.
Qed.

Lemma sameScope_GetBinding b b' sym :
  sameScope b b' →
  option_Forall2 sameBinding (GetBinding b sym) (GetBinding b' sym).
Proof.
  induction 1 as [|f f' b b' [_ Hf] _ IH]; cbn [GetBinding]; [constructor|].
  specialize (Hf (name sym)).
  destruct Hf as [x x' Hx|]; [by constructor|exact IH].
Qed.

(** Parsing leaves the lexical scope as it found it, whether it returns or
    panics: the same frames with the same numbers and the same names, so
    that every symbol resolves after the call to the binding it resolved to
    before; the one thing that may have changed is the used mark of a
    binding. *)
Theorem Parse_restores_scope (n : nat) (obj : Object) (s : PState) :
  let s' := (ParseN n obj s).2 in
  sameScope (localBindings (ctx s)) (localBindings (ctx s')) ∧
  ∀ sym, option_Forall2 sameBinding (GetLocalBinding (ctx s) sym)
           (GetLocalBinding (ctx s') sym).
Proof.
  destruct (kept_ParseN n obj s) as (H & _). split; [exact H|].
  intros sym. unfold GetLocalBinding. destruct (ns sym); [constructor|].
  by apply sameScope_GetBinding.
Qed.

(** Parsing leaves the stack of recursion points, the linter's bindings and
    the flags [noRecurAllowed] and [isUnknownCallableScope] as it found
    them, whether it returns or panics: every push and every assignment
    inside is undone by the deferred call that goes with it. *)
Theorem Parse_restores_context (n : nat) (obj : Object) (s : PState) :
  let s' := (ParseN n obj s).2 in
  loopBindings (ctx s') = loopBindings (ctx s) ∧
  linterBindings (ctx s') = linterBindings (ctx s) ∧
  noRecurAllowed (ctx s') = noRecurAllowed (ctx s) ∧
  isUnknownCallableScope (ctx s') = isUnknownCallableScope (ctx s).
Proof.
  destruct (kept_ParseN n obj s) as (_ & H1 & H2 & H3 & H4 & _).
  split_and!; auto.
Qed.


(** Diagnostics are only ever appended, and the problem counter advances
    by one for each line written. *)
Theorem Parse_counts_diagnostics (n : nat) (obj : Object) (s : PState) :
  let s' := (ParseN n obj s).2 in
  ∃ ds, Stderr s' = Stderr s ++ ds ∧
        PROBLEM_COUNT s' = (PROBLEM_COUNT s + Z.of_nat (length ds))%Z.
Proof.
  destruct (kept_ParseN n obj s) as (_ & _ & _ & _ & _ & H).
  destruct H as (ds & H1 & H2 & _). by exists ds.
Qed.


End Kept.

Lemma Demo_quiet (l i : bool) : @WorldQuiet (Demo.world l i).
Proof.
  assert (Hi : ∀ fake k x, keeps quietStep (Demo.intern fake k x)).
  { intros fake k x. unfold Demo.intern, getEnv.
    pose proof quiet_modEnv. keeps_auto. }
  unfold WorldQuiet. cbn. split_and!; intros; try apply Hi; keeps_auto.
Qed.

Lemma Parse_restores_scope_witness :
  sameScope (localBindings (ctx Demo.sX))
    (localBindings (ctx (@ParseN Demo.linter 6 Demo.fn2 Demo.sX).2)).
Proof. apply (@Parse_restores_scope Demo.linter (Demo_quiet _ _)). Defined.

Lemma Parse_restores_context_witness :
  noRecurAllowed (ctx (@ParseN Demo.strict 6 Demo.tryBad Demo.s0).2) = false.
Proof.
  apply (@Parse_restores_context Demo.strict (Demo_quiet _ _) 6 Demo.tryBad
           Demo.s0).
Defined.


Lemma Parse_counts_diagnostics_witness :
  ∃ ds, Stderr (@ParseN Demo.linter 6 Demo.if2 Demo.s0).2 = [] ++ ds ∧
        PROBLEM_COUNT (@ParseN Demo.linter 6 Demo.if2 Demo.s0).2
        = (0 + Z.of_nat (length ds))%Z.
Proof.
  apply (@Parse_counts_diagnostics Demo.linter (Demo_quiet _ _) 6 Demo.if2
           Demo.s0).
Defined.


(** ** Resetting the usage marks *)

Section Usage_reset.
Context `{W : World}.

Lemma foldl_unchanged {A B} (f : A → B → A) (l : list B) (a : A) :
  (∀ a x, x ∈ l → f a x = a) → foldl f a l = a.
Proof.
  induction l as [|x l IH]; intros H; cbn; [done|].
  rewrite H by left. apply IH. intros a' y Hy. apply H. by right.
Qed.

(** After [ResetUsage], a var that a namespace other than the core one maps
    a name to is marked used. *)
Lemma ResetUsage_marks (s : PState) k n nm v x :
  let e' := GLOBAL_ENV (ResetUsage s).2 in
  Namespaces e' !! k = Some n → k ≠ CoreNamespace e' →
  mappings n !! nm = Some v → Vars e' !! v = Some x → vr_isUsed x = true.
Proof.
  cbn. rewrite !map_lookup_imap. intros Hn Hk Hm Hx.
  destruct (Namespaces (GLOBAL_ENV s) !! k) as [n0|] eqn:Hn0; [|done].
  cbn in Hn. injection Hn as <-.
  rewrite bool_decide_eq_false_2 in Hm by done. cbn in Hm.
  destruct (Vars (GLOBAL_ENV s) !! v) as [x0|]; [|done]. cbn in Hx.
  injection Hx as <-. rewrite bool_decide_eq_true_2; [done|].
  apply list_elem_of_In, in_flat_map. exists (k, n0). split.
  - apply list_elem_of_In, elem_of_map_to_list, Hn0.
  - cbn. rewrite bool_decide_eq_false_2 by done.
    apply list_elem_of_In, list_elem_of_fmap. exists (nm, v). split; [done|].
    by apply elem_of_map_to_list.
Qed.

(** Once [ResetUsage] has run, the pass over the unused private vars has
    nothing to report, in whatever order the namespaces and their mappings
    are visited: it prints nothing and leaves the state alone. *)
Theorem ResetUsage_silences_unused_vars (s : PState) :
  let s1 := (ResetUsage s).2 in
  (∀ order morder,
     (∀ kv, kv ∈ order → Namespaces (GLOBAL_ENV s1) !! kv.1 = Some kv.2) →
     (∀ kv m, kv ∈ order → m ∈ morder kv.1 → mappings kv.2 !! m.1 = Some m.2) →
     WarnOnUnusedVars_over order morder s1 = (Ok tt, s1)) ∧
  (ResetUsage;; WarnOnUnusedVars) s = (Ok tt, s1).
Proof.
  intros s1.
  assert (Hover : ∀ order morder,
     (∀ kv, kv ∈ order → Namespaces (GLOBAL_ENV s1) !! kv.1 = Some kv.2) →
     (∀ kv m, kv ∈ order → m ∈ morder kv.1 → mappings kv.2 !! m.1 = Some m.2) →
     WarnOnUnusedVars_over order morder s1 = (Ok tt, s1)).
  { intros order morder Hord Hmord. unfold WarnOnUnusedVars_over.
    rewrite bind_run. unfold getEnv at 1, gets at 1.
    assert (Hc : collectVars (GLOBAL_ENV s1)
                   (λ _ vr, negb (vr_isUsed vr) && isPrivate vr)
                   (λ vr, name (vr_name vr)) order morder = ([], ∅)).
    { unfold collectVars. apply foldl_unchanged. intros acc kv Hkv.
      case_bool_decide as Hcore; [done|].
      apply foldl_unchanged. intros acc' m Hm.
      destruct (Vars (GLOBAL_ENV s1) !! m.2) as [vr|] eqn:Hvr; [|done].
      rewrite (ResetUsage_marks s kv.1 kv.2 m.1 m.2 vr
                 (Hord kv Hkv) Hcore (Hmord kv m Hkv Hm) Hvr).
      cbn. by rewrite andb_false_r. }
    rewrite Hc. reflexivity. }
  split; [exact Hover|].
  rewrite bind_run. change (ResetUsage s) with (Ok tt, s1).
  unfold WarnOnUnusedVars. rewrite bind_run. unfold getEnv at 1, gets at 1.
  apply Hover.
  - intros kv Hkv. by apply elem_of_map_to_list' in Hkv.
  - intros kv m Hkv Hm. unfold mappingsOrder in Hm.
    apply elem_of_map_to_list' in Hkv. rewrite Hkv in Hm.
    by apply elem_of_map_to_list' in Hm.
Qed.

End Usage_reset.

Lemma ResetUsage_silences_unused_vars_witness :
  let priv := mkVar (Demo.at_ "user.clj" 1 1) None (Some "user") (Demo.sym "x")
                None None false true false false false false None in
  let s := set_env (mkEnv (Namespaces Demo.envX) {[0 := priv]}
                      "joker.core" "user") Demo.s0 in
  map d_msg (Stderr (WarnOnUnusedVars s).2)
  = ["Parse warning: unused var x"] ∧
  (ResetUsage;; WarnOnUnusedVars) s = (Ok tt, (ResetUsage s).2) ∧
  Stderr (ResetUsage s).2 = [].
Proof.
  intros priv s. split; [vm_compute; reflexivity|]. split.
  - apply (proj2 (ResetUsage_silences_unused_vars s)).
  - reflexivity.
Defined.

(** ** Positions after macro expansion *)




(** ** Collection literals and sequences of forms *)

Section Collections.
Context `{W : World}.
Variable Parse : Object → M Expr.

Lemma parseSeq_length seq s es s' :
  parseSeq Parse seq s = (Ok es, s') → length es = length seq.
Proof.
  revert s es. induction seq as [|x seq IH]; intros s es H; cbn in H.
  - by inversion H.
  - apply bind_Ok_inv in H as (e & s1 & _ & H).
    apply bind_Ok_inv in H as (es' & s2 & Hes & H).
    inversion H; subst. cbn. f_equal. by eapply IH.
Qed.

Lemma parseMapEntries_length m s kvs s' :
  parseMapEntries Parse m s = (Ok kvs, s') →
  length kvs.1 = length m ∧ length kvs.2 = length m.
Proof.
  revert s kvs. induction m as [|p m IH]; intros s kvs H; cbn in H.
  - by inversion H.
  - apply bind_Ok_inv in H as (k & s1 & _ & H).
    apply bind_Ok_inv in H as (v & s2 & _ & H).
    apply bind_Ok_inv in H as (kvs' & s3 & Hkvs & H).
    inversion H; subst. cbn. destruct (IH _ _ Hkvs) as [-> ->]. done.
Qed.

Lemma parseMap_length m pos s mm s' :
  parseMap Parse m pos s = (Ok mm, s') →
  map_pos mm = pos ∧ length (keys mm) = length m ∧
  length (values mm) = length m.
Proof.
  unfold parseMap. intros H. apply bind_Ok_inv in H as (kvs & s1 & Hkvs & H).
  inversion H; subst. cbn. split; [done|]. by eapply parseMapEntries_length.
Qed.

(** A vector, set or map literal that parses gives an expression with one
    sub-expression for each element, a map one key and one value expression
    for each entry, at the position of the literal; when the literal has
    metadata, the expression is wrapped in a [MetaExpr] whose map has one
    key and one value expression for each entry of the metadata. *)
Theorem collection_literal_shape (obj : Object) (s : PState) (e : Expr)
    (s' : PState) :
  Parse_step Parse obj s = (Ok e, s') →
  let pos := GetPosition obj in
  let wrapped (meta : option MapData) (lit : Expr) : Prop :=
    match meta with
    | None => e = lit
    | Some md =>
        ∃ mm, e = MetaExpr pos mm lit ∧ map_pos mm = pos ∧
              length (keys mm) = length md ∧ length (values mm) = length md
    end in
  match obj with
  | OVector _ meta v =>
      ∃ es, length es = length v ∧ wrapped meta (VectorExpr pos es)
  | OMapSet _ meta v =>
      ∃ es, length es = length v ∧ wrapped meta (SetExpr pos es)
  | OMap _ meta m =>
      ∃ ks vs, length ks = length m ∧ length vs = length m ∧
               wrapped meta (MapExpr (mkMapExpr pos ks vs))
  | _ => True
  end.
Proof.
  intros H pos wrapped.
  assert (Hw : ∀ meta lit s1,
            (match meta with
             | Some md => m ← parseMap Parse md pos; mret (MetaExpr pos m lit)
             | None => mret lit
             end) s1 = (Ok e, s') → wrapped meta lit).
  { intros [md|] lit s1 Hm; unfold wrapped.
    - apply bind_Ok_inv in Hm as (mm & s2 & Hmm & Hm). inversion Hm; subst.
      exists mm. split; [done|]. by eapply parseMap_length.
    - by inversion Hm. }
  destruct obj as [| | | | | | |oi meta v|oi meta m|oi meta v| | | |];
    try done; unfold Parse_step in H; cbn [GetMeta] in H.
  - apply bind_Ok_inv in H as (res & s1 & Hres & H).
    unfold parseVector in Hres.
    apply bind_Ok_inv in Hres as (es & s2 & Hes & Hres).
    inversion Hres; subst. exists es.
    split; [by eapply parseSeq_length|]. by eapply Hw.
  - apply bind_Ok_inv in H as (res & s1 & Hres & H).
    destruct (parseMap_length _ _ _ _ _ Hres) as (Hpos & Hk & Hv).
    exists (keys res), (values res). split; [done|]. split; [done|].
    replace (mkMapExpr pos (keys res) (values res)) with res
      by (destruct res; cbn in Hpos; by subst).
    by eapply Hw.
  - apply bind_Ok_inv in H as (res & s1 & Hres & H).
    unfold parseSet in Hres.
    apply bind_Ok_inv in Hres as (es & s2 & Hes & Hres).
    inversion Hres; subst. exists es.
    split; [by eapply parseSeq_length|]. by eapply Hw.
Qed.

(** The forms of a sequence are parsed from left to right, and the first
    one that panics ends it: the panic and the state are those of that form,
    the forms after it are not looked at. *)
Theorem parseSeq_first_error (pre post : list Object) (x : Object)
    (s s1 s2 : PState) (es : list Expr) (p : Panic) :
  parseSeq Parse pre s = (Ok es, s1) →
  Parse x s1 = (Raise p, s2) →
  parseSeq Parse (pre ++ x :: post) s = (Raise p, s2).
Proof.
  revert s es. induction pre as [|y pre IH]; intros s es Hpre Hx; cbn in Hpre.
  - inversion Hpre; subst. cbn. by rewrite (bind_Raise _ _ _ _ _ Hx).
  - apply bind_Ok_inv in Hpre as (e & s3 & He & Hpre).
    apply bind_Ok_inv in Hpre as (es' & s4 & Hes & Hpre).
    inversion Hpre; subst. cbn. rewrite (bind_Ok _ _ _ _ _ He).
    by rewrite (bind_Raise _ _ _ _ _ (IH _ _ Hes Hx)).
Qed.

End Collections.

Lemma collection_literal_shape_witness :
  ∃ es, length es = 2 ∧
    (@ParseN Demo.strict 2 (Demo.rvec 1 1 [Demo.rint 1 2 1; Demo.rint 1 4 2])
       Demo.s0).1
    = Ok (VectorExpr
            (GetPosition (Demo.rvec 1 1 [Demo.rint 1 2 1; Demo.rint 1 4 2]))
            es).
Proof.
  destruct (@ParseN Demo.strict 2
              (Demo.rvec 1 1 [Demo.rint 1 2 1; Demo.rint 1 4 2]) Demo.s0)
    as [r s'] eqn:Hrun.
  assert (Hok : ∃ e, r = Ok e).
  { vm_compute in Hrun. injection Hrun as <- _. eauto. }
  destruct Hok as [e ->].
  destruct (@collection_literal_shape Demo.strict (@ParseN Demo.strict 1)
              (Demo.rvec 1 1 [Demo.rint 1 2 1; Demo.rint 1 4 2]) Demo.s0 e s'
              Hrun) as (es & Hlen & Hw).
  exists es. split; [exact Hlen|]. cbn in Hw. by rewrite Hw.
Defined.

Lemma parseSeq_first_error_witness :
  parseSeq (@ParseN Demo.strict 3)
    ([Demo.rint 1 2 1] ++ Demo.recur0 :: [Demo.rsym 1 9 "nowhere"]) Demo.s0
  = (Raise (ParseError Demo.recur0 "No recursion point for recur"), Demo.s0).
Proof.
  apply (parseSeq_first_error (@ParseN Demo.strict 3)
           [Demo.rint 1 2 1] [Demo.rsym 1 9 "nowhere"] Demo.recur0
           Demo.s0 Demo.s0 Demo.s0
           [LiteralExpr (GetPosition (Demo.rint 1 2 1)) (Demo.rint 1 2 1) false]
           (ParseError Demo.recur0 "No recursion point for recur")).
  - reflexivity.
  - vm_compute. reflexivity.
Defined.

(** ** recur inside try *)

Section RecurInTry.
Context `{W : World}.

(** Whether a head is a macro depends on the local scope and on the
    environment only. *)
Lemma resolveMacro_None_transfer (obj : Object) (s s' : PState) :
  localBindings (ctx s') = localBindings (ctx s) →
  GLOBAL_ENV s' = GLOBAL_ENV s →
  resolveMacro obj s = (Ok None, s) →
  resolveMacro obj s' = (Ok None, s').
Proof.
  intros Hlb Henv. unfold resolveMacro.
  destruct (asSymbol obj) as [sym|]; [|done].
  rewrite !bind_run. unfold getCtx, gets. cbn [id].
  unfold GetLocalBinding. rewrite Hlb.
  destruct (match ns sym with
            | Some _ => None
            | None => GetBinding (localBindings (ctx s)) sym
            end); [done|].
  rewrite !bind_run. unfold getEnv, gets. rewrite Henv.
  destruct (Resolve (GLOBAL_ENV s) sym) as [vr|]; [|done].
  rewrite !bind_run. unfold getVar. rewrite Henv.
  destruct (Vars (GLOBAL_ENV s) !! vr) as [x|]; [|done].
  destruct (negb (isMacro x) || bool_decide (Value x = None)); [done|].
  rewrite !bind_run. intros H. exfalso.
  destruct (modVar vr Var_setUsed s) as [[[]|p] s1]; [|discriminate].
  destruct (vr_ns x) as [k|]; [|discriminate].
  rewrite bind_run in H.
  destruct (modNs k Ns_setUsed s1) as [[[]|p] s2]; discriminate.
Qed.

(** A [recur] that is a body expression of a [try] is refused, whatever
    recursion points are in scope: [parseTry] sets [noRecurAllowed] for its
    children, and [parseRecur] checks it first.  The error is positioned at
    the [recur] form, and the state, flags included, is as before. *)
Theorem recur_across_try (n : nat) (info rinfo hi ri : option ObjectInfo)
    (meta rmeta hm rm : option MapData) (rargs rest : list Object)
    (s : PState) :
  let tryHead := OSymbol hi hm None (try STR) in
  let recurHead := OSymbol ri rm None (str_recur STR) in
  let recurForm := OList rinfo rmeta (recurHead :: rargs) in
  let obj := OList info meta (tryHead :: recurForm :: rest) in
  try STR ∉ [quote STR; _if STR; fn_ STR; let_ STR; letfn_ STR; loop_ STR;
             str_recur STR; setMacro_ STR; def STR; defLinter STR; _var STR;
             do STR; throw STR] →
  str_recur STR ∉ [quote STR; _if STR; fn_ STR; let_ STR; letfn_ STR;
                   loop_ STR] →
  isCatch recurForm = false → isFinally recurForm = false →
  resolveMacro tryHead s = (Ok None, s) →
  resolveMacro recurHead s = (Ok None, s) →
  ParseN (S (S n)) obj s
  = (Raise (ParseError recurForm "Cannot recur across try"), s).
Proof.
  intros tryHead recurHead recurForm obj Htry Hrecur Hcatch Hfin Hm1 Hm2.
  set (s1 := set_ctx (set_isUnknownCallableScope false (ctx s)) s).
  set (s2 := set_ctx (set_noRecurAllowed true (ctx s1)) s1).
  set (s3 := set_ctx (set_isUnknownCallableScope false (ctx s2)) s2).
  (* the recur form, parsed where the loop of parseTry meets it *)
  assert (Hinner : ParseN (S n) recurForm s2
            = (Raise (ParseError recurForm "Cannot recur across try"), s2)).
  { cbn [ParseN Parse_step recurForm]. unfold recurForm, recurHead.
    rewrite (parseList_special (ParseN n) rinfo rmeta ri rm _ rargs s2
               (parseRecur (ParseN n)
                  (OList rinfo rmeta (OSymbol ri rm None (str_recur STR)
                                      :: rargs)))).
    - unfold with_defer. rewrite bind_run. unfold modCtx at 1, modify at 1.
      unfold parseRecur. rewrite bind_run. unfold getCtx at 1, gets at 1.
      cbn. reflexivity.
    - by apply (resolveMacro_None_transfer _ s).
    - unfold parseSpecialForm.
      repeat (rewrite bool_decide_eq_false_2;
              [|intros Heq; apply Hrecur; rewrite Heq; set_solver]).
      by rewrite bool_decide_eq_true_2. }
  change (ParseN (S (S n)) obj s) with (parseList (ParseN (S n)) obj s).
  unfold obj, tryHead.
  rewrite (parseList_special (ParseN (S n)) info meta hi hm _
             (recurForm :: rest) s
             (t ← parseTry (ParseN (S n))
                    (OList info meta (OSymbol hi hm None (try STR)
                                      :: recurForm :: rest));
              mret (TryExpr t)) Hm1).
  - unfold with_defer at 1. rewrite bind_run. unfold modCtx at 1, modify at 1.
    fold s1. rewrite bind_run. unfold parseTry, asSeq. cbn [seqItems].
    rewrite bind_run. cbn [mret M_ret]. cbn [tail].
    rewrite bind_run. unfold getCtx at 1, gets at 1.
    rewrite bind_run. unfold modCtx at 1, modify at 1. fold s2.
    unfold with_defer at 1. rewrite bind_run.
    cbn [parseTryLoop]. rewrite bool_decide_eq_false_2 by done.
    rewrite Hcatch, Hfin. rewrite bool_decide_eq_false_2 by done.
    rewrite bind_run, Hinner.
    unfold modCtx, modify. subst s2 s1. destruct s as [[] ?]. reflexivity.
  - unfold parseSpecialForm.
    repeat (rewrite bool_decide_eq_false_2;
            [|intros Heq; apply Htry; rewrite Heq; set_solver]).
    by rewrite bool_decide_eq_true_2.
Qed.

End RecurInTry.

Lemma recur_across_try_witness :
  @ParseN Demo.strict 2
    (Demo.rlist 1 1 [Demo.rsym 1 2 "try"; Demo.recur0; Demo.rint 3 1 1])
    (Demo.sLoop [])
  = (Raise (ParseError Demo.recur0 "Cannot recur across try"), Demo.sLoop []).
Proof.
  apply (@recur_across_try Demo.strict 0 (Demo.at_ "user.clj" 1 1)
           (Demo.at_ "user.clj" 2 1) (Demo.at_ "user.clj" 1 2)
           (Demo.at_ "user.clj" 2 2) None None None None []
           [Demo.rint 3 1 1] (Demo.sLoop [])).
  - apply (bool_decide_unpack _). vm_compute. exact Logic.I.
  - apply (bool_decide_unpack _). vm_compute. exact Logic.I.
  - reflexivity.
  - reflexivity.
  - vm_compute. reflexivity.
  - vm_compute. reflexivity.
Defined.
